(** * logseq-plugin-block-to-page: the conversion engine, embedded and verified

    The development follows the two source files of the plugin:
    - [util.ts]  (property scanner, extractor, deep merge, serializer),
    - [index.ts] (the [main] conversion: consistency waiter and the
      relocation of the children).

    JavaScript strings are sequences of UTF-16 code units, objects are
    modelled by their own enumerable properties in enumeration order, and
    the calls to the Logseq host are threaded through an explicit world. *)

From Stdlib Require Import String Ascii List NArith ZArith Bool Lia.
Import ListNotations.

Set Implicit Arguments.
#[local] Set Warnings "-register-all".

(* ================================================================== *)
(** ** JavaScript strings *)
(* ================================================================== *)

Module Js.

(** A code unit of a JavaScript string. *)
Definition char := N.
Definition jsstring := list char.

(** String literals of the development are ASCII text. *)
Definition u (s : string) : jsstring :=
  map N_of_ascii (list_ascii_of_string s).

Fixpoint str_eqb (a b : jsstring) : bool :=
  match a, b with
  | [], [] => true
  | x :: a', y :: b' => N.eqb x y && str_eqb a' b'
  | _, _ => false
  end.

Definition in_range (lo hi c : N) : bool := N.leb lo c && N.leb c hi.

(** ECMAScript [LineTerminator]: LF, CR, LS, PS.  The regular expression
    atom [.] matches every code unit but these. *)
Definition isLineTerminator (c : char) : bool :=
  N.eqb c 10 || N.eqb c 13 || N.eqb c 8232 || N.eqb c 8233.

(** ECMAScript [\s]: WhiteSpace and LineTerminator. *)
Definition isWhiteSpace (c : char) : bool :=
  in_range 9 13 c || N.eqb c 32 || N.eqb c 160 || N.eqb c 5760
  || in_range 8192 8202 c || N.eqb c 8232 || N.eqb c 8233
  || N.eqb c 8239 || N.eqb c 8287 || N.eqb c 12288 || N.eqb c 65279.

(** ECMAScript [\w] (no [u]/[i] flag): [A-Za-z0-9_]. *)
Definition isWord (c : char) : bool :=
  in_range 48 57 c || in_range 65 90 c || N.eqb c 95 || in_range 97 122 c.

Definition isDot (c : char) : bool := negb (isLineTerminator c).

Definition isLowerLetter (c : char) : bool := in_range 97 122 c.

(** [String.prototype.toLowerCase] on the characters a property key can
    hold ([\w] is ASCII): [A-Z] go to [a-z], the rest is unchanged. *)
Definition lowerChar (c : char) : char :=
  if in_range 65 90 c then (c + 32)%N else c.
Definition toLowerCase (s : jsstring) : jsstring := map lowerChar s.

Definition LF : char := 10%N.

(** [s.split(sep)] for a one-character separator. *)
Fixpoint split (sep : char) (s : jsstring) : list jsstring :=
  match s with
  | [] => [[]]
  | c :: s' =>
      if N.eqb c sep then [] :: split sep s'
      else match split sep s' with
           | l :: ls => (c :: l) :: ls
           | [] => [[c]]
           end
  end.

(** [parts.join(sep)] on strings. *)
Fixpoint join (sep : jsstring) (parts : list jsstring) : jsstring :=
  match parts with
  | [] => []
  | [p] => p
  | p :: ps => p ++ sep ++ join sep ps
  end.

(** [Array.prototype.findIndex]: the index of the first element that
    satisfies [p], or [-1]. *)
Fixpoint findIndex {A} (p : A -> bool) (l : list A) : Z :=
  match l with
  | [] => (-1)%Z
  | x :: l' => if p x then 0%Z
               else let i := findIndex p l' in
                    if (i <? 0)%Z then (-1)%Z else (i + 1)%Z
  end.

(** [Array.prototype.slice(start, end)], relative indices included. *)
Definition clampIndex (len : nat) (i : Z) : nat :=
  if (i <? 0)%Z then Z.to_nat (Z.max (Z.of_nat len + i) 0)
  else Nat.min (Z.to_nat i) len.

Definition slice {A} (l : list A) (start stop : Z) : list A :=
  let s := clampIndex (length l) start in
  let e := clampIndex (length l) stop in
  firstn (e - s) (skipn s l).

(** [l.slice(start)]: up to the end. *)
Definition sliceFrom {A} (l : list A) (start : Z) : list A :=
  slice l start (Z.of_nat (length l)).

(** Decimal digits of a natural number, as [Number.prototype.toString]
    prints an integer. *)
Fixpoint digitsOfUint (d : Decimal.uint) : jsstring :=
  match d with
  | Decimal.Nil => []
  | Decimal.D0 d => 48%N :: digitsOfUint d
  | Decimal.D1 d => 49%N :: digitsOfUint d
  | Decimal.D2 d => 50%N :: digitsOfUint d
  | Decimal.D3 d => 51%N :: digitsOfUint d
  | Decimal.D4 d => 52%N :: digitsOfUint d
  | Decimal.D5 d => 53%N :: digitsOfUint d
  | Decimal.D6 d => 54%N :: digitsOfUint d
  | Decimal.D7 d => 55%N :: digitsOfUint d
  | Decimal.D8 d => 56%N :: digitsOfUint d
  | Decimal.D9 d => 57%N :: digitsOfUint d
  end.

Definition decimalOfN (n : N) : jsstring :=
  match digitsOfUint (N.to_uint n) with
  | [] => [48%N]
  | ds => ds
  end.

Definition decimalOfZ (z : Z) : jsstring :=
  match z with
  | Zneg p => 45%N :: decimalOfN (Npos p)
  | _ => decimalOfN (Z.to_N z)
  end.

(** An [array index] in the sense of ECMAScript: the canonical decimal
    form of an integer in [0, 2^32 - 2].  Such keys are enumerated first,
    in ascending numeric order, by [Object.keys] and [Object.entries]. *)
Definition isDigit (c : char) : bool := in_range 48 57 c.

Definition digitsValue (s : jsstring) : N :=
  fold_left (fun acc c => (acc * 10 + (c - 48))%N) s 0%N.

Definition arrayIndex (s : jsstring) : option N :=
  match s with
  | [] => None
  | c :: rest =>
      if forallb isDigit s
         && (negb (N.eqb c 48) || match rest with [] => true | _ => false end)
         && (length s <=? 10)%nat
         && N.ltb (digitsValue s) 4294967295
      then Some (digitsValue s) else None
  end.

End Js.

(* ================================================================== *)
(** ** Regular expressions: a backtracking matcher *)
(* ================================================================== *)

Module Regex.
Import Js.

(** The fragment of ECMAScript patterns the plugin uses: assertions,
    literal characters, quantified character classes (greedy or lazy)
    and capture groups around sub-sequences. *)
Inductive item : Type :=
| Bol                                      (* ^ *)
| Eol                                      (* $ *)
| Lit (c : char)
| Cls (cls : char -> bool)
| Rep (cls : char -> bool) (min : nat) (greedy : bool)
| Open (g : nat)
| Close (g : nat).

Definition regex := list item.

(** Captures: start and end position of every group. *)
Record captures := { starts : nat -> option nat; stops : nat -> option nat }.

Definition noCaptures : captures :=
  {| starts := fun _ => None; stops := fun _ => None |}.

Definition setStart (g pos : nat) (c : captures) : captures :=
  {| starts := fun h => if Nat.eqb h g then Some pos else starts c h;
     stops := stops c |}.

Definition setStop (g pos : nat) (c : captures) : captures :=
  {| starts := starts c;
     stops := fun h => if Nat.eqb h g then Some pos else stops c h |}.

(** The quantifier loop: [k] is the rest of the pattern.  A greedy
    quantifier first tries to take one more character and falls back to
    [k]; a lazy one tries [k] first. *)
Fixpoint rep (cls : char -> bool) (greedy : bool)
         (k : nat -> jsstring -> option captures)
         (min : nat) (pos : nat) (rest : jsstring) {struct rest}
  : option captures :=
  let more :=
    match rest with
    | x :: rest' =>
        if cls x then rep cls greedy k (pred min) (S pos) rest' else None
    | [] => None
    end in
  match min with
  | S _ => more
  | O =>
      if greedy
      then match more with Some c => Some c | None => k pos rest end
      else match k pos rest with Some c => Some c | None => more end
  end.

(** [run r pos rest caps]: match the pattern [r] against [rest], which
    starts at position [pos] of the input. *)
Fixpoint run (r : regex) (pos : nat) (rest : jsstring) (caps : captures)
  : option captures :=
  match r with
  | [] => Some caps
  | Bol :: r' => if Nat.eqb pos 0 then run r' pos rest caps else None
  | Eol :: r' => match rest with [] => run r' pos rest caps | _ => None end
  | Lit c :: r' =>
      match rest with
      | x :: rest' => if N.eqb x c then run r' (S pos) rest' caps else None
      | [] => None
      end
  | Cls cls :: r' =>
      match rest with
      | x :: rest' => if cls x then run r' (S pos) rest' caps else None
      | [] => None
      end
  | Rep cls min greedy :: r' =>
      rep cls greedy (fun p s => run r' p s caps) min pos rest
  | Open g :: r' => run r' pos rest (setStart g pos caps)
  | Close g :: r' => run r' pos rest (setStop g pos caps)
  end.

(** [RegExp.prototype.exec] without the [g] flag: the first start
    position at which the pattern matches. *)
Fixpoint execFrom (r : regex) (pos : nat) (rest : jsstring)
  : option captures :=
  match run r pos rest (setStart 0 pos noCaptures) with
  | Some c => Some c
  | None => match rest with
            | [] => None
            | _ :: rest' => execFrom r (S pos) rest'
            end
  end.

(** Group 0 is the whole match. *)
Definition exec (r : regex) (s : jsstring) : option captures :=
  execFrom (r ++ [Close 0]) 0 s.

Definition test (r : regex) (s : jsstring) : bool :=
  match exec r s with Some _ => true | None => false end.

(** The text of group [g] of a match on [s]. *)
Definition group (s : jsstring) (c : captures) (g : nat) : option jsstring :=
  match starts c g, stops c g with
  | Some a, Some b => Some (firstn (b - a) (skipn a s))
  | _, _ => None
  end.

(** [s.replace(r, by)] for a pattern without the [g] flag and a
    replacement text without [$] patterns: only the first match is
    replaced. *)
Definition replace (r : regex) (by_ : jsstring) (s : jsstring) : jsstring :=
  match exec r s with
  | Some c =>
      match starts c 0, stops c 0 with
      | Some a, Some b => firstn a s ++ by_ ++ skipn b s
      | _, _ => s
      end
  | None => s
  end.

End Regex.

(* ================================================================== *)
(** ** JavaScript values and plain objects *)
(* ================================================================== *)

Module Value.
Import Js.

(** The values a property mapping holds.  A plain object is the list of
    its own enumerable properties, kept in the order [Object.keys]
    enumerates them: array-index keys first, ascending, then the other
    keys in insertion order; its prototype is [Object.prototype].  The
    last two values are what a plain object inherits from there: the
    built-in functions, by their names, and [Object.prototype] itself,
    an object without enumerable properties. *)
Inductive value : Type :=
| VUndef
| VNull
| VBool (b : bool)
| VNum (z : Z)
| VStr (s : jsstring)
| VArr (xs : list value)
| VObj (es : list (jsstring * value))
| VFun (name : jsstring)
| VObjectPrototype.

Definition obj := list (jsstring * value).

(** The value of the property [k] of [o] itself: [undefined] when [o]
    has no such property. *)
Fixpoint get (k : jsstring) (o : obj) : value :=
  match o with
  | [] => VUndef
  | (k', v) :: o' => if str_eqb k' k then v else get k o'
  end.

Fixpoint has (k : jsstring) (o : obj) : bool :=
  match o with
  | [] => false
  | (k', _) :: o' => str_eqb k' k || has k o'
  end.

(** Assignment to an existing property keeps its place. *)
Fixpoint update (k : jsstring) (v : value) (o : obj) : obj :=
  match o with
  | [] => []
  | (k', v') :: o' =>
      if str_eqb k' k then (k', v) :: o' else (k', v') :: update k v o'
  end.

(** A new array-index key goes before the first key that is not an
    array index or is a larger one (two different keys never have the same
    index). *)
Fixpoint insertIndex (n : N) (k : jsstring) (v : value) (o : obj) : obj :=
  match o with
  | [] => [(k, v)]
  | (k', v') :: o' =>
      match arrayIndex k' with
      | Some n' => if N.leb n' n then (k', v') :: insertIndex n k v o'
                   else (k, v) :: o
      | None => (k, v) :: o
      end
  end.

(** The property [k] of [o] itself is given the value [v], as
    [Object.fromEntries] and an object literal do ([CreateDataProperty]);
    the assignment [o[k] = v] is [put] below. *)
Definition set (k : jsstring) (v : value) (o : obj) : obj :=
  if has k o then update k v o
  else match arrayIndex k with
       | Some n => insertIndex n k v o
       | None => o ++ [(k, v)]
       end.

(** The properties of [Object.prototype] whose value is a function: the
    key, and the name of the function. *)
Definition objectPrototypeFunctions : list (jsstring * jsstring) :=
  [ (u "constructor", u "Object");
    (u "__defineGetter__", u "__defineGetter__");
    (u "__defineSetter__", u "__defineSetter__");
    (u "hasOwnProperty", u "hasOwnProperty");
    (u "__lookupGetter__", u "__lookupGetter__");
    (u "__lookupSetter__", u "__lookupSetter__");
    (u "isPrototypeOf", u "isPrototypeOf");
    (u "propertyIsEnumerable", u "propertyIsEnumerable");
    (u "toString", u "toString");
    (u "valueOf", u "valueOf");
    (u "toLocaleString", u "toLocaleString") ].

(** What a plain object answers for a key that is no property of its
    own: the getter of [__proto__] answers the prototype. *)
Definition inherited (k : jsstring) : value :=
  if str_eqb k (u "__proto__") then VObjectPrototype
  else match find (fun kn => str_eqb (fst kn) k) objectPrototypeFunctions with
       | Some kn => VFun (snd kn)
       | None => VUndef
       end.

(** [o[k]] for a plain object. *)
Definition read (k : jsstring) (o : obj) : value :=
  if has k o then get k o else inherited k.

(** [o[k] = v] for a plain object: a property of [o] itself is
    overwritten; a property the object inherits as a function is
    shadowed by a new property of [o], as a key not found is added; but
    the key [__proto__], when [o] has no such property itself, runs the
    setter the object inherits, which adds no property (an object or
    [null] becomes the prototype of [o], anything else is ignored).  The
    list holds the properties of [o] itself: what [o] inherits once its
    prototype is another one is not kept. *)
Definition put (k : jsstring) (v : value) (o : obj) : obj :=
  if has k o then update k v o
  else if str_eqb k (u "__proto__") then o
  else set k v o.

(** The enumeration order of the keys of an object: a key that is an
    array index is followed by larger indices and by the other keys, any
    other key by keys that are no array index. *)
Definition mayPrecede (k k' : jsstring) : bool :=
  match arrayIndex k, arrayIndex k' with
  | Some n, Some n' => N.leb n n'
  | Some _, None => true
  | None, Some _ => false
  | None, None => true
  end.

(** The lists that are objects: no key twice, keys in enumeration order. *)
Fixpoint canonical (o : obj) : bool :=
  match o with
  | [] => true
  | (k, _) :: o' =>
      negb (has k o') && forallb (fun kv => mayPrecede k (fst kv)) o' && canonical o'
  end.

(** The values made of data: every object inside is such a list and has
    no property named [__proto__], the one key on which assignment does
    not write a property of the object itself, and no value is
    [Object.prototype]. *)
Fixpoint wellFormed (v : value) : bool :=
  match v with
  | VArr xs => forallb wellFormed xs
  | VObj es =>
      canonical es && negb (has (u "__proto__") es)
      && forallb (fun kv => wellFormed (snd kv)) es
  | VObjectPrototype => false
  | _ => true
  end.

Definition keys (o : obj) : list jsstring := map fst o.          (* Object.keys *)
Definition entries (o : obj) : list (jsstring * value) := o.     (* Object.entries *)

(** [Object.fromEntries]. *)
Definition fromEntries (es : list (jsstring * value)) : obj :=
  fold_left (fun o kv => set (fst kv) (snd kv) o) es [].

(** [{ ...v }]: the own properties of an object; nothing for [null] and
    [undefined]. *)
Definition spread (v : value) : obj :=
  match v with
  | VObj es => es
  | _ => []
  end.

Definition isArray (v : value) : bool :=
  match v with VArr _ => true | _ => false end.

(** [typeof v === 'object']: objects, arrays and [null]; a function is
    of type ['function']. *)
Definition typeofObject (v : value) : bool :=
  match v with VNull | VArr _ | VObj _ | VObjectPrototype => true | _ => false end.

Definition truthy (v : value) : bool :=
  match v with
  | VUndef | VNull => false
  | VBool b => b
  | VNum z => negb (Z.eqb z 0)
  | VStr s => match s with [] => false | _ => true end
  | VArr _ | VObj _ | VFun _ | VObjectPrototype => true
  end.

(** [String(v)], as a template literal converts a value.  Numbers are the
    integers, printed in decimal (a number prints so below 1e21).  A
    built-in function prints as V8, the engine of the host, prints
    it. *)
Fixpoint toString (v : value) : jsstring :=
  match v with
  | VUndef => u "undefined"
  | VNull => u "null"
  | VBool true => u "true"
  | VBool false => u "false"
  | VNum z => decimalOfZ z
  | VStr s => s
  | VArr xs =>
      (* Array.prototype.join(","): null and undefined print as empty *)
      (fix go (l : list value) : jsstring :=
         match l with
         | [] => []
         | x :: l' =>
             let sx := match x with
                       | VUndef | VNull => []
                       | _ => toString x
                       end in
             match l' with
             | [] => sx
             | _ => sx ++ u "," ++ go l'
             end
         end) xs
  | VObj _ | VObjectPrototype => u "[object Object]"
  | VFun name => u "function " ++ name ++ u "() { [native code] }"
  end.

End Value.

(* ================================================================== *)
(** ** The entities of the host *)
(* ================================================================== *)

Module Logseq.
Import Js Value.

(** The fields of a [BlockEntity] the plugin reads.  [properties] is
    optional in the host's declaration. *)
Inductive BlockEntity : Type :=
  mkBlock {
      uuid : jsstring;
      content : jsstring;
      children : list BlockEntity;
      properties : option obj;
      propertiesOrder : list jsstring;
      refs : list N;                 (* the [id]s of the referenced entities *)
      preBlock : bool                (* the field named [preBlock?] *)
    }.

Record MoveOpts := { asChildren : bool; before : bool }.

End Logseq.

(* ================================================================== *)
(** ** util.ts *)
(* ================================================================== *)

Module Util.
Import Js Regex Value Logseq.

(** [hasProperty]: [block.properties?.[propertyKey] !== undefined]. *)
Definition hasProperty (block : BlockEntity) (propertyKey : jsstring) : bool :=
  match properties block with
  | Some p => match read propertyKey p with VUndef => false | _ => true end
  | None => false
  end.

(** What [toBatchBlocks] makes of a block: [children] is [undefined]
    where the block has none. *)
Inductive BatchBlock : Type :=
  mkBatch {
      batchContent : jsstring;
      batchChildren : option (list BatchBlock);
      batchProperties : option obj
    }.

(** [toBatchBlocks], on one block and on an array of blocks (an absent
    [children] and an empty one are both the empty list). *)
Fixpoint toBatchBlock (c : BlockEntity) : BatchBlock :=
  match c with
  | mkBlock _ text kids props _ _ _ =>
      mkBatch text
              match kids with
              | [] => None
              | _ :: _ => Some (map toBatchBlock kids)
              end
              props
  end.

Definition toBatchBlocks (blocks : list BlockEntity) : list BatchBlock :=
  map toBatchBlock blocks.

(** [mayBeReferenced]: the callback of [blocks.some], and the function. *)
Fixpoint mayBeReferencedBlock (b : BlockEntity) : bool :=
  if hasProperty b (u "id") then true
  else match b with
       | mkBlock _ _ kids _ _ _ _ => existsb mayBeReferencedBlock kids
       end.

Definition mayBeReferenced (blocks : list BlockEntity) : bool :=
  existsb mayBeReferencedBlock blocks.

(** The for-loop of [mergeObjects(target, source)] over the properties of
    [source]; the nested call is [mergeObjects({ ...target[key] },
    source[key])].  The target is read and written as a plain object
    throughout: see [put] for the one assignment that can give it another
    prototype. *)
Fixpoint mergeInto (source : value) (target : obj) {struct source} : obj :=
  match source with
  | VObj es =>
      (fix loop (es : list (jsstring * value)) (target : obj) : obj :=
         match es with
         | [] => target
         | (key, sv) :: es' =>
             let tv := read key target in
             let nv :=
               match sv with
               | VArr sxs =>
                   match tv with
                   | VArr txs => VArr (txs ++ sxs)
                   | _ => sv
                   end
               | VObj _ | VObjectPrototype =>
                   if typeofObject tv && negb (isArray tv)
                   then VObj (mergeInto sv (spread tv))
                   else sv
               | _ => sv
               end in
             loop es' (put key nv target)
         end) es target
  | _ => target
  end.

(** [mergeObjects(target, source?, ...args)]: an absent or [undefined]
    source is [None]; it ends the fold. *)
Fixpoint mergeObjects (target : obj) (sources : list (option obj)) : obj :=
  match sources with
  | [] => target                                       (* source === undefined *)
  | None :: _ => target                                (* if (!source) return target *)
  | Some source :: args => mergeObjects (mergeInto (VObj source) target) args
  end.

(** [formatPropertiesString]. *)
Definition formatPropertiesString (props : obj) : jsstring :=
  join [LF]
       (map (fun kv => fst kv ++ u ":: " ++ toString (snd kv)) (entries props)).

(** [/^\s*([\w]+)::\s+(.*?)\s*?$/] *)
Definition propertyLineRegex : regex :=
  [ Bol; Rep isWhiteSpace 0 true;
    Open 1; Rep isWord 1 true; Close 1;
    Lit 58%N; Lit 58%N;
    Rep isWhiteSpace 1 true;
    Open 2; Rep isDot 0 false; Close 2;
    Rep isWhiteSpace 0 false; Eol ].

Definition isPropertyLine (line : jsstring) : bool :=
  test propertyLineRegex line.

(** [line => !propertyLineRegex.test(line)] *)
Definition notProperty (line : jsstring) : bool := negb (isPropertyLine line).

(** [getFirstPropertyLine]. *)
Definition getFirstPropertyLine (lines : list jsstring) : Z :=
  let firstPropertyLine := findIndex isPropertyLine lines in
  if (firstPropertyLine =? -1)%Z then Z.of_nat (length lines)
  else firstPropertyLine.

(** [getLastPropertyLine]. *)
Definition getLastPropertyLine (lines : list jsstring) (firstPropLine : Z) : Z :=
  let lastPropLine :=
    findIndex notProperty (sliceFrom lines firstPropLine) in
  ((if (lastPropLine =? -1)%Z then Z.of_nat (length lines) else lastPropLine)
   - 1)%Z.

(** The default of the second parameter. *)
Definition getLastPropertyLine_default (lines : list jsstring) : Z :=
  getLastPropertyLine lines (getFirstPropertyLine lines).

(** [removeProperties]. *)
Definition removeProperties (allLines : list jsstring) : list jsstring :=
  let firstPropertyLine := getFirstPropertyLine allLines in
  slice allLines 0 firstPropertyLine.

(** [key.toLowerCase().replace(/[^a-z]/, '')]: the pattern has no [g]
    flag. *)
Definition notLowerLetter (c : char) : bool := negb (isLowerLetter c).

Definition formattedKey (key : jsstring) : jsstring :=
  replace [Cls notLowerLetter] [] (toLowerCase key).

(** The [key] group of the lines that match. *)
Definition matchKey (line : jsstring) : option jsstring :=
  match exec propertyLineRegex line with
  | Some c => group line c 1
  | None => None
  end.

Fixpoint filterMap {A B} (f : A -> option B) (l : list A) : list B :=
  match l with
  | [] => []
  | x :: l' => match f x with
               | Some y => y :: filterMap f l'
               | None => filterMap f l'
               end
  end.

(** The last [.map] of the extractor: [srcBlock.properties[formattedKey]]
    raises a TypeError when the block has no [properties]. *)
Fixpoint lookupAll (props : option obj) (ks : list jsstring)
  : option (list (jsstring * value)) :=
  match ks with
  | [] => Some []
  | key :: ks' =>
      match props with
      | None => None
      | Some p =>
          match lookupAll props ks' with
          | Some es => Some ((key, read (formattedKey key) p) :: es)
          | None => None
          end
      end
  end.

(** The lines the extractor reads. *)
Definition scannedLines (text : jsstring) : list jsstring :=
  let lines := split LF text in
  let firstPropertyLine := getFirstPropertyLine lines in
  let lastPropertyLine := getLastPropertyLine lines firstPropertyLine in
  slice lines firstPropertyLine (lastPropertyLine + 1).

(** [getPropertiesFromBlockContent]; [None] is the TypeError. *)
Definition getPropertiesFromBlockContent (srcBlock : BlockEntity) : option obj :=
  match lookupAll (properties srcBlock)
                  (filterMap matchKey (scannedLines (content srcBlock))) with
  | Some es => Some (fromEntries es)
  | None => None
  end.

End Util.

(* ================================================================== *)
(** ** index.ts: the calls to the host *)
(* ================================================================== *)

Module Index.
Import Js Regex Value Logseq Util.

Record PageEntity := { pageName_ : jsstring; pageProperties : option obj }.

(** [logseq.settings]. *)
Record Settings := {
    allowWithoutChildren : bool;
    redirectToPage : bool;
    createFirstBlock : bool;
    moveBlockPropertiesToPage : bool;
    createPageTags : bool
  }.

(** The host calls of [main] from the property move on, in the order
    they are issued. *)
Inductive event : Type :=
| EGetBlock (id : jsstring)
| EUpdateBlock (id text : jsstring)
| EMoveBlock (src target : jsstring) (opts : MoveOpts)
| ERemoveBlock (id : jsstring)
| EGetPageBlocksTree (name : jsstring)
| EAppendBlockInPage (name text : jsstring)
| EGetPageByName (name : jsstring)
| EGetPageById (id : N)
| EExitEditingMode (selectBlock : bool)
| ERemoveBlockProperty (id key : jsstring)
| EPushState (route name : jsstring)
| EConsoleError (msg : jsstring)
| EShowMsg (msg kind : jsstring)
| ESleep (ms : N).

(** The host: every awaited call runs on the host's store, which the
    plugin never sees but through the answers.  [moveBlock] answers
    [false] when its promise rejects; [elapse] is what the host does on
    its own while the plugin sleeps. *)
Record Host (Store : Type) := {
    getBlock : jsstring -> Store -> option BlockEntity * Store;
    updateBlock : jsstring -> jsstring -> Store -> Store;
    moveBlock : jsstring -> jsstring -> MoveOpts -> Store -> bool * Store;
    removeBlock : jsstring -> Store -> Store;
    getPageBlocksTree : jsstring -> Store -> list BlockEntity * Store;
    appendBlockInPage : jsstring -> jsstring -> Store -> option BlockEntity * Store;
    getPageByName : jsstring -> Store -> option PageEntity * Store;
    getPageById : N -> Store -> option PageEntity * Store;
    exitEditingMode : bool -> Store -> Store;
    removeBlockProperty : jsstring -> jsstring -> Store -> Store;
    elapse : N -> Store -> Store
  }.

Section Main.
Variable Store : Type.
Variable host : Host Store.

Record World := { store : Store; trace : list event }.

Definition emit (e : event) (w : World) : World :=
  {| store := store w; trace := trace w ++ [e] |}.

Definition onStore (f : Store -> Store) (w : World) : World :=
  {| store := f (store w); trace := trace w |}.

Definition ask {A} (f : Store -> A * Store) (w : World) : A * World :=
  let (a, s) := f (store w) in (a, {| store := s; trace := trace w |}).

(** [Object.assign(srcBlock, updatedSrcBlock)]: the fields of the
    snapshot overwrite the local ones; an absent [properties] leaves
    the old one, [null] copies nothing. *)
Definition assign (srcBlock : BlockEntity) (updated : option BlockEntity)
  : BlockEntity :=
  match updated with
  | None => srcBlock
  | Some b =>
      mkBlock (uuid b) (content b) (children b)
              (match properties b with
               | Some p => Some p
               | None => properties srcBlock
               end)
              (propertiesOrder b) (refs b) (preBlock b)
  end.

(** [updatedSrcBlock?.refs.length ?? 0] *)
Definition observedRefs (updated : option BlockEntity) : Z :=
  match updated with
  | Some b => Z.of_nat (length (refs b))
  | None => 0%Z
  end.

(** The [do ... while (true)] loop of lines 43-54.  [fuel] bounds the
    number of polls; [None]: still polling. *)
Fixpoint waitForRefs (fuel : nat) (srcBlock : BlockEntity) (propsCount : Z)
         (w : World) : option (BlockEntity * World) :=
  match fuel with
  | O => None
  | S fuel' =>
      let (updatedSrcBlock, w1) :=
        ask (getBlock host (uuid srcBlock)) (emit (EGetBlock (uuid srcBlock)) w) in
      if (observedRefs updatedSrcBlock
          <=? Z.of_nat (length (refs srcBlock)) - propsCount)%Z
      then Some (assign srcBlock updatedSrcBlock, w1)
      else waitForRefs fuel' srcBlock propsCount
                       (onStore (elapse host 50) (emit (ESleep 50) w1))
  end.

Definition siblingAfter : MoveOpts := {| asChildren := false; before := false |}.

(** The [for] loop of lines 68-80.  [None]: the [catch] branch ran and
    [main] returns; [Some cursor]: the loop ended. *)
Fixpoint moveChildren (children : list BlockEntity) (targetUUID : jsstring)
         (w : World) : option jsstring * World :=
  match children with
  | [] => (Some targetUUID, w)
  | child :: rest =>
      let (ok, w1) :=
        ask (moveBlock host (uuid child) targetUUID siblingAfter)
            (emit (EMoveBlock (uuid child) targetUUID siblingAfter) w) in
      if ok then moveChildren rest (uuid child) w1
      else (None,
            emit (EShowMsg (u "move block error") (u "error"))
                 (emit (EConsoleError (u "moveBlock error")) w1))
  end.

(** What a run of a part of [main] comes to. *)
Inductive outcome (A : Type) : Type :=
| Continues (a : A) (w : World)      (* control reaches the next statement *)
| Returned (w : World)               (* [main] has returned *)
| Rejected (w : World)               (* an uncaught TypeError *)
| Pending.                           (* still polling when the fuel ran out *)
Arguments Continues {A} a w.
Arguments Returned {A} w.
Arguments Rejected {A} w.
Arguments Pending {A}.

(** Lines 29-55: move the block properties to the page. *)
Definition moveProperties (fuel : nat) (settings : Settings)
           (srcBlock : BlockEntity) (pageBlock : option BlockEntity)
           (allLines : list jsstring) (w : World) : outcome BlockEntity :=
  match moveBlockPropertiesToPage settings, pageBlock with
  | true, Some pageBlock =>
      let propsCount := Z.of_nat (length (propertiesOrder srcBlock)) in
      match getPropertiesFromBlockContent srcBlock,
            getPropertiesFromBlockContent pageBlock with
      | Some blockProps, Some pageProps =>
          let newPageProperties :=
            mergeObjects (mergeObjects [] [Some pageProps]) [Some blockProps] in
          let newPagePropertiesString :=
            formatPropertiesString newPageProperties in
          let w1 :=
            onStore (updateBlock host (uuid pageBlock) newPagePropertiesString)
                    (emit (EUpdateBlock (uuid pageBlock) newPagePropertiesString) w) in
          let text := join [LF] (removeProperties allLines) in
          let w2 :=
            onStore (updateBlock host (uuid srcBlock) text)
                    (emit (EUpdateBlock (uuid srcBlock) text) w1) in
          match waitForRefs fuel srcBlock propsCount w2 with
          | Some (srcBlock', w3) => Continues srcBlock' w3
          | None => Pending
          end
      | _, _ => Rejected w
      end
  | _, _ => Continues srcBlock w
  end.

(** [getLastBlock(pageName)]. *)
Definition getLastBlock (pageName : jsstring) (w : World)
  : option BlockEntity * World :=
  let (blocks, w1) :=
    ask (getPageBlocksTree host pageName) (emit (EGetPageBlocksTree pageName) w) in
  (last (map Some blocks) None, w1).

(** [Promise.all(srcBlock.refs.map(ref => logseq.Editor.getPage(ref.id)))] *)
Fixpoint getPages (ids : list N) (w : World) : list (option PageEntity) * World :=
  match ids with
  | [] => ([], w)
  | id :: ids' =>
      let (p, w1) := ask (getPageById host id) (emit (EGetPageById id) w) in
      let (ps, w2) := getPages ids' w1 in
      (p :: ps, w2)
  end.

(** [.map(pageRef => pageRef.name)]: a TypeError on [null]. *)
Fixpoint pageNames (ps : list (option PageEntity)) : option (list jsstring) :=
  match ps with
  | [] => Some []
  | None :: _ => None
  | Some p :: ps' =>
      match pageNames ps' with
      | Some ns => Some (pageName_ p :: ns)
      | None => None
      end
  end.

(** [.filter((value, index, target) => index === target.indexOf(value))] *)
Fixpoint firstOccurrences (seen l : list jsstring) : list jsstring :=
  match l with
  | [] => []
  | x :: l' =>
      if existsb (str_eqb x) seen then firstOccurrences seen l'
      else x :: firstOccurrences (x :: seen) l'
  end.

(** Lines 82-117: what follows the loop. *)
Definition afterMoves (settings : Settings) (srcBlock targetBlock : BlockEntity)
           (pageBlock : option BlockEntity) (pageName newBlockContent : jsstring)
           (w : World) : outcome unit :=
  let w1 :=
    match content targetBlock with
    | [] => onStore (removeBlock host (uuid targetBlock))
                    (emit (ERemoveBlock (uuid targetBlock)) w)
    | _ => w
    end in
  let tagged : outcome unit :=
    match createPageTags settings, pageBlock with
    | true, Some pageBlock =>
        let (page, w2) :=
          ask (getPageByName host pageName) (emit (EGetPageByName pageName) w1) in
        let pageProps :=
          match page with
          | Some pg => match pageProperties pg with Some o => o | None => [] end
          | None => []
          end in
        let (contentPageRefs, w3) := getPages (refs srcBlock) w2 in
        match pageNames contentPageRefs with
        | None => Rejected w3
        | Some names =>
            let tags := VArr (map VStr (firstOccurrences [] names)) in
            let props :=
              mergeObjects [] [Some pageProps; Some [(u "tags", tags)]] in
            let propsString := formatPropertiesString props in
            Continues tt
              (onStore (updateBlock host (uuid pageBlock) propsString)
                       (emit (EUpdateBlock (uuid pageBlock) propsString) w3))
        end
    | _, _ => Continues tt w1
    end in
  match tagged with
  | Continues _ w4 =>
      let w5 :=
        match newBlockContent with
        | [] => w4
        | _ => onStore (updateBlock host (uuid srcBlock) newBlockContent)
                       (emit (EUpdateBlock (uuid srcBlock) newBlockContent) w4)
        end in
      let w6 := onStore (exitEditingMode host true) (emit (EExitEditingMode true) w5) in
      let w7 :=
        if match properties srcBlock with
           | Some p => truthy (read (u "collapsed") p)
           | None => false
           end
        then onStore (removeBlockProperty host (uuid srcBlock) (u "collapsed"))
                     (emit (ERemoveBlockProperty (uuid srcBlock) (u "collapsed")) w6)
        else w6 in
      let w8 :=
        if redirectToPage settings then emit (EPushState (u "page") pageName) w7
        else w7 in
      Returned w8
  | other => other
  end.

(** Line 63:
    [await getLastBlock(pageName) ?? await logseq.Editor.appendBlockInPage(pageName, '')] *)
Definition targetBlockOf (pageName : jsstring) (w : World)
  : option BlockEntity * World :=
  let (lastBlock, w1) := getLastBlock pageName w in
  match lastBlock with
  | Some b => (Some b, w1)
  | None => ask (appendBlockInPage host pageName [])
                (emit (EAppendBlockInPage pageName []) w1)
  end.

(** Lines 63-118: the relocation of the children and the end of
    [main]. *)
Definition relocate (settings : Settings) (srcBlock : BlockEntity)
           (pageBlock : option BlockEntity) (pageName newBlockContent : jsstring)
           (w : World) : outcome unit :=
  let (targetBlock, w2) := targetBlockOf pageName w in
  match targetBlock with
  | Some targetBlock =>
      match moveChildren (children srcBlock) (uuid targetBlock) w2 with
      | (None, w3) => Returned w3
      | (Some _, w3) =>
          afterMoves settings srcBlock targetBlock pageBlock pageName
                     newBlockContent w3
      end
  | None => Returned w2
  end.

End Main.

Arguments Continues {Store A} a w.
Arguments Returned {Store A} w.
Arguments Rejected {Store A} w.
Arguments Pending {Store A}.
End Index.

(* ================================================================== *)
(** ** index.ts: [main] and the helpers for pages *)
(* ================================================================== *)

Module Main.
Import Js Regex Value Logseq Util Index.

(** [String.prototype.trim]: white space and line terminators go from
    both ends. *)
Fixpoint trimStart (s : jsstring) : jsstring :=
  match s with
  | [] => []
  | c :: s' => if isWhiteSpace c then trimStart s' else s
  end.

Definition trimEnd (s : jsstring) : jsstring := rev (trimStart (rev s)).

Definition trim (s : jsstring) : jsstring := trimEnd (trimStart s).

(** The pattern [pageRegx]: [[[], any characters but line terminators
    (group 1, greedy), []]], anchored at both ends. *)
Definition pageRegx : regex :=
  [ Bol; Lit 91%N; Lit 91%N; Open 1; Rep isDot 0 true; Close 1;
    Lit 93%N; Lit 93%N; Eol ].

(** [firstLine.replace(pageRegx, "$1")]: the match gives way to its
    group 1. *)
Definition pageNameOf (firstLine : jsstring) : jsstring :=
  match exec pageRegx firstLine with
  | Some c =>
      match starts c 0, stops c 0, group firstLine c 1 with
      | Some a, Some b, Some g => firstn a firstLine ++ g ++ skipn b firstLine
      | _, _, _ => firstLine
      end
  | None => firstLine
  end.

Fixpoint startsWith (prefix s : jsstring) : bool :=
  match prefix, s with
  | [], _ => true
  | p :: prefix', c :: s' => N.eqb p c && startsWith prefix' s'
  | _ :: _, [] => false
  end.

(** [s.indexOf(needle)], from position [pos] on. *)
Fixpoint indexOfFrom (needle s : jsstring) (pos : nat) : option nat :=
  if startsWith needle s then Some pos
  else match s with
       | [] => None
       | _ :: s' => indexOfFrom needle s' (S pos)
       end.

(** The replacement text of [replace] for a string pattern: [$$], [$&],
    [$`] and [$'] are expanded, a [$] before anything else stands for
    itself (a string pattern has no groups). *)
Fixpoint substitution (matched before_ after_ template : jsstring) : jsstring :=
  match template with
  | [] => []
  | c :: t =>
      match t with
      | d :: t' =>
          if N.eqb c 36 && N.eqb d 36
          then 36%N :: substitution matched before_ after_ t'
          else if N.eqb c 36 && N.eqb d 38
          then matched ++ substitution matched before_ after_ t'
          else if N.eqb c 36 && N.eqb d 96
          then before_ ++ substitution matched before_ after_ t'
          else if N.eqb c 36 && N.eqb d 39
          then after_ ++ substitution matched before_ after_ t'
          else c :: substitution matched before_ after_ t
      | [] => [c]
      end
  end.

(** [s.replace(pattern, template)] for a string [pattern]: the first
    occurrence is replaced. *)
Definition replaceString (pattern template s : jsstring) : jsstring :=
  match indexOfFrom pattern s 0 with
  | Some i =>
      let before_ := firstn i s in
      let after_ := skipn (i + length pattern) s in
      before_ ++ substitution pattern before_ after_ template ++ after_
  | None => s
  end.

(** Lines 57-60 of [main]. *)
Definition newBlockContentOf (firstLine content_ : jsstring) : jsstring :=
  if test pageRegx firstLine then []
  else replaceString firstLine (u "[[" ++ firstLine ++ u "]]") content_.

(** The calls of [main]: those of the part from the property move on,
    and the calls on pages. *)
Inductive call : Type :=
| Core (e : event)
| CreatePage (name : jsstring)   (* createPage(name, {}, {createFirstBlock: true, redirect: false}) *)
| DeletePage (name : jsstring)
| InsertBlock (target text : jsstring) (isPageBlock before_ : bool)
| ConsoleDebug (msg : jsstring).

Record PageHost (Store : Type) := {
    createPage : jsstring -> Store -> Store;
    deletePage : jsstring -> Store -> Store;
    insertBlock : jsstring -> jsstring -> bool -> bool -> Store
                  -> option BlockEntity * Store
  }.

Section WithHost.
Variable Store : Type.
Variable host : Host Store.
Variable pages : PageHost Store.

Record Session := { sstore : Store; calls : list call }.

Definition note (c : call) (s : Session) : Session :=
  {| sstore := sstore s; calls := calls s ++ [c] |}.

Definition onSession (f : Store -> Store) (s : Session) : Session :=
  {| sstore := f (sstore s); calls := calls s |}.

Definition sessionOf (s : Session) (w : World Store) : Session :=
  {| sstore := store w; calls := calls s ++ map Core (trace w) |}.

(** A part of [main] that is written on worlds, run in a session: its
    calls follow those made so far. *)
Definition lift {A} (f : World Store -> A * World Store) (s : Session)
  : A * Session :=
  let (a, w) := f {| store := sstore s; trace := [] |} in (a, sessionOf s w).

(** What [main] comes to. *)
Inductive result : Type :=
| Done (s : Session)         (* the promise of [main] is fulfilled *)
| Threw (s : Session)        (* it is rejected by a TypeError *)
| Waiting.                   (* still polling when the fuel ran out *)

Definition resultOf {A} (s : Session) (o : outcome Store A)
           (k : A -> Session -> result) : result :=
  match o with
  | Continues a w => k a (sessionOf s w)
  | Returned w => Done (sessionOf s w)
  | Rejected w => Threw (sessionOf s w)
  | Pending => Waiting
  end.

Definition createFreshPage (pageName : jsstring) (s : Session) : Session :=
  onSession (createPage pages pageName) (note (CreatePage pageName) s).

(** [createPageIfNotExist]. *)
Definition createPageIfNotExist (pageName : jsstring) (s : Session) : Session :=
  let (page, s1) := lift (fun w => ask (getPageByName host pageName)
                                       (emit (EGetPageByName pageName) w)) s in
  match page with
  | None => createFreshPage pageName s1
  | Some _ =>
      let s2 := note (ConsoleDebug (u "page already exist")) s1 in
      let (lastBlock, s3) := lift (getLastBlock host pageName) s2 in
      match lastBlock with
      | None =>
          createFreshPage pageName
            (onSession (deletePage pages pageName) (note (DeletePage pageName) s3))
      | Some _ => s3
      end
  end.

(** [getAllBlocks]: [null] for a page without blocks. *)
Definition getAllBlocks (pageName : jsstring) (w : World Store)
  : option (list BlockEntity) * World Store :=
  let (blocks, w1) :=
    ask (getPageBlocksTree host pageName) (emit (EGetPageBlocksTree pageName) w) in
  (match blocks with [] => None | _ :: _ => Some blocks end, w1).

(** [getFirstAndLastBlock]. *)
Definition getFirstAndLastBlock (pageName : jsstring) (w : World Store)
  : option (BlockEntity * BlockEntity) * World Store :=
  let (blocks, w1) := getAllBlocks pageName w in
  (match blocks with
   | Some (b :: bs) => Some (b, last bs b)
   | _ => None
   end, w1).

(** Lines 20-27 of [main]: the page block. *)
Definition pageBlockOf (settings : Settings) (pageName : jsstring)
           (firstBlock : option BlockEntity) (s : Session)
  : option BlockEntity * Session :=
  if moveBlockPropertiesToPage settings || createPageTags settings
  then match firstBlock with
       | Some b =>
           if preBlock b then (Some b, s)
           else let s1 := note (InsertBlock (uuid b) [] true true) s in
                let (r, st) := insertBlock pages (uuid b) [] true true (sstore s1) in
                (r, {| sstore := st; calls := calls s1 |})
       | None =>
           let s1 := note (InsertBlock pageName [] true true) s in
           let (r, st) := insertBlock pages pageName [] true true (sstore s1) in
           (r, {| sstore := st; calls := calls s1 |})
       end
  else (None, s).

(** [main].  [getBlock] is asked for the children, so [children] is an
    array. *)
Definition main (fuel : nat) (settings : Settings) (blockId : jsstring)
           (s : Session) : result :=
  let (found, s1) := lift (fun w => ask (getBlock host blockId)
                                        (emit (EGetBlock blockId) w)) s in
  match found with
  | None => Done s1
  | Some srcBlock =>
      if negb (allowWithoutChildren settings)
         && match children srcBlock with [] => true | _ => false end
      then Done s1
      else
        let allLines := split LF (content srcBlock) in
        let firstLine := trim (hd [] allLines) in
        let pageName := pageNameOf firstLine in
        let s2 := createPageIfNotExist pageName s1 in
        let (firstAndLast, s3) := lift (getFirstAndLastBlock pageName) s2 in
        let firstBlock := option_map fst firstAndLast in
        let (pageBlock, s4) := pageBlockOf settings pageName firstBlock s3 in
        resultOf s4
          (moveProperties host fuel settings srcBlock pageBlock allLines
                          {| store := sstore s4; trace := [] |})
          (fun srcBlock' s5 =>
             let newBlockContent := newBlockContentOf firstLine (content srcBlock') in
             resultOf s5
               (relocate host settings srcBlock' pageBlock pageName newBlockContent
                         {| store := sstore s5; trace := [] |})
               (fun _ s6 => Done s6))
  end.

End WithHost.
End Main.

Import Js Regex Value Logseq Util Index Main.

(* ================================================================== *)
(** ** Definitions for the statements *)
(* ================================================================== *)

(** The unbroken run of property lines at the head of a list. *)
Fixpoint propertyRun (lines : list jsstring) : list jsstring :=
  match lines with
  | [] => []
  | l :: rest => if isPropertyLine l then l :: propertyRun rest else []
  end.

(** The value [mergeObjects] assigns to [target[key]], from the value
    [tv] found there and the value [sv] of the source. *)
Definition newValue (tv sv : value) : value :=
  match sv with
  | VArr sxs => match tv with VArr txs => VArr (txs ++ sxs) | _ => sv end
  | VObj _ | VObjectPrototype =>
      if typeofObject tv && negb (isArray tv)
      then VObj (mergeInto sv (spread tv)) else sv
  | _ => sv
  end.

Definition mergeStep (target : obj) (kv : jsstring * value) : obj :=
  put (fst kv) (newValue (read (fst kv) target) (snd kv)) target.

(** The combination rule in the words of the specification: [existing] is
    the value in the accumulator ([undefined] when the key is new),
    [incoming] the one of the source. *)
Definition combined (existing incoming : value) : value :=
  match incoming with
  | VArr inc =>
      match existing with
      | VArr ex => VArr (ex ++ inc)
      | _ => incoming
      end
  | VObj inc =>
      match existing with
      | VObj ex => VObj (mergeObjects ex [Some inc])
      | _ => incoming
      end
  | _ => incoming
  end.

(** A host that plays a script: the store is the list of the reference
    lists the source block has now and after each delay. *)
Definition scriptedBlock (id : jsstring) (rs : list N) : BlockEntity :=
  mkBlock id [] [] None [] rs false.

Definition scriptedHost : Host (list (list N)) :=
  {| getBlock := fun id s =>
                   (match s with
                    | rs :: _ => Some (scriptedBlock id rs)
                    | [] => None
                    end, s);
     updateBlock := fun _ _ s => s;
     moveBlock := fun _ _ _ s => (true, s);
     removeBlock := fun _ s => s;
     getPageBlocksTree := fun _ s => ([], s);
     appendBlockInPage := fun _ _ s => (None, s);
     getPageByName := fun _ s => (None, s);
     getPageById := fun _ s => (None, s);
     exitEditingMode := fun _ s => s;
     removeBlockProperty := fun _ _ s => s;
     elapse := fun _ s => tl s |}.

(** One fetch of the source block, and one delay. *)
Definition pollOnce {Store : Type} (host : Host Store) (srcBlock : BlockEntity)
           (w : World Store) : option BlockEntity * World Store :=
  ask (getBlock host (uuid srcBlock)) (emit (EGetBlock (uuid srcBlock)) w).

Definition sleepOnce {Store : Type} (host : Host Store) (w : World Store)
  : World Store :=
  onStore (elapse host 50) (emit (ESleep 50) w).

(** The world in which poll [n] is made when the polls before it were
    all refused. *)
Fixpoint worldAtPoll {Store : Type} (host : Host Store) (srcBlock : BlockEntity)
         (n : nat) (w : World Store) : World Store :=
  match n with
  | O => w
  | S n' => worldAtPoll host srcBlock n' (sleepOnce host (snd (pollOnce host srcBlock w)))
  end.

Definition observedAtPoll {Store : Type} (host : Host Store)
           (srcBlock : BlockEntity) (n : nat) (w : World Store) : Z :=
  observedRefs (fst (pollOnce host srcBlock (worldAtPoll host srcBlock n w))).

(** [srcBlock.refs.length - propsCount] *)
Definition threshold (srcBlock : BlockEntity) (propsCount : Z) : Z :=
  (Z.of_nat (length (refs srcBlock)) - propsCount)%Z.

(** The outline of the destination: the identifiers of the sibling blocks
    of the level the children are moved to, in document order, and the
    blocks the store refuses to move. *)
Record Outline := { siblings : list jsstring; locked : list jsstring }.

Definition memId (x : jsstring) (l : list jsstring) : bool := existsb (str_eqb x) l.

Definition removeId (x : jsstring) (l : list jsstring) : list jsstring :=
  filter (fun y => negb (str_eqb y x)) l.

Fixpoint insertAfter (anchor x : jsstring) (l : list jsstring) : list jsstring :=
  match l with
  | [] => []
  | y :: l' => if str_eqb y anchor then y :: x :: l' else y :: insertAfter anchor x l'
  end.

Fixpoint insertBefore (anchor x : jsstring) (l : list jsstring) : list jsstring :=
  match l with
  | [] => []
  | y :: l' => if str_eqb y anchor then x :: y :: l' else y :: insertBefore anchor x l'
  end.

(** Modelled from the spec: the node store's
    [move(childId, anchorId, {asChild:false, before:false}) -> void | fails]
    is not part of the plugin.  The child leaves its place and becomes the
    immediate next sibling after the anchor (the previous one with
    [before], a child of the anchor - hence no sibling of this level - with
    [asChild]); the move fails, changing nothing, when the store refuses
    the block or the anchor is not in the outline. *)
Definition outlineMove (child anchor : jsstring) (opts : MoveOpts) (o : Outline)
  : bool * Outline :=
  let rest := removeId child (siblings o) in
  if memId child (locked o) || negb (memId anchor rest) then (false, o)
  else (true,
        {| siblings := if asChildren opts then rest
                       else if before opts then insertBefore anchor child rest
                            else insertAfter anchor child rest;
           locked := locked o |}).

Definition outlineBlock (id : jsstring) : BlockEntity :=
  mkBlock id (u "text") [] None [] [] false.

Definition outlineHost : Host Outline :=
  {| getBlock := fun _ s => (None, s);
     updateBlock := fun _ _ s => s;
     moveBlock := outlineMove;
     removeBlock := fun id s => {| siblings := removeId id (siblings s); locked := locked s |};
     getPageBlocksTree := fun _ s => (map outlineBlock (siblings s), s);
     appendBlockInPage := fun _ _ s => (None, s);
     getPageByName := fun _ s => (None, s);
     getPageById := fun _ s => (None, s);
     exitEditingMode := fun _ s => s;
     removeBlockProperty := fun _ _ s => s;
     elapse := fun _ s => s |}.

(** The moves the sequencer asks for when none fails: every child after
    the block moved before it, the first one after the anchor. *)
Fixpoint moveCalls (cursor : jsstring) (children : list BlockEntity) : list event :=
  match children with
  | [] => []
  | child :: rest =>
      EMoveBlock (uuid child) cursor {| asChildren := false; before := false |}
      :: moveCalls (uuid child) rest
  end.

(** A block without children. *)
Definition leaf (id : string) : BlockEntity := mkBlock (u id) [] [] None [] [] false.

(** Whether a pattern opens or closes group [g]. *)
Definition touches (g : nat) (r : regex) : bool :=
  existsb (fun it => match it with
                     | Open h | Close h => Nat.eqb h g
                     | _ => false
                     end) r.

(** Texts without line terminator, and without the separator of
    [split] and [join]. *)
Definition noLineTerminator (s : jsstring) : bool := forallb isDot s.

Definition noLF (s : jsstring) : bool := forallb (fun c => negb (N.eqb c LF)) s.

(** The property range of the specification: the unbroken run of property
    lines that begins at the first property line. *)
Definition propertyLines (lines : list jsstring) : list jsstring :=
  propertyRun (skipn (Z.to_nat (getFirstPropertyLine lines)) lines).

(** The cases in which the index of [getLastPropertyLine] is also an index
    of the list: the first line is a property line, or the run reaches the
    last line. *)
Definition scanIsExact (lines : list jsstring) : bool :=
  (getFirstPropertyLine lines =? 0)%Z
  || (Z.to_nat (getFirstPropertyLine lines) + length (propertyLines lines)
      =? length lines)%nat.

(** The entry the extractor makes for a raw key. *)
Definition entryOf (props : obj) (key : jsstring) : jsstring * value :=
  (key, read (formattedKey key) props).

Definition block (text : jsstring) (props : obj) : BlockEntity :=
  mkBlock (u "block") text [] (Some props) [] [] false.

Definition withContent (b : BlockEntity) (text : jsstring) : BlockEntity :=
  mkBlock (uuid b) text (children b) (properties b) (propertiesOrder b)
          (refs b) (preBlock b).

Definition notArrayIndex (k : jsstring) : bool :=
  match arrayIndex k with Some _ => false | None => true end.

(** The line of the serializer for an entry. *)
Definition lineOf (kv : jsstring * value) : jsstring :=
  fst kv ++ u ":: " ++ toString (snd kv).

Definition wordKey (k : jsstring) : bool :=
  forallb isWord k && negb (match k with [] => true | _ => false end).

(** What [replace] does with the pattern [[^a-z]]: the first character
    that is no lower-case letter goes. *)
Fixpoint removeFirst (p : char -> bool) (s : jsstring) : jsstring :=
  match s with
  | [] => []
  | c :: s' => if p c then s' else c :: removeFirst p s'
  end.

(** A block and all the blocks below it, parents first. *)
Fixpoint subtree (b : BlockEntity) : list BlockEntity :=
  match b with
  | mkBlock _ _ kids _ _ _ _ => b :: flat_map subtree kids
  end.

Definition batchKids (x : BatchBlock) : list BatchBlock :=
  match batchChildren x with Some l => l | None => [] end.

Fixpoint batchSubtree (x : BatchBlock) : list BatchBlock :=
  match x with
  | mkBatch _ kids _ =>
      x :: match kids with
           | Some l => flat_map batchSubtree l
           | None => []
           end
  end.

(** No [children] of a batch block is an empty array. *)
Fixpoint noEmptyChildren (x : BatchBlock) : bool :=
  match x with
  | mkBatch _ kids _ =>
      match kids with
      | Some [] => false
      | Some l => forallb noEmptyChildren l
      | None => true
      end
  end.

(** The world [w] behind the calls [t] made earlier. *)
Definition behind {Store : Type} (t : list event) (w : World Store) : World Store :=
  {| store := store w; trace := t ++ trace w |}.

Definition outcomeBehind {Store A : Type} (t : list event) (o : outcome Store A)
  : outcome Store A :=
  match o with
  | Continues a w => Continues a (behind t w)
  | Returned w => Returned (behind t w)
  | Rejected w => Rejected (behind t w)
  | Pending => Pending
  end.

(** The world in which a part of [main] ends, if it ends. *)
Definition endWorld {Store A : Type} (o : outcome Store A) : option (World Store) :=
  match o with
  | Continues _ w | Returned w | Rejected w => Some w
  | Pending => None
  end.

(** The calls that remove or move a block. *)
Definition removesOrMoves (e : event) : bool :=
  match e with
  | ERemoveBlock _ | EMoveBlock _ _ _ => true
  | _ => false
  end.

(** Lines 104-117 of [main], the statements behind the tags. *)
Definition finishMain {Store : Type} (host : Host Store) (settings : Settings)
           (srcBlock : BlockEntity) (pageName newBlockContent : jsstring)
           (w4 : World Store) : World Store :=
  let w5 :=
    match newBlockContent with
    | [] => w4
    | _ => onStore (updateBlock host (uuid srcBlock) newBlockContent)
                   (emit (EUpdateBlock (uuid srcBlock) newBlockContent) w4)
    end in
  let w6 := onStore (exitEditingMode host true) (emit (EExitEditingMode true) w5) in
  let w7 :=
    if match properties srcBlock with
       | Some p => truthy (read (u "collapsed") p)
       | None => false
       end
    then onStore (removeBlockProperty host (uuid srcBlock) (u "collapsed"))
                 (emit (ERemoveBlockProperty (uuid srcBlock) (u "collapsed")) w6)
    else w6 in
  if redirectToPage settings then emit (EPushState (u "page") pageName) w7 else w7.

(** Line 82-85 of [main]: the anchor goes when its text is empty. *)
Definition dropEmptyAnchor {Store : Type} (host : Host Store)
           (targetBlock : BlockEntity) (w : World Store) : World Store :=
  match content targetBlock with
  | [] => onStore (removeBlock host (uuid targetBlock))
                  (emit (ERemoveBlock (uuid targetBlock)) w)
  | _ => w
  end.

(** Texts without the character [$]. *)
Definition noDollar (s : jsstring) : bool := forallb (fun c => negb (N.eqb c 36)) s.

Definition isInsertBlock (c : call) : bool :=
  match c with InsertBlock _ _ _ _ => true | _ => false end.

(** The session [s'] has the calls of [s] and then calls that satisfy
    [P] only. *)
Definition addsOnly {Store : Type} (P : call -> bool) (s s' : Session Store) : Prop :=
  exists cs, calls s' = calls s ++ cs /\ forallb P cs = true.

(** [main] has come to its end, with or without a TypeError, in the
    session [s']. *)
Definition endsIn {Store : Type} (r : result Store) (s' : Session Store) : Prop :=
  r = Done s' \/ r = Threw s'.

(** Pages for [scriptedHost]: nothing is created, deleted or inserted. *)
Definition scriptedPages : PageHost (list (list N)) :=
  {| createPage := fun _ s => s;
     deletePage := fun _ s => s;
     insertBlock := fun _ _ _ _ s => (None, s) |}.

Definition allOff : Settings :=
  {| allowWithoutChildren := false; redirectToPage := false;
     createFirstBlock := false; moveBlockPropertiesToPage := false;
     createPageTags := false |}.

(** A page that was asked for and not found. *)
Definition missingPage (ps : list (option PageEntity)) : bool :=
  existsb (fun p => match p with None => true | Some _ => false end) ps.

(** The normalized key of the specification: the letters of the key, in
    lower case. *)
Definition lettersOf (key : jsstring) : jsstring :=
  filter isLowerLetter (toLowerCase key).

(** Keys that are array indices, in ascending order of their numbers. *)
Fixpoint ascendingIndices (ks : list jsstring) : bool :=
  match ks with
  | [] => true
  | k :: ks' =>
      match arrayIndex k with
      | Some n =>
          forallb (fun k' => match arrayIndex k' with
                             | Some n' => N.leb n n'
                             | None => false
                             end) ks'
          && ascendingIndices ks'
      | None => false
      end
  end.

(** The test of line 9 of [main]. *)
Definition returnsAtOnce (settings : Settings) (found : option BlockEntity) : bool :=
  match found with
  | None => true
  | Some srcBlock =>
      negb (allowWithoutChildren settings)
      && match children srcBlock with [] => true | _ => false end
  end.

(* ================================================================== *)
(** ** Arrays: [findIndex] and [slice] *)
(* ================================================================== *)

Section ArrayFacts.
Context {A : Type}.
Implicit Types (p : A -> bool) (l : list A).

Lemma findIndex_ge p l : (-1 <= findIndex p l)%Z.
Proof.
  induction l as [|x l IH]; simpl; [lia|].
  destruct (p x); [lia|].
  destruct (findIndex p l <? 0)%Z eqn:E; lia.
Qed.

Lemma findIndex_none p l :
  findIndex p l = (-1)%Z <-> forallb (fun x => negb (p x)) l = true.
Proof.
  induction l as [|x l IH]; simpl; [tauto|].
  pose proof (findIndex_ge p l) as G.
  destruct (p x); simpl.
  - split; [lia | discriminate].
  - destruct (findIndex p l <? 0)%Z eqn:E.
    + apply Z.ltb_lt in E. rewrite <- IH. split; intros; lia.
    + apply Z.ltb_ge in E. rewrite <- IH. split; intros; lia.
Qed.

(** When an element is found, the elements before it fail [p] and the
    list splits there. *)
Lemma findIndex_some p l (i : Z) :
  findIndex p l = i -> (0 <= i)%Z ->
  exists pre x post,
    l = pre ++ x :: post /\ i = Z.of_nat (length pre) /\
    forallb (fun y => negb (p y)) pre = true /\ p x = true.
Proof.
  revert i. induction l as [|x l IH]; simpl; intros i E G.
  - lia.
  - destruct (p x) eqn:Px.
    + exists [], x, l. subst i. simpl. auto.
    + destruct (findIndex p l <? 0)%Z eqn:L; [lia|].
      apply Z.ltb_ge in L.
      destruct (IH _ eq_refl L) as (pre & y & post & -> & Hi & Hpre & Hy).
      exists (x :: pre), y, post. simpl. rewrite Px, Hpre. simpl.
      repeat split; auto. lia.
Qed.

Lemma findIndex_app_found p pre x post :
  forallb (fun y => negb (p y)) pre = true -> p x = true ->
  findIndex p (pre ++ x :: post) = Z.of_nat (length pre).
Proof.
  induction pre as [|y pre IH]; simpl; intros Hpre Hx.
  - now rewrite Hx.
  - apply andb_true_iff in Hpre as [Hy Hpre].
    apply negb_true_iff in Hy. rewrite Hy, (IH Hpre Hx).
    destruct (Z.of_nat (length pre) <? 0)%Z eqn:E; [apply Z.ltb_lt in E|]; lia.
Qed.

Lemma clampIndex_nat (len n : nat) : clampIndex len (Z.of_nat n) = Nat.min n len.
Proof.
  unfold clampIndex. destruct (Z.of_nat n <? 0)%Z eqn:E.
  - apply Z.ltb_lt in E. lia.
  - now rewrite Nat2Z.id.
Qed.

Lemma slice_nat l (a b : nat) :
  slice l (Z.of_nat a) (Z.of_nat b)
  = firstn (Nat.min b (length l) - Nat.min a (length l))
           (skipn (Nat.min a (length l)) l).
Proof. unfold slice. now rewrite !clampIndex_nat. Qed.

Lemma slice_prefix l (n : nat) :
  n <= length l -> slice l 0 (Z.of_nat n) = firstn n l.
Proof.
  intros H. change 0%Z with (Z.of_nat 0). rewrite slice_nat.
  simpl. rewrite Nat.min_l by lia. now rewrite Nat.sub_0_r.
Qed.

Lemma sliceFrom_nat l (n : nat) :
  n <= length l -> sliceFrom l (Z.of_nat n) = skipn n l.
Proof.
  intros H. unfold sliceFrom. rewrite slice_nat.
  rewrite Nat.min_id, Nat.min_l by lia.
  rewrite <- (length_skipn n l). apply firstn_all.
Qed.

End ArrayFacts.

(* ================================================================== *)
(** ** The scanner *)
(* ================================================================== *)

(** The lines split at the first property line. *)
Lemma getFirstPropertyLine_split (lines : list jsstring) :
  exists pre post,
    lines = pre ++ post /\
    getFirstPropertyLine lines = Z.of_nat (length pre) /\
    forallb notProperty pre = true /\
    (post = [] \/ exists l rest, post = l :: rest /\ isPropertyLine l = true).
Proof.
  unfold getFirstPropertyLine.
  destruct (findIndex isPropertyLine lines =? -1)%Z eqn:E.
  - apply Z.eqb_eq in E. exists lines, []. rewrite app_nil_r.
    repeat split; auto. now apply findIndex_none.
  - apply Z.eqb_neq in E.
    pose proof (findIndex_ge isPropertyLine lines) as G.
    destruct (findIndex_some isPropertyLine lines eq_refl ltac:(lia))
      as (pre & x & post & Hl & Hi & Hpre & Hx).
    exists pre, (x :: post). repeat split; auto.
    right. now exists x, post.
Qed.

Lemma getFirstPropertyLine_bounds (lines : list jsstring) :
  (0 <= getFirstPropertyLine lines <= Z.of_nat (length lines))%Z.
Proof.
  destruct (getFirstPropertyLine_split lines) as (pre & post & -> & -> & _).
  rewrite length_app. lia.
Qed.

Lemma removeProperties_firstn (lines : list jsstring) :
  removeProperties lines = firstn (Z.to_nat (getFirstPropertyLine lines)) lines.
Proof.
  unfold removeProperties.
  pose proof (getFirstPropertyLine_bounds lines) as B.
  rewrite <- (Z2Nat.id (getFirstPropertyLine lines)) at 1 by lia.
  apply slice_prefix. lia.
Qed.

Lemma propertyRun_split (lines : list jsstring) :
  exists rest,
    lines = propertyRun lines ++ rest /\
    forallb isPropertyLine (propertyRun lines) = true /\
    (rest = [] \/ exists l rest', rest = l :: rest' /\ notProperty l = true).
Proof.
  induction lines as [|l lines (rest & E & F & R)]; simpl.
  - exists []. auto.
  - destruct (isPropertyLine l) eqn:P.
    + exists rest. simpl. rewrite P, F. repeat split; auto. now rewrite <- E.
    + exists (l :: lines). repeat split; auto. right. exists l, lines.
      unfold notProperty. now rewrite P.
Qed.

(** What [getLastPropertyLine] computes: the index it finds is counted in
    [lines.slice(firstPropLine)], not in [lines]. *)
Lemma getLastPropertyLine_run (lines : list jsstring) (first : nat) :
  first <= length lines ->
  getLastPropertyLine lines (Z.of_nat first)
  = if (first + length (propertyRun (skipn first lines)) =? length lines)%nat
    then (Z.of_nat (length lines) - 1)%Z
    else (Z.of_nat (length (propertyRun (skipn first lines))) - 1)%Z.
Proof.
  intros Hf. unfold getLastPropertyLine. rewrite sliceFrom_nat by exact Hf.
  pose proof (length_skipn first lines) as Ls.
  destruct (propertyRun_split (skipn first lines)) as (rest & E & F & R).
  set (run := propertyRun (skipn first lines)) in *.
  assert (Hrun : forallb (fun y => negb (notProperty y)) run = true).
  { clear -F. induction run as [|x run IH]; simpl in *; auto.
    apply andb_true_iff in F as [Fx F]. unfold notProperty.
    rewrite Fx. simpl. auto. }
  destruct R as [-> | (l & rest' & -> & Hl)].
  - rewrite app_nil_r in E.
    assert (N : findIndex notProperty (skipn first lines) = (-1)%Z).
    { apply findIndex_none. rewrite E. exact Hrun. }
    rewrite N. simpl.
    assert (L : length run = length lines - first) by (rewrite <- Ls, E at 1; reflexivity).
    replace (first + length run =? length lines)%nat with true
      by (symmetry; apply Nat.eqb_eq; lia).
    reflexivity.
  - assert (N : findIndex notProperty (skipn first lines) = Z.of_nat (length run)).
    { rewrite E at 1. apply (findIndex_app_found notProperty run l rest' Hrun Hl). }
    rewrite N.
    assert (L : length run + S (length rest') = length lines - first).
    { rewrite <- Ls, E at 1. rewrite length_app. reflexivity. }
    replace (first + length run =? length lines)%nat with false
      by (symmetry; apply Nat.eqb_neq; lia).
    destruct (Z.of_nat (length run) =? -1)%Z eqn:Q; [apply Z.eqb_eq in Q; lia|].
    reflexivity.
Qed.

(* ================================================================== *)
(** ** The index of the last property line *)
(* ================================================================== *)

(** C1.  On the lines [Title], [a:: 1], [b:: 2], an empty line and
    [c:: 3], the first property line is line 1 and the unbroken run of
    property lines ends at line 2 (line 3 is empty), yet
    [getLastPropertyLine lines 1] answers 1: the index found in
    [lines.slice(1)] is returned without adding [first] back.  The
    extractor's [lines.slice(first, last + 1)] therefore loses [b:: 2]. *)
Theorem getLastPropertyLine_counts_in_the_slice :
  let lines := [u "Title"; u "a:: 1"; u "b:: 2"; []; u "c:: 3"] in
  getFirstPropertyLine lines = 1%Z /\
  map isPropertyLine lines = [false; true; true; false; true] /\
  getLastPropertyLine lines 1 = 1%Z /\
  getLastPropertyLine lines 1 <> 2%Z /\
  scannedLines (join [LF] lines) = [u "a:: 1"].
Proof. vm_compute. repeat split; try reflexivity; discriminate. Qed.

(* ================================================================== *)
(** ** Objects *)
(* ================================================================== *)

Lemma str_eqb_eq (a b : jsstring) : str_eqb a b = true <-> a = b.
Proof.
  revert b. induction a as [|x a IH]; destruct b as [|y b]; simpl;
    try (split; [discriminate|discriminate]); try tauto.
  rewrite andb_true_iff, N.eqb_eq, IH. split.
  - intros [-> ->]. reflexivity.
  - intros E. injection E. auto.
Qed.

Lemma str_eqb_refl (a : jsstring) : str_eqb a a = true.
Proof. now apply str_eqb_eq. Qed.

Lemma str_eqb_neq (a b : jsstring) : str_eqb a b = false <-> a <> b.
Proof.
  rewrite <- str_eqb_eq. destruct (str_eqb a b); split; congruence.
Qed.

Lemma str_eqb_sym (a b : jsstring) : str_eqb a b = str_eqb b a.
Proof.
  destruct (str_eqb a b) eqn:E1, (str_eqb b a) eqn:E2; auto.
  - apply str_eqb_eq in E1. subst. now rewrite str_eqb_refl in E2.
  - apply str_eqb_eq in E2. subst. now rewrite str_eqb_refl in E1.
Qed.

Lemma has_false_get (k : jsstring) (o : obj) : has k o = false -> get k o = VUndef.
Proof.
  induction o as [|[k' v'] o IH]; simpl; auto.
  destruct (str_eqb k' k); simpl; [discriminate | auto].
Qed.

Lemma has_app (k : jsstring) (o1 o2 : obj) : has k (o1 ++ o2) = has k o1 || has k o2.
Proof.
  induction o1 as [|[k' v'] o1 IH]; simpl; auto. now rewrite IH, orb_assoc.
Qed.

Lemma get_app (k : jsstring) (o1 o2 : obj) :
  get k (o1 ++ o2) = if has k o1 then get k o1 else get k o2.
Proof.
  induction o1 as [|[k' v'] o1 IH]; simpl; auto.
  destruct (str_eqb k' k); simpl; auto.
Qed.

Lemma has_update (k k' : jsstring) (v : value) (o : obj) :
  has k' (update k v o) = has k' o.
Proof.
  induction o as [|[k0 v0] o IH]; simpl; auto.
  destruct (str_eqb k0 k); simpl; [reflexivity | now rewrite IH].
Qed.

Lemma get_update_same (k : jsstring) (v : value) (o : obj) :
  has k o = true -> get k (update k v o) = v.
Proof.
  induction o as [|[k0 v0] o IH]; simpl; [discriminate|].
  destruct (str_eqb k0 k) eqn:E; simpl; rewrite E; auto.
Qed.

Lemma get_update_other (k k' : jsstring) (v : value) (o : obj) :
  k <> k' -> get k' (update k v o) = get k' o.
Proof.
  intros N. induction o as [|[k0 v0] o IH]; simpl; auto.
  destruct (str_eqb k0 k) eqn:E; simpl.
  - apply str_eqb_eq in E. subst k0.
    apply str_eqb_neq in N. now rewrite N.
  - now rewrite IH.
Qed.

Lemma has_insertIndex (n : N) (k k' : jsstring) (v : value) (o : obj) :
  has k' (insertIndex n k v o) = str_eqb k k' || has k' o.
Proof.
  induction o as [|[k0 v0] o IH]; simpl; auto.
  destruct (arrayIndex k0) as [n0|]; simpl; auto.
  destruct (N.leb n0 n); simpl; auto.
  rewrite IH. now destruct (str_eqb k0 k'), (str_eqb k k').
Qed.

Lemma get_insertIndex (n : N) (k k' : jsstring) (v : value) (o : obj) :
  has k o = false ->
  get k' (insertIndex n k v o) = if str_eqb k k' then v else get k' o.
Proof.
  induction o as [|[k0 v0] o IH]; simpl; auto.
  intros H. apply orb_false_iff in H as [H0 H].
  destruct (arrayIndex k0) as [n0|]; simpl; auto.
  destruct (N.leb n0 n); simpl; auto.
  rewrite (IH H).
  destruct (str_eqb k0 k') eqn:E0; auto.
  apply str_eqb_eq in E0. subst k'.
  rewrite str_eqb_sym in H0. now rewrite H0.
Qed.

Lemma has_set (k k' : jsstring) (v : value) (o : obj) :
  has k' (set k v o) = str_eqb k k' || has k' o.
Proof.
  unfold set. destruct (has k o) eqn:H.
  - rewrite has_update. destruct (str_eqb k k') eqn:E; auto.
    apply str_eqb_eq in E. subst. now rewrite H.
  - destruct (arrayIndex k).
    + apply has_insertIndex.
    + rewrite has_app. simpl. now rewrite orb_false_r, orb_comm.
Qed.

Lemma get_set (k k' : jsstring) (v : value) (o : obj) :
  get k' (set k v o) = if str_eqb k k' then v else get k' o.
Proof.
  unfold set. destruct (has k o) eqn:H.
  - destruct (str_eqb k k') eqn:E.
    + apply str_eqb_eq in E. subst. now apply get_update_same.
    + apply get_update_other. now apply str_eqb_neq.
  - destruct (arrayIndex k).
    + now apply get_insertIndex.
    + rewrite get_app. simpl. destruct (str_eqb k k') eqn:E.
      * apply str_eqb_eq in E. subst. now rewrite H.
      * destruct (has k' o) eqn:H'; auto. symmetry. now apply has_false_get.
Qed.

Lemma canonical_prefix (a b : obj) : canonical (a ++ b) = true -> canonical a = true.
Proof.
  induction a as [|[k v] a IH]; simpl; auto.
  rewrite !andb_true_iff, has_app, forallb_app, negb_true_iff, orb_false_iff.
  rewrite andb_true_iff, negb_true_iff. tauto.
Qed.

(** Appending the next property of an object is what assignment does. *)
Lemma set_snoc (acc : obj) (k : jsstring) (v : value) :
  canonical (acc ++ [(k, v)]) = true ->
  has k acc = false /\ set k v acc = acc ++ [(k, v)].
Proof.
  intros C.
  assert (H : has k acc = false /\
              forallb (fun kv => mayPrecede (fst kv) k) acc = true).
  { induction acc as [|[k0 v0] acc IH]; simpl in *; auto.
    rewrite !andb_true_iff, has_app, forallb_app, negb_true_iff in C.
    simpl in C. rewrite orb_false_iff, orb_false_r, andb_true_iff, andb_true_r in C.
    destruct C as [[[_ K] [_ M]] C]. destruct (IH C) as [H F].
    rewrite str_eqb_sym, K, H, F, M. auto. }
  destruct H as [H F]. split; [exact H|].
  unfold set. rewrite H.
  destruct (arrayIndex k) as [n|] eqn:Ik; [|reflexivity].
  clear C H. induction acc as [|[k0 v0] acc IH]; simpl in *; auto.
  apply andb_true_iff in F as [M F]. unfold mayPrecede in M. rewrite Ik in M.
  destruct (arrayIndex k0) as [n0|]; [|discriminate].
  rewrite M, (IH F). reflexivity.
Qed.

Lemma fold_set_canonical (f : obj -> jsstring * value -> value) (rest acc : obj) :
  canonical (acc ++ rest) = true ->
  (forall t kv, has (fst kv) t = false -> f t kv = snd kv) ->
  fold_left (fun t kv => set (fst kv) (f t kv) t) rest acc = acc ++ rest.
Proof.
  intros C Hf. revert acc C.
  induction rest as [|[k v] rest IH]; intros acc C; simpl.
  - now rewrite app_nil_r.
  - assert (C1 : canonical (acc ++ [(k, v)]) = true).
    { apply canonical_prefix with (b := rest). now rewrite <- app_assoc. }
    destruct (set_snoc _ _ _ C1) as [H S].
    rewrite (Hf acc (k, v) H). simpl. rewrite S, IH; rewrite <- app_assoc; auto.
Qed.

(** An object is rebuilt by [Object.fromEntries] from its entries. *)
Lemma fromEntries_canonical (o : obj) : canonical o = true -> fromEntries o = o.
Proof.
  intros C. unfold fromEntries.
  apply (fold_set_canonical (fun _ kv => snd kv) o [] C). reflexivity.
Qed.

Lemma has_keys (k : jsstring) (o : obj) : has k o = existsb (fun k' => str_eqb k' k) (keys o).
Proof. induction o as [|[k0 v0] o IH]; simpl; auto. now rewrite IH. Qed.

Lemma forallb_keys (p : jsstring -> bool) (o : obj) :
  forallb (fun kv => p (fst kv)) o = forallb p (keys o).
Proof. induction o as [|[k0 v0] o IH]; simpl; auto. now rewrite IH. Qed.

(** Whether a list is an object depends on its keys alone. *)
Lemma canonical_keys (o1 o2 : obj) :
  keys o1 = keys o2 -> canonical o1 = canonical o2.
Proof.
  revert o2. induction o1 as [|[k v] o1 IH]; destruct o2 as [|[k2 v2] o2];
    simpl; try discriminate; auto.
  intros E. injection E as -> E. rewrite (IH _ E).
  now rewrite !has_keys, !forallb_keys, E.
Qed.

Lemma keys_update (k : jsstring) (v : value) (o : obj) : keys (update k v o) = keys o.
Proof.
  induction o as [|[k0 v0] o IH]; simpl; auto.
  destruct (str_eqb k0 k); simpl; [reflexivity | now rewrite IH].
Qed.

Lemma canonical_snoc_named (o : obj) (k : jsstring) (v : value) :
  canonical o = true -> has k o = false -> arrayIndex k = None ->
  canonical (o ++ [(k, v)]) = true.
Proof.
  intros C H I. induction o as [|[k0 v0] o IH]; simpl in *; auto.
  apply andb_true_iff in C as [C C2]. apply andb_true_iff in C as [C0 C1].
  apply orb_false_iff in H as [H0 H].
  rewrite has_app, forallb_app, (IH C2 H). simpl.
  apply negb_true_iff in C0. rewrite C0, C1, str_eqb_sym, H0. simpl.
  unfold mayPrecede. rewrite I. now destruct (arrayIndex k0).
Qed.

Lemma forallb_insertIndex (p : jsstring * value -> bool) (n : N) (k : jsstring)
      (v : value) (o : obj) :
  forallb p (insertIndex n k v o) = p (k, v) && forallb p o.
Proof.
  induction o as [|[k0 v0] o IH]; simpl; auto.
  destruct (arrayIndex k0) as [n0|]; simpl; auto.
  destruct (N.leb n0 n); simpl; auto.
  rewrite IH. now destruct (p (k0, v0)), (p (k, v)).
Qed.

Lemma mayPrecede_trans_index (k k0 k2 : jsstring) (n : N) :
  arrayIndex k = Some n ->
  mayPrecede k k0 = true -> mayPrecede k0 k2 = true -> mayPrecede k k2 = true.
Proof.
  unfold mayPrecede. intros ->.
  destruct (arrayIndex k0), (arrayIndex k2); auto; try discriminate.
  rewrite !N.leb_le. lia.
Qed.

Lemma canonical_insertIndex (o : obj) (n : N) (k : jsstring) (v : value) :
  canonical o = true -> has k o = false -> arrayIndex k = Some n ->
  canonical (insertIndex n k v o) = true.
Proof.
  intros C H I. induction o as [|[k0 v0] o IH]; simpl in *; auto.
  apply andb_true_iff in C as [C C2]. apply andb_true_iff in C as [C0 C1].
  apply orb_false_iff in H as [H0 H]. apply negb_true_iff in C0.
  assert (Tail : mayPrecede k k0 = true ->
                 forallb (fun kv => mayPrecede k (fst kv)) o = true).
  { intros M. rewrite forallb_forall in *. intros kv Hin.
    apply (mayPrecede_trans_index k k0 (fst kv) I M (C1 kv Hin)). }
  assert (Stop : mayPrecede k k0 = true ->
                 canonical ((k, v) :: (k0, v0) :: o) = true).
  { intros M. simpl. rewrite H0, H, C0, C1, C2, M, (Tail M). reflexivity. }
  destruct (arrayIndex k0) as [n0|] eqn:I0.
  - destruct (N.leb n0 n) eqn:L.
    + simpl. rewrite has_insertIndex, forallb_insertIndex, (str_eqb_sym k k0).
      rewrite C0, H0, C1, (IH C2 H).
      simpl. unfold mayPrecede. now rewrite I0, I, L.
    + apply Stop. unfold mayPrecede. rewrite I, I0. apply N.leb_le.
      apply N.leb_gt in L. lia.
  - apply Stop. unfold mayPrecede. now rewrite I, I0.
Qed.

Lemma canonical_set (k : jsstring) (v : value) (o : obj) :
  canonical o = true -> canonical (set k v o) = true.
Proof.
  intros C. unfold set. destruct (has k o) eqn:H.
  - now rewrite (canonical_keys (update k v o) o (keys_update k v o)).
  - destruct (arrayIndex k) eqn:I.
    + now apply canonical_insertIndex.
    + now apply canonical_snoc_named.
Qed.

Lemma canonical_fold_set (f : obj -> jsstring * value -> value)
      (es : list (jsstring * value)) (acc : obj) :
  canonical acc = true ->
  canonical (fold_left (fun t kv => set (fst kv) (f t kv) t) es acc) = true.
Proof.
  revert acc. induction es as [|kv es IH]; simpl; auto.
  intros acc C. apply IH. now apply canonical_set.
Qed.

(** [Object.fromEntries] builds an object. *)
Lemma canonical_fromEntries (es : list (jsstring * value)) :
  canonical (fromEntries es) = true.
Proof. apply (canonical_fold_set (fun _ kv => snd kv)). reflexivity. Qed.

(* ================================================================== *)
(** ** The deep merge *)
(* ================================================================== *)

Lemma put_set (k : jsstring) (v : value) (o : obj) :
  has k o = true \/ str_eqb k (u "__proto__") = false -> put k v o = set k v o.
Proof.
  unfold put, set. destruct (has k o); [reflexivity|].
  intros [H|H]; [discriminate|]. now rewrite H.
Qed.

Lemma has_put (k k' : jsstring) (v : value) (o : obj) :
  has k' (put k v o)
  = has k' o || (str_eqb k k' && negb (str_eqb k (u "__proto__"))).
Proof.
  unfold put. destruct (has k o) eqn:H.
  - rewrite has_update. destruct (str_eqb k k') eqn:E; simpl.
    + apply str_eqb_eq in E. subst k'. now rewrite H.
    + now rewrite orb_false_r.
  - destruct (str_eqb k (u "__proto__")); simpl.
    + now rewrite andb_false_r, orb_false_r.
    + rewrite has_set, andb_true_r. apply orb_comm.
Qed.

Lemma canonical_put (k : jsstring) (v : value) (o : obj) :
  canonical o = true -> canonical (put k v o) = true.
Proof.
  intros C. unfold put. destruct (has k o) eqn:H.
  - now rewrite (canonical_keys _ _ (keys_update k v o)).
  - destruct (str_eqb k (u "__proto__")); [exact C | now apply canonical_set].
Qed.

(** A function the object inherits counts as no value for the merge. *)
Lemma newValue_read (k : jsstring) (target : obj) (sv : value) :
  has k target = true \/ str_eqb k (u "__proto__") = false ->
  newValue (read k target) sv = newValue (get k target) sv.
Proof.
  unfold read. destruct (has k target) eqn:H; [reflexivity|].
  intros [E|E]; [discriminate|]. rewrite (has_false_get _ _ H).
  unfold inherited. rewrite E.
  destruct (find _ objectPrototypeFunctions); [|reflexivity].
  now destruct sv.
Qed.

Lemma mergeStep_set (target : obj) (kv : jsstring * value) :
  has (fst kv) target = true \/ str_eqb (fst kv) (u "__proto__") = false ->
  mergeStep target kv
  = set (fst kv) (newValue (get (fst kv) target) (snd kv)) target.
Proof.
  intros H. unfold mergeStep. now rewrite (@put_set _ _ _ H), (@newValue_read _ _ _ H).
Qed.

Lemma has_proto_cons (k : jsstring) (v : value) (o : obj) :
  has (u "__proto__") ((k, v) :: o) = false ->
  str_eqb k (u "__proto__") = false /\ has (u "__proto__") o = false.
Proof. simpl. intros H. now apply orb_false_iff in H. Qed.

Lemma fold_mergeStep_set (source target : obj) :
  has (u "__proto__") source = false ->
  fold_left mergeStep source target
  = fold_left (fun t kv => set (fst kv) (newValue (get (fst kv) t) (snd kv)) t)
              source target.
Proof.
  revert target. induction source as [|[k sv] source IH]; intros target P.
  - reflexivity.
  - apply has_proto_cons in P as [Pk P]. simpl fold_left.
    rewrite (@mergeStep_set target (k, sv)); [|now right]. now apply IH.
Qed.

Lemma mergeInto_fold (es : list (jsstring * value)) (target : obj) :
  mergeInto (VObj es) target = fold_left mergeStep es target.
Proof.
  revert target. induction es as [|[k sv] es IH]; intros target.
  - reflexivity.
  - simpl fold_left. etransitivity; [|apply IH]. reflexivity.
Qed.

Lemma mergeObjects_one (target source : obj) :
  mergeObjects target [Some source] = fold_left mergeStep source target.
Proof. simpl. apply mergeInto_fold. Qed.

(** Merging an object into the empty object copies it. *)
Lemma mergeInto_empty (source : obj) :
  canonical source = true -> has (u "__proto__") source = false ->
  mergeInto (VObj source) [] = source.
Proof.
  intros C P. rewrite mergeInto_fold, (@fold_mergeStep_set _ _ P).
  apply (fold_set_canonical (fun t kv => newValue (get (fst kv) t) (snd kv)) source [] C).
  intros t [k sv] H. simpl in *. rewrite (has_false_get _ _ H).
  now destruct sv.
Qed.

Lemma newValue_combined (tv sv : value) :
  wellFormed sv = true -> newValue tv sv = combined tv sv.
Proof.
  intros W. destruct sv; try reflexivity; [|discriminate].
  destruct tv; try reflexivity;
    simpl in W; apply andb_true_iff in W as [C _];
    apply andb_true_iff in C as [C P]; apply negb_true_iff in P;
    change (VObj (mergeInto (VObj es) []) = VObj es);
    now rewrite (@mergeInto_empty _ C P).
Qed.

Lemma has_fold_mergeStep (k : jsstring) (source target : obj) :
  has (u "__proto__") source = false ->
  has k (fold_left mergeStep source target) = has k target || has k source.
Proof.
  intros P. rewrite (@fold_mergeStep_set _ _ P). clear P.
  revert target. induction source as [|[k0 sv] source IH]; intros target; simpl.
  - now rewrite orb_false_r.
  - rewrite IH. simpl. rewrite has_set.
    rewrite (str_eqb_sym k0 k).
    now destruct (str_eqb k k0), (has k target), (has k source).
Qed.

Lemma get_fold_mergeStep (k : jsstring) (source target : obj) :
  canonical source = true -> has (u "__proto__") source = false ->
  get k (fold_left mergeStep source target)
  = if has k source then newValue (get k target) (get k source) else get k target.
Proof.
  intros C P. rewrite (@fold_mergeStep_set _ _ P). clear P. revert C.
  revert target. induction source as [|[k0 sv] source IH]; intros target C; simpl.
  - reflexivity.
  - simpl in C. apply andb_true_iff in C as [C C2]. apply andb_true_iff in C as [C0 _].
    apply negb_true_iff in C0.
    rewrite (IH _ C2). simpl. rewrite get_set.
    destruct (str_eqb k0 k) eqn:E; simpl.
    + apply str_eqb_eq in E. subst k0. now rewrite C0.
    + reflexivity.
Qed.

Lemma wellFormed_get (k : jsstring) (o : obj) :
  wellFormed (VObj o) = true -> wellFormed (get k o) = true.
Proof.
  simpl. rewrite andb_true_iff. intros [_ W].
  induction o as [|[k0 v0] o IH]; simpl in *; auto.
  apply andb_true_iff in W as [W0 W]. destruct (str_eqb k0 k); auto.
Qed.

Lemma has_proto_fold_mergeStep (source target : obj) :
  has (u "__proto__") (fold_left mergeStep source target)
  = has (u "__proto__") target.
Proof.
  revert target. induction source as [|[k sv] source IH]; intros target; simpl; auto.
  rewrite IH. unfold mergeStep. rewrite has_put. simpl fst.
  destruct (str_eqb k (u "__proto__")); simpl; apply orb_false_r.
Qed.

(** C3, as amended.  For an accumulator and a source made of data in
    which no mapping has a key [__proto__], [mergeObjects] gives every key
    of the source the value of the combination rule - arrays concatenated,
    maps merged recursively, anything else replaced - leaves the other
    keys of the accumulator as they are, and the keys of the result are
    those of both; a key [__proto__] that the accumulator has not is
    never added, whatever the source; the three examples of the
    specification evaluate as stated. *)
Theorem mergeObjects_combines_per_key :
  (forall (acc source : obj) (k : jsstring),
      wellFormed (VObj source) = true ->
      has k (mergeObjects acc [Some source]) = has k acc || has k source /\
      get k (mergeObjects acc [Some source])
      = if has k source then combined (get k acc) (get k source) else get k acc) /\
  (forall acc source : obj,
      has (u "__proto__") (mergeObjects acc [Some source]) = has (u "__proto__") acc) /\
  mergeObjects [(u "a", VArr [VNum 1])] [Some [(u "a", VArr [VNum 2])]]
  = [(u "a", VArr [VNum 1; VNum 2])] /\
  mergeObjects [(u "a", VObj [(u "x", VNum 1)])] [Some [(u "a", VObj [(u "y", VNum 2)])]]
  = [(u "a", VObj [(u "x", VNum 1); (u "y", VNum 2)])] /\
  mergeObjects [(u "a", VNum 1)] [Some [(u "a", VStr (u "x"))]]
  = [(u "a", VStr (u "x"))].
Proof.
  split; [|split; [|vm_compute; repeat split; reflexivity]];
    [|intros acc source; rewrite mergeObjects_one; apply has_proto_fold_mergeStep].
  intros acc source k W. rewrite mergeObjects_one.
  assert (C : canonical source = true /\ has (u "__proto__") source = false).
  { simpl in W. apply andb_true_iff in W as [C _].
    apply andb_true_iff in C as [C P]. now apply negb_true_iff in P. }
  destruct C as [C P]. split.
  - now apply has_fold_mergeStep.
  - rewrite (@get_fold_mergeStep k source acc C P).
    destruct (has k source); auto.
    apply newValue_combined. now apply wellFormed_get.
Qed.

Lemma mergeObjects_combines_per_key_witness :
  wellFormed (VObj [(u "a", VObj [(u "y", VNum 2)]); (u "b", VArr [VNum 3])]) = true /\
  get (u "a")
      (mergeObjects [(u "a", VNull)]
                    [Some [(u "a", VObj [(u "y", VNum 2)]); (u "b", VArr [VNum 3])]])
  = VObj [(u "y", VNum 2)].
Proof.
  split; [reflexivity|].
  exact (proj2 (proj1 mergeObjects_combines_per_key
                  [(u "a", VNull)]
                  [(u "a", VObj [(u "y", VNum 2)]); (u "b", VArr [VNum 3])]
                  (u "a") eq_refl)).
Defined.

(** C3, the claim as it was stated fails: the extractor makes the source
    [{__proto__: "x"}] of the line [__proto__:: x], a key present only in
    the source, and the merge into the empty mapping does not add it -
    the assignment runs the setter every object inherits. *)
Lemma mergeObjects_skips_inherited_setter :
  getPropertiesFromBlockContent
    (block (u "__proto__:: x") [(u "_proto__", VStr (u "x"))])
  = Some [(u "__proto__", VStr (u "x"))] /\
  has (u "__proto__") [(u "__proto__", VStr (u "x"))] = true /\
  has (u "__proto__") [] = false /\
  has (u "__proto__") (mergeObjects [] [Some [(u "__proto__", VStr (u "x"))]]) = false /\
  mergeObjects [] [Some [(u "__proto__", VStr (u "x"))]] = [].
Proof. vm_compute. repeat split; reflexivity. Qed.

(** C4.  Without sources [mergeObjects] returns its target, and several
    sources are folded from left to right:
    [merge(merge({}, A), B) = merge({}, A, B)] for all mappings. *)
Theorem mergeObjects_is_left_fold :
  (forall target : obj, mergeObjects target [] = target) /\
  (forall A B : obj,
      mergeObjects (mergeObjects [] [Some A]) [Some B] = mergeObjects [] [Some A; Some B]) /\
  (forall (target : obj) (sources : list obj),
      mergeObjects target (map Some sources)
      = fold_left (fun acc source => mergeObjects acc [Some source]) sources target).
Proof.
  split; [reflexivity|]. split; [reflexivity|].
  intros target sources. revert target.
  induction sources as [|s sources IH]; intros target; simpl; auto.
Qed.

(* ================================================================== *)
(** ** The consistency waiter *)
(* ================================================================== *)

Section Waiter.
Context {Store : Type} (host : Host Store).
Variables (srcBlock : BlockEntity) (propsCount : Z).

Local Abbreviation poll := (pollOnce host srcBlock).
Local Abbreviation sleep := (sleepOnce host).
Local Abbreviation worldAt := (worldAtPoll host srcBlock).
Local Abbreviation observedAt := (observedAtPoll host srcBlock).
Local Abbreviation limit := (threshold srcBlock propsCount).

Lemma waitForRefs_step (fuel : nat) (w : World Store) :
  waitForRefs host (S fuel) srcBlock propsCount w
  = if (observedRefs (fst (poll w)) <=? limit)%Z
    then Some (assign srcBlock (fst (poll w)), snd (poll w))
    else waitForRefs host fuel srcBlock propsCount (sleep (snd (poll w))).
Proof.
  unfold pollOnce, sleepOnce, threshold. simpl.
  destruct (ask _ _) as [b w1]. reflexivity.
Qed.

Lemma waitForRefs_accepts (n : nat) :
  forall (w : World Store) (fuel : nat),
    n < fuel ->
    (observedAt n w <= limit)%Z ->
    (forall i, i < n -> (limit < observedAt i w)%Z) ->
    waitForRefs host fuel srcBlock propsCount w
    = Some (assign srcBlock (fst (poll (worldAt n w))),
            snd (poll (worldAt n w))).
Proof.
  induction n as [|n IH]; intros w fuel Hf Hn Hbefore;
    (destruct fuel as [|fuel]; [lia|]); rewrite waitForRefs_step.
  - unfold observedAtPoll in Hn. simpl in Hn.
    apply Z.leb_le in Hn. now rewrite Hn.
  - pose proof (Hbefore 0 ltac:(lia)) as H0. unfold observedAtPoll in H0.
    simpl in H0. apply Z.leb_gt in H0. rewrite H0.
    apply IH; [lia | exact Hn |].
    intros i Hi. apply (Hbefore (S i)). lia.
Qed.

Lemma waitForRefs_accepted (fuel : nat) :
  forall (w : World Store) (b : BlockEntity) (w' : World Store),
    waitForRefs host fuel srcBlock propsCount w = Some (b, w') ->
    exists n,
      n < fuel /\
      (observedAt n w <= limit)%Z /\
      (forall i, i < n -> (limit < observedAt i w)%Z) /\
      b = assign srcBlock (fst (poll (worldAt n w))) /\
      w' = snd (poll (worldAt n w)).
Proof.
  induction fuel as [|fuel IH]; intros w b w' E; [discriminate|].
  rewrite waitForRefs_step in E.
  destruct (observedRefs (fst (poll w)) <=? limit)%Z eqn:A.
  - injection E as <- <-. exists 0. apply Z.leb_le in A.
    repeat split; auto; [lia | lia].
  - destruct (IH _ _ _ E) as (n & Hn & Ha & Hb & -> & ->).
    exists (S n). apply Z.leb_gt in A. repeat split; auto; [lia|].
    intros [|i] Hi; [exact A | apply Hb; lia].
Qed.

(** The calls made up to poll [n]: a fetch and a delay of 50 ms for each
    refused poll. *)
Lemma trace_worldAtPoll (n : nat) :
  forall w : World Store,
    trace (worldAt n w)
    = trace w ++ concat (repeat [EGetBlock (uuid srcBlock); ESleep 50] n).
Proof.
  induction n as [|n IH]; intros w; simpl.
  - now rewrite app_nil_r.
  - rewrite IH. unfold sleepOnce, pollOnce, ask, emit, onStore. simpl.
    destruct (getBlock host (uuid srcBlock) (store w)) as [b s]. simpl.
    now rewrite <- !app_assoc.
Qed.

Lemma trace_pollOnce (w : World Store) :
  trace (snd (poll w)) = trace w ++ [EGetBlock (uuid srcBlock)].
Proof.
  unfold pollOnce, ask, emit. simpl.
  now destruct (getBlock host (uuid srcBlock) (store w)).
Qed.

End Waiter.

(** C7.  The waiter accepts a snapshot exactly at the first poll whose
    observed reference count is at most the count recorded before the
    mutation minus the number of property keys: it never accepts a larger
    count, every refused poll is followed by a delay of 50 ms and another
    fetch, and with enough polls allowed the first poll within the
    threshold is accepted.  With 5 recorded references and 2 keys, counts
    5, 4, 3 are answered by two delays and the snapshot with 3 references. *)
Theorem waitForRefs_accepts_first_poll_within_threshold :
  (forall (Store : Type) (host : Host Store) (srcBlock : BlockEntity)
          (propsCount : Z) (w : World Store) (fuel : nat)
          (b : BlockEntity) (w' : World Store),
      waitForRefs host fuel srcBlock propsCount w = Some (b, w') ->
      exists n,
        n < fuel /\
        (observedAtPoll host srcBlock n w <= threshold srcBlock propsCount)%Z /\
        (forall i, i < n ->
                   (threshold srcBlock propsCount < observedAtPoll host srcBlock i w)%Z) /\
        b = assign srcBlock (fst (pollOnce host srcBlock (worldAtPoll host srcBlock n w))) /\
        trace w' = trace w
                   ++ concat (repeat [EGetBlock (uuid srcBlock); ESleep 50] n)
                   ++ [EGetBlock (uuid srcBlock)]) /\
  (forall (Store : Type) (host : Host Store) (srcBlock : BlockEntity)
          (propsCount : Z) (w : World Store) (n fuel : nat),
      n < fuel ->
      (observedAtPoll host srcBlock n w <= threshold srcBlock propsCount)%Z ->
      (forall i, i < n ->
                 (threshold srcBlock propsCount < observedAtPoll host srcBlock i w)%Z) ->
      waitForRefs host fuel srcBlock propsCount w
      = Some (assign srcBlock (fst (pollOnce host srcBlock (worldAtPoll host srcBlock n w))),
              snd (pollOnce host srcBlock (worldAtPoll host srcBlock n w)))) /\
  (let src := scriptedBlock (u "src") [1; 2; 3; 4; 5]%N in
   let w := {| store := [[1; 2; 3; 4; 5]; [1; 2; 3; 4]; [1; 2; 3]; [1; 2]]%N;
               trace := [] |} in
   threshold src 2 = 3%Z /\
   waitForRefs scriptedHost 10 src 2 w
   = Some (scriptedBlock (u "src") [1; 2; 3]%N,
           {| store := [[1; 2; 3]; [1; 2]]%N;
              trace := [EGetBlock (u "src"); ESleep 50;
                        EGetBlock (u "src"); ESleep 50;
                        EGetBlock (u "src")] |})).
Proof.
  split; [|split].
  - intros Store host srcBlock propsCount w fuel b w' E.
    destruct (waitForRefs_accepted host srcBlock propsCount fuel w E)
      as (n & Hn & Ha & Hb & Eb & Ew).
    exists n. repeat split; auto.
    rewrite Ew, trace_pollOnce, trace_worldAtPoll. now rewrite <- app_assoc.
  - intros Store host srcBlock propsCount w n fuel. apply waitForRefs_accepts.
  - vm_compute. split; reflexivity.
Qed.

Lemma waitForRefs_accepts_first_poll_within_threshold_witness :
  waitForRefs scriptedHost 3 (scriptedBlock (u "src") [1; 2; 3; 4; 5]%N) 2
              {| store := [[1; 2; 3; 4; 5]; [1; 2; 3]]%N; trace := [] |}
  = Some (scriptedBlock (u "src") [1; 2; 3]%N,
          {| store := [[1; 2; 3]]%N;
             trace := [EGetBlock (u "src"); ESleep 50; EGetBlock (u "src")] |}).
Proof.
  refine (proj1 (proj2 waitForRefs_accepts_first_poll_within_threshold)
                (list (list N)) scriptedHost
                (scriptedBlock (u "src") [1; 2; 3; 4; 5]%N) 2%Z
                {| store := [[1; 2; 3; 4; 5]; [1; 2; 3]]%N; trace := [] |}
                1 3 _ _ _).
  - lia.
  - vm_compute. discriminate.
  - intros i Hi. assert (i = 0) as -> by lia. vm_compute. reflexivity.
Defined.

(* ================================================================== *)
(** ** The relocation of the children *)
(* ================================================================== *)

Lemma last_nonempty_default {A} (l : list A) (x d d' : A) :
  last (x :: l) d = last (x :: l) d'.
Proof.
  revert x. induction l as [|y l IH]; intros x; [reflexivity|].
  change (last (y :: l) d = last (y :: l) d'). apply IH.
Qed.

Lemma last_cons_default {A} (l : list A) (x d : A) : last (x :: l) d = last l x.
Proof.
  destruct l as [|y l]; [reflexivity|].
  change (last (y :: l) d = last (y :: l) x). apply last_nonempty_default.
Qed.

Section Sequencer.
Context {Store : Type} (host : Host Store).

Lemma moveChildren_app (done rest : list BlockEntity) :
  forall (cursor : jsstring) (w : World Store),
    moveChildren host (done ++ rest) cursor w
    = match moveChildren host done cursor w with
      | (Some cursor', w1) => moveChildren host rest cursor' w1
      | (None, w1) => (None, w1)
      end.
Proof.
  induction done as [|c done IH]; intros cursor w; simpl; auto.
  destruct (ask _ _) as [ok w1]. destruct ok; auto.
Qed.

Lemma moveChildren_done (children : list BlockEntity) :
  forall (cursor cursor' : jsstring) (w w' : World Store),
    moveChildren host children cursor w = (Some cursor', w') ->
    cursor' = last (map uuid children) cursor /\
    trace w' = trace w ++ moveCalls cursor children.
Proof.
  induction children as [|c children IH]; intros cursor cursor' w w' E; simpl in E.
  - injection E as <- <-. simpl. now rewrite app_nil_r.
  - destruct (ask _ _) as [ok w1] eqn:A. destruct ok; [|discriminate].
    destruct (IH _ _ _ _ E) as [-> T]. split.
    + simpl map. now rewrite last_cons_default.
    + rewrite T. unfold ask, emit in A. simpl in A.
      destruct (moveBlock host (uuid c) cursor siblingAfter (store w)) as [ok s].
      injection A as _ <-. simpl. now rewrite <- app_assoc.
Qed.

(** The failing move ends the loop. *)
Lemma moveChildren_fails_at (done rest : list BlockEntity) (c : BlockEntity) :
  forall (anchor cursor : jsstring) (w w1 : World Store),
    moveChildren host done anchor w = (Some cursor, w1) ->
    fst (moveBlock host (uuid c) cursor siblingAfter (store w1)) = false ->
    moveChildren host (done ++ c :: rest) anchor w
    = (None,
       {| store := snd (moveBlock host (uuid c) cursor siblingAfter (store w1));
          trace := trace w ++ moveCalls anchor done
                   ++ [EMoveBlock (uuid c) cursor siblingAfter;
                       EConsoleError (u "moveBlock error");
                       EShowMsg (u "move block error") (u "error")] |}).
Proof.
  intros anchor cursor w w1 E F. rewrite moveChildren_app, E. simpl.
  destruct (moveChildren_done _ _ _ E) as [_ T].
  unfold ask, emit. simpl.
  destruct (moveBlock host (uuid c) cursor siblingAfter (store w1)) as [ok s].
  simpl in *. subst ok. simpl. rewrite T. now rewrite <- !app_assoc.
Qed.

End Sequencer.

Lemma memId_In (x : jsstring) (l : list jsstring) : memId x l = true <-> In x l.
Proof.
  unfold memId. rewrite existsb_exists. split.
  - intros (y & Hy & E). apply str_eqb_eq in E. now subst.
  - intros H. exists x. split; auto. apply str_eqb_refl.
Qed.

Lemma memId_notIn (x : jsstring) (l : list jsstring) : memId x l = false <-> ~ In x l.
Proof. rewrite <- memId_In. destruct (memId x l); split; congruence. Qed.

Lemma removeId_notIn (x : jsstring) (l : list jsstring) : ~ In x l -> removeId x l = l.
Proof.
  induction l as [|y l IH]; simpl; auto. intros N.
  destruct (str_eqb y x) eqn:E; simpl.
  - apply str_eqb_eq in E. subst. exfalso. apply N. now left.
  - rewrite IH; auto.
Qed.

Lemma insertAfter_at (anchor x : jsstring) (pre post : list jsstring) :
  ~ In anchor pre ->
  insertAfter anchor x (pre ++ anchor :: post) = pre ++ anchor :: x :: post.
Proof.
  induction pre as [|y pre IH]; simpl; intros N.
  - now rewrite str_eqb_refl.
  - destruct (str_eqb y anchor) eqn:E.
    + apply str_eqb_eq in E. subst. exfalso. apply N. now left.
    + rewrite IH; auto.
Qed.

(** On the outline every move of the sequence succeeds when the children
    are not in the outline yet, are pairwise different and none is locked;
    they end up behind the anchor, in their order. *)
Lemma moveChildren_outline (children : list BlockEntity) :
  forall (pre post : list jsstring) (cursor : jsstring) (w : World Outline),
    siblings (store w) = pre ++ cursor :: post ->
    ~ In cursor pre ->
    NoDup (map uuid children) ->
    (forall id, In id (map uuid children) ->
                ~ In id (pre ++ cursor :: post) /\ ~ In id (locked (store w))) ->
    exists w',
      moveChildren outlineHost children cursor w
      = (Some (last (map uuid children) cursor), w') /\
      siblings (store w') = pre ++ cursor :: map uuid children ++ post /\
      locked (store w') = locked (store w).
Proof.
  induction children as [|c children IH]; intros pre post cursor w S Nc D Out.
  - exists w. simpl. auto.
  - simpl map in *. inversion D as [|? ? Dc D']; subst.
    destruct (Out (uuid c) (or_introl eq_refl)) as [Oc Lc].
    assert (M : outlineMove (uuid c) cursor siblingAfter (store w)
                = (true, {| siblings := pre ++ cursor :: uuid c :: post;
                            locked := locked (store w) |})).
    { unfold outlineMove. rewrite S, (removeId_notIn _ _ Oc).
      apply memId_notIn in Lc. rewrite Lc.
      assert (Ha : memId cursor (pre ++ cursor :: post) = true).
      { apply memId_In, in_elt. }
      rewrite Ha. simpl. now rewrite insertAfter_at. }
    simpl moveChildren. unfold ask, emit at 1. simpl store. simpl moveBlock.
    rewrite M.
    set (w1 := {| store := {| siblings := pre ++ cursor :: uuid c :: post;
                              locked := locked (store w) |};
                  trace := trace w ++ [EMoveBlock (uuid c) cursor siblingAfter] |}).
    destruct (IH (pre ++ [cursor]) post (uuid c) w1) as (w' & E & S' & L').
    + simpl. now rewrite <- app_assoc.
    + intros H. apply in_app_or in H as [H | [H | []]].
      * apply Oc. apply in_or_app. now left.
      * apply Oc. subst. apply in_elt.
    + exact D'.
    + intros id Hid. destruct (Out id (or_intror Hid)) as [O L]. split; auto.
      rewrite <- app_assoc. simpl. intros H.
      apply in_app_or in H as [H | [H | [H | H]]].
      * apply O, in_or_app. now left.
      * apply O. subst. apply in_elt.
      * subst. apply Dc. exact Hid.
      * apply O, in_or_app. right. now right.
    + exists w'. rewrite last_cons_default. split; [exact E|]. split; auto.
      rewrite S', <- app_assoc. reflexivity.
Qed.

(** C6.  When the move of a child fails after the children before it were
    moved, the loop stops there: the calls made are the moves of the
    children before it, the failing move, [console.error] and
    [showMsg("move block error", "error")], and nothing else - no later
    child is tried and no call undoes a move or an earlier write, the store
    is as the failing call left it - and [main] returns. *)
Theorem relocate_aborts_at_first_failing_move :
  (forall (Store : Type) (host : Host Store) (settings : Settings)
          (srcBlock targetBlock : BlockEntity) (pageBlock : option BlockEntity)
          (pageName newBlockContent : jsstring)
          (done rest : list BlockEntity) (c : BlockEntity) (cursor : jsstring)
          (w w1 w2 : World Store),
      children srcBlock = done ++ c :: rest ->
      targetBlockOf host pageName w = (Some targetBlock, w1) ->
      moveChildren host done (uuid targetBlock) w1 = (Some cursor, w2) ->
      fst (moveBlock host (uuid c) cursor siblingAfter (store w2)) = false ->
      relocate host settings srcBlock pageBlock pageName newBlockContent w
      = Returned
          {| store := snd (moveBlock host (uuid c) cursor siblingAfter (store w2));
             trace := trace w1 ++ moveCalls (uuid targetBlock) done
                      ++ [EMoveBlock (uuid c) cursor siblingAfter;
                          EConsoleError (u "moveBlock error");
                          EShowMsg (u "move block error") (u "error")] |}) /\
  moveChildren outlineHost [leaf "c1"; leaf "c2"; leaf "c3"] (u "T")
               {| store := {| siblings := [u "p"; u "T"]; locked := [u "c2"] |};
                  trace := [EUpdateBlock (u "page") (u "a:: 1")] |}
  = (None,
     {| store := {| siblings := [u "p"; u "T"; u "c1"]; locked := [u "c2"] |};
        trace := [EUpdateBlock (u "page") (u "a:: 1");
                  EMoveBlock (u "c1") (u "T") {| asChildren := false; before := false |};
                  EMoveBlock (u "c2") (u "c1") {| asChildren := false; before := false |};
                  EConsoleError (u "moveBlock error");
                  EShowMsg (u "move block error") (u "error")] |}).
Proof.
  split; [|vm_compute; reflexivity].
  intros Store host settings srcBlock targetBlock pageBlock pageName newBlockContent
         done rest c cursor w w1 w2 Hc Ht Hd Hf.
  unfold relocate. rewrite Ht, Hc.
  now rewrite (moveChildren_fails_at host done rest c _ _ Hd Hf).
Qed.

Lemma relocate_aborts_at_first_failing_move_witness :
  relocate outlineHost
           {| allowWithoutChildren := false; redirectToPage := true;
              createFirstBlock := true; moveBlockPropertiesToPage := false;
              createPageTags := false |}
           (mkBlock (u "src") (u "Title") [leaf "c1"; leaf "c2"; leaf "c3"]
                    None [] [] false)
           None (u "Title") (u "[[Title]]")
           {| store := {| siblings := [u "T"]; locked := [u "c2"] |}; trace := [] |}
  = Returned
      {| store := {| siblings := [u "T"; u "c1"]; locked := [u "c2"] |};
         trace := [EGetPageBlocksTree (u "Title")]
                  ++ moveCalls (u "T") [leaf "c1"]
                  ++ [EMoveBlock (u "c2") (u "c1") siblingAfter;
                      EConsoleError (u "moveBlock error");
                      EShowMsg (u "move block error") (u "error")] |}.
Proof.
  exact (proj1 relocate_aborts_at_first_failing_move
               Outline outlineHost
               {| allowWithoutChildren := false; redirectToPage := true;
                  createFirstBlock := true; moveBlockPropertiesToPage := false;
                  createPageTags := false |}
               (mkBlock (u "src") (u "Title") [leaf "c1"; leaf "c2"; leaf "c3"]
                        None [] [] false)
               (outlineBlock (u "T")) None (u "Title") (u "[[Title]]")
               [leaf "c1"] [leaf "c3"] (leaf "c2") (u "c1")
               {| store := {| siblings := [u "T"]; locked := [u "c2"] |}; trace := [] |}
               {| store := {| siblings := [u "T"]; locked := [u "c2"] |};
                  trace := [EGetPageBlocksTree (u "Title")] |}
               {| store := {| siblings := [u "T"; u "c1"]; locked := [u "c2"] |};
                  trace := [EGetPageBlocksTree (u "Title");
                            EMoveBlock (u "c1") (u "T") siblingAfter] |}
               eq_refl eq_refl eq_refl eq_refl).
Defined.

(* ================================================================== *)
(** ** The matcher on the property line pattern *)
(* ================================================================== *)

(** A successful quantifier loop took some characters of the class, at
    least [min], and the rest of the pattern matched behind them. *)
Lemma rep_inv (cls : char -> bool) (greedy : bool)
      (k : nat -> jsstring -> option captures) (rest : jsstring) :
  forall (min pos : nat) (c : captures),
    rep cls greedy k min pos rest = Some c ->
    exists pre suf,
      rest = pre ++ suf /\ forallb cls pre = true /\ min <= length pre /\
      k (pos + length pre) suf = Some c.
Proof.
  induction rest as [|x rest IH]; intros min pos c E.
  - destruct min as [|min]; simpl in E; [|discriminate].
    exists [], []. simpl. rewrite Nat.add_0_r.
    destruct greedy; destruct (k pos []); try discriminate; auto.
  - assert (More : (if cls x then rep cls greedy k (pred min) (S pos) rest else None)
                   = Some c ->
                   exists pre suf,
                     x :: rest = pre ++ suf /\ forallb cls pre = true /\
                     min <= length pre /\ k (pos + length pre) suf = Some c).
    { destruct (cls x) eqn:Cx; [|discriminate]. intros E'.
      destruct (IH _ _ _ E') as (pre & suf & -> & F & L & K).
      exists (x :: pre), suf. simpl. rewrite Cx, F.
      rewrite Nat.add_succ_r. simpl in K. repeat split; auto. lia. }
    assert (Here : min = 0 -> k pos (x :: rest) = Some c ->
                   exists pre suf,
                     x :: rest = pre ++ suf /\ forallb cls pre = true /\
                     min <= length pre /\ k (pos + length pre) suf = Some c).
    { intros -> K. exists [], (x :: rest). simpl. rewrite Nat.add_0_r. auto. }
    destruct min as [|min]; simpl in E.
    + destruct greedy.
      * destruct (if cls x then rep cls true k 0 (S pos) rest else None) eqn:M.
        -- apply More. simpl. now rewrite M, E.
        -- now apply Here.
      * destruct (k pos (x :: rest)) eqn:K.
        -- apply Here; auto.
        -- now apply More.
    + now apply More.
Qed.

(** If the rest of the pattern matches behind some run of characters of
    the class, the loop finds a match. *)
Lemma rep_complete (cls : char -> bool) (greedy : bool)
      (k : nat -> jsstring -> option captures) (pre : jsstring) :
  forall (suf : jsstring) (min pos : nat),
    forallb cls pre = true -> min <= length pre ->
    k (pos + length pre) suf <> None ->
    rep cls greedy k min pos (pre ++ suf) <> None.
Proof.
  induction pre as [|x pre IH]; intros suf min pos F L K.
  - simpl in *. rewrite Nat.add_0_r in K. assert (min = 0) as -> by lia.
    destruct suf as [|y suf]; simpl.
    + destruct greedy; destruct (k pos []); congruence.
    + destruct greedy.
      * destruct (if cls y then rep cls true k 0 (S pos) suf else None); [discriminate|].
        exact K.
      * destruct (k pos (y :: suf)); [discriminate | congruence].
  - simpl in F. apply andb_true_iff in F as [Cx F].
    assert (M : rep cls greedy k (pred min) (S pos) (pre ++ suf) <> None).
    { apply IH; auto.
      - simpl in L. lia.
      - simpl in K. now rewrite Nat.add_succ_r in K. }
    simpl. rewrite Cx. destruct min as [|min]; [|exact M].
    destruct greedy.
    + destruct (rep cls true k (pred 0) (S pos) (pre ++ suf)); congruence.
    + destruct (k pos (x :: pre ++ suf)); [discriminate | exact M].
Qed.

(** The groups a pattern does not open or close keep their positions. *)
Lemma run_preserves (g : nat) (r : regex) :
  forall (pos : nat) (rest : jsstring) (caps c : captures),
    touches g r = false ->
    run r pos rest caps = Some c ->
    starts c g = starts caps g /\ stops c g = stops caps g.
Proof.
  induction r as [|it r IH]; intros pos rest caps c T E; simpl in E.
  - injection E as <-. auto.
  - simpl in T. apply orb_false_iff in T as [Ti T].
    destruct it.
    + destruct (Nat.eqb pos 0); [eauto | discriminate].
    + destruct rest; [eauto | discriminate].
    + destruct rest as [|x rest]; [discriminate|].
      destruct (N.eqb x c0); [eauto | discriminate].
    + destruct rest as [|x rest]; [discriminate|].
      destruct (cls x); [eauto | discriminate].
    + apply rep_inv in E as (pre & suf & _ & _ & _ & K). eauto.
    + destruct (IH _ _ _ _ T E) as [S1 S2]. rewrite S1, S2. simpl.
      rewrite Nat.eqb_sym, Ti. auto.
    + destruct (IH _ _ _ _ T E) as [S1 S2]. rewrite S1, S2. simpl.
      rewrite Nat.eqb_sym, Ti. auto.
Qed.

(** A pattern that begins with [^] matches at position 0 or not at all. *)
Lemma execFrom_bol (r : regex) (rest : jsstring) :
  forall pos, pos <> 0 -> execFrom (Bol :: r) pos rest = None.
Proof.
  induction rest as [|x rest IH]; intros pos N; simpl;
    destruct (Nat.eqb pos 0) eqn:E;
    try (apply Nat.eqb_eq in E; congruence); auto.
Qed.

Lemma exec_bol (r : regex) (s : jsstring) :
  exec (Bol :: r) s = run (r ++ [Close 0]) 0 s (setStart 0 0 noCaptures).
Proof.
  unfold exec. destruct s as [|x s]; simpl.
  - now destruct (run (r ++ [Close 0]) 0 [] (setStart 0 0 noCaptures)).
  - destruct (run (r ++ [Close 0]) 0 (x :: s) (setStart 0 0 noCaptures)); auto.
    apply (execFrom_bol (r ++ [Close 0]) s). discriminate.
Qed.

Lemma firstn_skipn_middle {A} (a b c : list A) :
  firstn (length a + length b - length a) (skipn (length a) (a ++ b ++ c)) = b.
Proof.
  rewrite skipn_app, skipn_all, Nat.sub_diag. simpl.
  replace (length a + length b - length a) with (length b) by lia.
  rewrite firstn_app, firstn_all, Nat.sub_diag. simpl. apply app_nil_r.
Qed.

(** A match of a pattern that begins like the property pattern: white
    space, a key of word characters in group 1, [::]. *)
Lemma run_keyPrefix_inv (R : regex) (line : jsstring) (caps c : captures) :
  touches 1 R = false ->
  run (Rep isWhiteSpace 0 true :: Open 1 :: Rep isWord 1 true :: Close 1
           :: Lit 58%N :: Lit 58%N :: R) 0 line caps = Some c ->
  exists ws key rest,
    line = ws ++ key ++ 58%N :: 58%N :: rest /\
    forallb isWhiteSpace ws = true /\
    forallb isWord key = true /\ key <> [] /\
    group line c 1 = Some key.
Proof.
  intros T E. cbn [run] in E.
  apply rep_inv in E as (ws & s1 & -> & Fws & _ & E). cbn [run] in E.
  apply rep_inv in E as (key & s2 & -> & Fkey & Lkey & E). cbn [run] in E.
  destruct s2 as [|x1 s2]; [discriminate|].
  destruct (N.eqb x1 58) eqn:X1; [|discriminate]. apply N.eqb_eq in X1. subst x1.
  destruct s2 as [|x2 rest]; [discriminate|].
  destruct (N.eqb x2 58) eqn:X2; [|discriminate]. apply N.eqb_eq in X2. subst x2.
  apply run_preserves with (g := 1) in E as [S1 S2]; [|exact T].
  exists ws, key, rest. repeat split; auto.
  - intros ->. simpl in Lkey. lia.
  - unfold group. rewrite S1, S2. simpl. f_equal.
    apply (firstn_skipn_middle ws key (58%N :: 58%N :: rest)).
Qed.

Lemma exec_propertyLine_inv (line : jsstring) (c : captures) :
  exec propertyLineRegex line = Some c ->
  exists ws key rest,
    line = ws ++ key ++ 58%N :: 58%N :: rest /\
    forallb isWhiteSpace ws = true /\
    forallb isWord key = true /\ key <> [] /\
    group line c 1 = Some key.
Proof.
  unfold propertyLineRegex. rewrite exec_bol. cbn [app].
  apply run_keyPrefix_inv. reflexivity.
Qed.

Lemma matchKey_inv (line key : jsstring) :
  matchKey line = Some key ->
  exists ws rest,
    line = ws ++ key ++ 58%N :: 58%N :: rest /\
    forallb isWhiteSpace ws = true /\
    forallb isWord key = true /\ key <> [].
Proof.
  unfold matchKey. destruct (exec propertyLineRegex line) as [c|] eqn:E; [|discriminate].
  intros G. destruct (exec_propertyLine_inv line E) as (ws & k & rest & L & W & K & N & G').
  rewrite G in G'. injection G' as <-. now exists ws, rest.
Qed.

Lemma isPropertyLine_matchKey (line : jsstring) :
  isPropertyLine line = true <-> exists key, matchKey line = Some key.
Proof.
  unfold isPropertyLine, test, matchKey.
  destruct (exec propertyLineRegex line) as [c|] eqn:E.
  - split; auto. intros _.
    destruct (exec_propertyLine_inv line E) as (ws & k & rest & _ & _ & _ & _ & G).
    now exists k.
  - split; [discriminate | intros [k ?]; discriminate].
Qed.

Lemma word_not_space (x : char) : isWord x = true -> isWhiteSpace x = false.
Proof.
  unfold isWord, isWhiteSpace, in_range.
  rewrite !orb_true_iff, !andb_true_iff, !N.leb_le, N.eqb_eq. intros H.
  repeat (apply orb_false_iff; split);
    rewrite ?andb_false_iff, ?N.leb_gt, ?N.eqb_neq; lia.
Qed.

(** The serialized form of an entry reads back as a property line with
    the same key. *)
Lemma matchKey_formatted (key sv : jsstring) :
  forallb isWord key = true -> key <> [] -> noLineTerminator sv = true ->
  matchKey (key ++ u ":: " ++ sv) = Some key.
Proof.
  intros Fk Nk Fs.
  assert (S : exec propertyLineRegex (key ++ u ":: " ++ sv) <> None).
  { unfold propertyLineRegex. rewrite exec_bol. cbn [app run].
    apply (@rep_complete isWhiteSpace true _ [] (key ++ u ":: " ++ sv) 0 0);
      [reflexivity | simpl; lia |].
    cbn [run length Nat.add].
    apply (@rep_complete isWord true _ key (u ":: " ++ sv) 1 0);
      [exact Fk | destruct key; [congruence | simpl; lia] |].
    cbn [run u list_ascii_of_string map app]. simpl N.eqb. cbv iota.
    apply (@rep_complete isWhiteSpace true _ [32%N] sv 1 _);
      [reflexivity | simpl; lia |].
    cbn [run].
    rewrite <- (app_nil_r sv) at 1.
    apply (@rep_complete isDot false _ sv [] 0 _); [exact Fs | lia |].
    cbn [run rep]. discriminate. }
  unfold matchKey.
  destruct (exec propertyLineRegex (key ++ u ":: " ++ sv)) as [c|] eqn:E; [|congruence].
  destruct (exec_propertyLine_inv _ E) as (ws & k & rest & L & W & K & N & G).
  rewrite G. f_equal.
  destruct ws as [|x ws].
  - simpl in L. clear -L Fk K.
    revert k L K. induction key as [|a key IH]; intros k L K.
    + destruct k as [|b k]; auto. simpl in L. injection L as <- _.
      simpl in K. discriminate.
    + simpl in Fk. apply andb_true_iff in Fk as [Fa Fk].
      destruct k as [|b k].
      * simpl in L. injection L as -> _. discriminate.
      * simpl in L. injection L as <- L. f_equal. apply IH; auto.
        simpl in K. now apply andb_true_iff in K as [_ K].
  - exfalso. destruct key as [|a key]; [congruence|].
    simpl in L. injection L as <- _.
    simpl in Fk, W. apply andb_true_iff in Fk as [Fa _].
    apply andb_true_iff in W as [Wa _].
    rewrite (word_not_space a Fa) in Wa. discriminate.
Qed.

(* ================================================================== *)
(** ** Lines *)
(* ================================================================== *)

Lemma split_noLF (s : jsstring) : noLF s = true -> split LF s = [s].
Proof.
  induction s as [|c s IH]; simpl; auto.
  rewrite andb_true_iff, negb_true_iff. intros [C F].
  now rewrite C, (IH F).
Qed.

Lemma split_app_LF (s rest : jsstring) :
  noLF s = true -> split LF (s ++ LF :: rest) = s :: split LF rest.
Proof.
  induction s as [|c s IH]; simpl.
  - reflexivity.
  - rewrite andb_true_iff, negb_true_iff. intros [C F].
    now rewrite C, (IH F).
Qed.

Lemma split_join (lines : list jsstring) :
  lines <> [] -> forallb noLF lines = true -> split LF (join [LF] lines) = lines.
Proof.
  induction lines as [|l lines IH]; [congruence|]. intros _ F.
  simpl in F. apply andb_true_iff in F as [Fl F].
  destruct lines as [|l' lines].
  - simpl. now apply split_noLF.
  - change (join [LF] (l :: l' :: lines)) with (l ++ LF :: join [LF] (l' :: lines)).
    rewrite (@split_app_LF l _ Fl), IH; auto. discriminate.
Qed.

Lemma noLineTerminator_noLF (s : jsstring) : noLineTerminator s = true -> noLF s = true.
Proof.
  unfold noLineTerminator, noLF. rewrite !forallb_forall. intros H c Hc.
  specialize (H c Hc). unfold isDot, isLineTerminator in H.
  apply negb_true_iff in H. apply orb_false_iff in H as [H _].
  apply orb_false_iff in H as [H _]. apply orb_false_iff in H as [H _].
  unfold LF. now rewrite H.
Qed.

Lemma word_noLF (s : jsstring) : forallb isWord s = true -> noLF s = true.
Proof.
  unfold noLF. rewrite !forallb_forall. intros H c Hc. specialize (H c Hc).
  apply negb_true_iff, N.eqb_neq. intros ->. discriminate.
Qed.

Lemma noLF_app (a b : jsstring) : noLF (a ++ b) = noLF a && noLF b.
Proof. apply forallb_app. Qed.

Lemma propertyRun_all (lines : list jsstring) :
  forallb isPropertyLine lines = true -> propertyRun lines = lines.
Proof.
  induction lines as [|l lines IH]; simpl; auto.
  rewrite andb_true_iff. intros [P F]. now rewrite P, IH.
Qed.

(** When every line is a property line the extractor reads them all. *)
Lemma scannedLines_all (lines : list jsstring) :
  lines <> [] -> forallb noLF lines = true -> forallb isPropertyLine lines = true ->
  scannedLines (join [LF] lines) = lines.
Proof.
  intros N F P. unfold scannedLines. rewrite (@split_join lines N F).
  assert (First : getFirstPropertyLine lines = 0%Z).
  { destruct lines as [|l lines]; [congruence|]. simpl in P.
    apply andb_true_iff in P as [Pl _].
    unfold getFirstPropertyLine. simpl. now rewrite Pl. }
  rewrite First. change 0%Z with (Z.of_nat 0).
  rewrite (@getLastPropertyLine_run lines 0) by lia.
  simpl skipn. rewrite (@propertyRun_all lines P). simpl. rewrite Nat.eqb_refl.
  replace (Z.of_nat (length lines) - 1 + 1)%Z with (Z.of_nat (length lines)) by lia.
  change 0%Z with (Z.of_nat 0). rewrite slice_prefix by lia. apply firstn_all.
Qed.

Lemma scannedLines_exact (text : jsstring) :
  scanIsExact (split LF text) = true ->
  scannedLines text = propertyLines (split LF text).
Proof.
  unfold scannedLines, scanIsExact, propertyLines.
  set (lines := split LF text).
  pose proof (getFirstPropertyLine_bounds lines) as B.
  set (first := Z.to_nat (getFirstPropertyLine lines)).
  assert (Ef : getFirstPropertyLine lines = Z.of_nat first) by (unfold first; lia).
  rewrite Ef. assert (Lf : first <= length lines) by lia.
  rewrite (@getLastPropertyLine_run lines first Lf).
  destruct (propertyRun_split (skipn first lines)) as (rest & E & _ & _).
  set (run := propertyRun (skipn first lines)) in *.
  pose proof (length_skipn first lines) as Ls.
  assert (Lr : length run + length rest = length lines - first).
  { rewrite <- Ls, E at 1. now rewrite length_app. }
  destruct (first + length run =? length lines)%nat eqn:R.
  - intros _. apply Nat.eqb_eq in R.
    replace (Z.of_nat (length lines) - 1 + 1)%Z with (Z.of_nat (length lines)) by lia.
    rewrite slice_nat, Nat.min_id, Nat.min_l by lia.
    assert (rest = []) as -> by (destruct rest; simpl in *; [reflexivity | lia]).
    rewrite app_nil_r in E. rewrite E at 1.
    rewrite <- Lr. simpl. rewrite Nat.add_0_r. apply firstn_all.
  - rewrite orb_false_r. intros Z0. apply Z.eqb_eq in Z0.
    assert (first = 0) as F0 by lia. rewrite F0 in *. simpl skipn in *.
    replace (Z.of_nat (length run) - 1 + 1)%Z with (Z.of_nat (length run)) by lia.
    rewrite slice_prefix by lia.
    rewrite E at 1. rewrite firstn_app, firstn_all, Nat.sub_diag. simpl.
    apply app_nil_r.
Qed.

(* ================================================================== *)
(** ** The extractor *)
(* ================================================================== *)

Lemma lookupAll_Some (props : obj) (ks : list jsstring) :
  lookupAll (Some props) ks = Some (map (entryOf props) ks).
Proof. induction ks as [|k ks IH]; simpl; auto. now rewrite IH. Qed.

Lemma lookupAll_None (ks : list jsstring) (es : list (jsstring * value)) :
  lookupAll None ks = Some es -> ks = [] /\ es = [].
Proof. destruct ks; simpl; [|discriminate]. intros E. injection E as <-. auto. Qed.

Lemma has_fold_set (k : jsstring) (es : list (jsstring * value)) :
  forall acc : obj,
    has k (fold_left (fun o kv => set (fst kv) (snd kv) o) es acc)
    = has k acc || memId k (map fst es).
Proof.
  induction es as [|[k0 v0] es IH]; intros acc; simpl.
  - now rewrite orb_false_r.
  - rewrite IH, has_set. simpl. rewrite (str_eqb_sym k k0).
    now destruct (str_eqb k0 k), (has k acc).
Qed.

Lemma get_fold_set_map (f : jsstring -> value) (k : jsstring) (ks : list jsstring) :
  forall acc : obj,
    get k (fold_left (fun o kv => set (fst kv) (snd kv) o)
                     (map (fun k' => (k', f k')) ks) acc)
    = if memId k ks then f k else get k acc.
Proof.
  induction ks as [|k0 ks IH]; intros acc; simpl; auto.
  rewrite IH, get_set. rewrite (str_eqb_sym k k0).
  destruct (memId k ks); simpl; [now rewrite orb_true_r|].
  rewrite orb_false_r. destruct (str_eqb k0 k) eqn:E; auto.
  apply str_eqb_eq in E. now subst.
Qed.

Lemma firstOccurrences_ext (l : list jsstring) :
  forall s1 s2 : list jsstring,
    (forall x, memId x s1 = memId x s2) ->
    firstOccurrences s1 l = firstOccurrences s2 l.
Proof.
  induction l as [|x l IH]; intros s1 s2 H; simpl; auto.
  change (existsb (str_eqb x) s1) with (memId x s1).
  change (existsb (str_eqb x) s2) with (memId x s2).
  rewrite (H x). destruct (memId x s2).
  - now apply IH.
  - f_equal. apply IH. intros y. unfold memId in *. simpl. now rewrite H.
Qed.

Lemma memId_keys (k : jsstring) (o : obj) : memId k (keys o) = has k o.
Proof.
  rewrite has_keys. unfold memId. induction (keys o) as [|k0 l IH]; simpl; auto.
  now rewrite IH, str_eqb_sym.
Qed.

Lemma keys_set_named (k : jsstring) (v : value) (o : obj) :
  notArrayIndex k = true ->
  keys (set k v o) = if has k o then keys o else keys o ++ [k].
Proof.
  unfold notArrayIndex, set. intros N. destruct (has k o).
  - apply keys_update.
  - destruct (arrayIndex k); [discriminate|]. unfold keys. now rewrite map_app.
Qed.

(** Without array-index keys the keys of the result are in the order of
    their first assignment. *)
Lemma keys_fold_set_named (es : list (jsstring * value)) :
  forall acc : obj,
    forallb notArrayIndex (map fst es) = true ->
    keys (fold_left (fun o kv => set (fst kv) (snd kv) o) es acc)
    = keys acc ++ firstOccurrences (keys acc) (map fst es).
Proof.
  induction es as [|[k0 v0] es IH]; intros acc N; simpl.
  - now rewrite app_nil_r.
  - simpl in N. apply andb_true_iff in N as [N0 N].
    rewrite (IH _ N), (@keys_set_named k0 v0 acc N0).
    change (existsb (str_eqb k0) (keys acc)) with (memId k0 (keys acc)).
    rewrite memId_keys. destruct (has k0 acc) eqn:H; auto.
    rewrite <- app_assoc. simpl. do 2 f_equal.
    apply firstOccurrences_ext. intros x. unfold memId.
    rewrite existsb_app. simpl. rewrite orb_false_r. apply orb_comm.
Qed.

Lemma map_fst_entryOf (props : obj) (ks : list jsstring) :
  map fst (map (entryOf props) ks) = ks.
Proof. induction ks as [|k ks IH]; simpl; auto. now rewrite IH. Qed.

(** What the extractor returns for a block with resolved properties, in
    terms of the raw keys of the lines it reads. *)
Lemma getProperties_of_keys (b : BlockEntity) (props : obj) :
  properties b = Some props ->
  let ks := filterMap matchKey (scannedLines (content b)) in
  getPropertiesFromBlockContent b = Some (fromEntries (map (entryOf props) ks)) /\
  (forall k, has k (fromEntries (map (entryOf props) ks)) = memId k ks) /\
  (forall k, In k ks ->
             get k (fromEntries (map (entryOf props) ks)) = read (formattedKey k) props) /\
  (forallb notArrayIndex ks = true ->
   keys (fromEntries (map (entryOf props) ks)) = firstOccurrences [] ks).
Proof.
  intros P ks. unfold getPropertiesFromBlockContent. fold ks.
  rewrite P, lookupAll_Some. split; [reflexivity|]. unfold fromEntries.
  split; [|split].
  - intros k. rewrite has_fold_set, map_fst_entryOf. reflexivity.
  - intros k Hk. unfold entryOf.
    rewrite (get_fold_set_map (fun k' => read (formattedKey k') props)).
    apply memId_In in Hk. now rewrite Hk.
  - intros N. rewrite keys_fold_set_named; rewrite map_fst_entryOf; auto.
Qed.

(** C8 as stated fails on keys that are array indices: in
    ["2:: x\n1:: y"] the keys appear in the order 2, 1 and the mapping
    enumerates them in the order 1, 2. *)
Lemma getProperties_enumerates_index_keys_first :
  let b := block (join [LF] [u "2:: x"; u "1:: y"]) [] in
  scanIsExact (split LF (content b)) = true /\
  filterMap matchKey (propertyLines (split LF (content b))) = [u "2"; u "1"] /\
  option_map keys (getPropertiesFromBlockContent b) = Some [u "1"; u "2"] /\
  option_map keys (getPropertiesFromBlockContent b)
  <> Some (filterMap matchKey (propertyLines (split LF (content b)))).
Proof. vm_compute. repeat split; try reflexivity. discriminate. Qed.

(* ================================================================== *)
(** ** Serializer and extractor *)
(* ================================================================== *)

Lemma In_update (kv : jsstring * value) (k : jsstring) (v : value) (o : obj) :
  In kv (update k v o) -> (fst kv = k /\ snd kv = v) \/ In kv o.
Proof.
  induction o as [|[k0 v0] o IH]; simpl; auto.
  destruct (str_eqb k0 k) eqn:E; simpl.
  - apply str_eqb_eq in E. subst. intros [<- | H]; auto.
  - intros [<- | H]; auto. destruct (IH H); auto.
Qed.

Lemma In_insertIndex (kv : jsstring * value) (n : N) (k : jsstring) (v : value) (o : obj) :
  In kv (insertIndex n k v o) -> kv = (k, v) \/ In kv o.
Proof.
  induction o as [|[k0 v0] o IH]; simpl.
  - intros [<- | []]. auto.
  - destruct (arrayIndex k0) as [n0|].
    + destruct (N.leb n0 n); simpl.
      * intros [<- | H]; auto. destruct (IH H); auto.
      * intros [<- | H]; auto.
    + simpl. intros [<- | H]; auto.
Qed.

Lemma In_set (kv : jsstring * value) (k : jsstring) (v : value) (o : obj) :
  In kv (set k v o) -> kv = (k, v) \/ In kv o.
Proof.
  unfold set. destruct (has k o).
  - intros H. destruct (In_update _ _ _ _ H) as [[E1 E2] | H']; auto.
    left. destruct kv. simpl in *. now subst.
  - destruct (arrayIndex k).
    + apply In_insertIndex.
    + intros H. apply in_app_or in H as [H | [<- | []]]; auto.
Qed.

Lemma In_fromEntries (kv : jsstring * value) (es : list (jsstring * value)) :
  In kv (fromEntries es) -> In kv es.
Proof.
  unfold fromEntries.
  assert (G : forall acc,
             In kv (fold_left (fun o kv => set (fst kv) (snd kv) o) es acc) ->
             In kv acc \/ In kv es).
  { induction es as [|[k0 v0] es IH]; intros acc; simpl; auto.
    intros H. destruct (IH _ H) as [H' | H']; auto.
    destruct (In_set _ _ _ _ H') as [-> | H'']; auto. }
  intros H. destruct (G [] H) as [[] | H']. exact H'.
Qed.

Lemma In_filterMap_matchKey (k : jsstring) (lines : list jsstring) :
  In k (filterMap matchKey lines) -> wordKey k = true.
Proof.
  induction lines as [|l lines IH]; simpl; [tauto|].
  destruct (matchKey l) as [k'|] eqn:M; auto.
  intros [<- | H]; auto.
  destruct (matchKey_inv _ M) as (ws & rest & _ & _ & W & N).
  unfold wordKey. rewrite W. now destruct k'.
Qed.

Lemma lineOf_reads_back (kv : jsstring * value) :
  wordKey (fst kv) = true -> noLineTerminator (toString (snd kv)) = true ->
  matchKey (lineOf kv) = Some (fst kv) /\ isPropertyLine (lineOf kv) = true /\
  noLF (lineOf kv) = true.
Proof.
  unfold wordKey. rewrite andb_true_iff, negb_true_iff. intros [W N] T.
  assert (M : matchKey (lineOf kv) = Some (fst kv)).
  { apply matchKey_formatted; auto. intros E. now rewrite E in N. }
  split; [exact M|]. split.
  - apply isPropertyLine_matchKey. eauto.
  - unfold lineOf. rewrite !noLF_app, (word_noLF _ W), (noLineTerminator_noLF _ T).
    reflexivity.
Qed.

Lemma filterMap_matchKey_lines (o : obj) :
  (forall kv, In kv o -> matchKey (lineOf kv) = Some (fst kv)) ->
  filterMap matchKey (map lineOf o) = keys o.
Proof.
  induction o as [|kv o IH]; simpl; auto. intros H.
  rewrite (H kv (or_introl eq_refl)). f_equal. apply IH. auto.
Qed.

Lemma map_entryOf_keys (props : obj) (o : obj) :
  (forall kv, In kv o -> snd kv = read (formattedKey (fst kv)) props) ->
  map (entryOf props) (keys o) = o.
Proof.
  induction o as [|[k v] o IH]; simpl; auto. intros H.
  pose proof (H (k, v) (or_introl eq_refl)) as Hv. simpl in Hv.
  unfold entryOf at 1. rewrite <- Hv.
  f_equal. apply IH. auto.
Qed.

(** The round trip through the serializer. *)
Lemma reextract (b : BlockEntity) (o : obj) :
  getPropertiesFromBlockContent b = Some o ->
  forallb (fun kv => noLineTerminator (toString (snd kv))) o = true ->
  getPropertiesFromBlockContent (withContent b (formatPropertiesString o)) = Some o.
Proof.
  unfold getPropertiesFromBlockContent at 1.
  set (ks := filterMap matchKey (scannedLines (content b))).
  destruct (lookupAll (properties b) ks) as [es|] eqn:L; [|discriminate].
  intros E T. injection E as <-.
  assert (Keys : forall kv, In kv (fromEntries es) -> wordKey (fst kv) = true).
  { intros kv H. apply In_fromEntries in H.
    apply (In_filterMap_matchKey (fst kv) (scannedLines (content b))).
    fold ks. destruct (properties b) as [props|].
    - rewrite lookupAll_Some in L. injection L as <-.
      apply in_map_iff in H as (k & <- & Hk). exact Hk.
    - apply lookupAll_None in L as [_ ->]. destruct H. }
  assert (Lines : forall kv, In kv (fromEntries es) ->
                             matchKey (lineOf kv) = Some (fst kv) /\
                             isPropertyLine (lineOf kv) = true /\
                             noLF (lineOf kv) = true).
  { intros kv H. apply lineOf_reads_back; auto.
    rewrite forallb_forall in T. exact (T kv H). }
  unfold getPropertiesFromBlockContent, withContent. simpl content. simpl properties.
  unfold formatPropertiesString, entries.
  change (fun kv : jsstring * value => fst kv ++ u ":: " ++ toString (snd kv))
    with lineOf.
  destruct (fromEntries es) as [|kv0 o'] eqn:O.
  - simpl join.
    change (scannedLines []) with (@nil jsstring). simpl.
    now destruct (properties b).
  - rewrite <- O in *.
    rewrite scannedLines_all.
    + rewrite filterMap_matchKey_lines by (intros kv H; apply (Lines kv H)).
      destruct (properties b) as [props|].
      * rewrite lookupAll_Some in L. injection L as <-.
        rewrite lookupAll_Some, map_entryOf_keys.
        -- f_equal. apply fromEntries_canonical, canonical_fromEntries.
        -- intros kv H. apply In_fromEntries in H.
           apply in_map_iff in H as (k & <- & _). reflexivity.
      * apply lookupAll_None in L as [_ ->]. discriminate.
    + rewrite O. discriminate.
    + rewrite forallb_forall. intros l H.
      apply in_map_iff in H as (kv & <- & H). apply (Lines kv H).
    + rewrite forallb_forall. intros l H.
      apply in_map_iff in H as (kv & <- & H). apply (Lines kv H).
Qed.

(** C9, as the code has it.  When the text form of no extracted value
    holds a line terminator (LF, CR, LS or PS - the characters the [.] of
    the property pattern refuses), serializing the extracted mapping and
    extracting again from that text, against the same resolved properties,
    gives the same mapping. *)
Theorem serialize_then_extract_is_identity :
  (forall (b : BlockEntity) (o : obj),
      getPropertiesFromBlockContent b = Some o ->
      forallb (fun kv => noLineTerminator (toString (snd kv))) o = true ->
      getPropertiesFromBlockContent (withContent b (formatPropertiesString o))
      = Some o) /\
  (let b := block (join [LF] [u "Title"; u "Foo:: 1"; u "tags:: a, b"])
                  [(u "foo", VNum 1); (u "tags", VArr [VStr (u "a"); VStr (u "b")])] in
   formatPropertiesString [(u "Foo", VNum 1); (u "tags", VArr [VStr (u "a"); VStr (u "b")])]
   = join [LF] [u "Foo:: 1"; u "tags:: a,b"] /\
   getPropertiesFromBlockContent b
   = Some [(u "Foo", VNum 1); (u "tags", VArr [VStr (u "a"); VStr (u "b")])]).
Proof.
  split; [exact reextract|]. vm_compute. split; reflexivity.
Qed.

Lemma serialize_then_extract_is_identity_witness :
  getPropertiesFromBlockContent
    (withContent
       (block (join [LF] [u "Title"; u "Foo:: 1"; u "tags:: a, b"])
              [(u "foo", VNum 1); (u "tags", VArr [VStr (u "a"); VStr (u "b")])])
       (formatPropertiesString
          [(u "Foo", VNum 1); (u "tags", VArr [VStr (u "a"); VStr (u "b")])]))
  = Some [(u "Foo", VNum 1); (u "tags", VArr [VStr (u "a"); VStr (u "b")])].
Proof.
  exact (proj1 serialize_then_extract_is_identity
               (block (join [LF] [u "Title"; u "Foo:: 1"; u "tags:: a, b"])
                      [(u "foo", VNum 1); (u "tags", VArr [VStr (u "a"); VStr (u "b")])])
               [(u "Foo", VNum 1); (u "tags", VArr [VStr (u "a"); VStr (u "b")])]
               eq_refl eq_refl).
Defined.

(** C9 as stated fails on a value with a carriage return: ["x\ry"] holds
    no newline character, its line ["a:: x\ry"] is no property line, and
    the second extraction returns the empty mapping. *)
Lemma serialize_then_extract_loses_carriage_return_value :
  let b := block (u "a:: 1") [(u "a", VStr [120; 13; 121]%N)] in
  let o := [(u "a", VStr [120; 13; 121]%N)] in
  getPropertiesFromBlockContent b = Some o /\
  forallb (fun kv => noLF (toString (snd kv))) o = true /\
  getPropertiesFromBlockContent (withContent b (formatPropertiesString o)) = Some [] /\
  getPropertiesFromBlockContent (withContent b (formatPropertiesString o)) <> Some o.
Proof. vm_compute. repeat split; try reflexivity. discriminate. Qed.

(* ================================================================== *)
(** ** The property move of [main] *)
(* ================================================================== *)

(** The calls of lines 40-54: the page block is rewritten, then the source
    block is rewritten with the lines [removeProperties] keeps, then the
    polls. *)
Lemma moveProperties_calls {Store : Type} (host : Host Store) (fuel : nat)
      (settings : Settings) (srcBlock pageBlock b : BlockEntity)
      (allLines : list jsstring) (w w' : World Store) :
  moveBlockPropertiesToPage settings = true ->
  moveProperties host fuel settings srcBlock (Some pageBlock) allLines w
  = Continues b w' ->
  exists pageText n,
    trace w' = trace w
               ++ [EUpdateBlock (uuid pageBlock) pageText;
                   EUpdateBlock (uuid srcBlock) (join [LF] (removeProperties allLines))]
               ++ concat (repeat [EGetBlock (uuid srcBlock); ESleep 50] n)
               ++ [EGetBlock (uuid srcBlock)].
Proof.
  intros S. unfold moveProperties. rewrite S.
  destruct (getPropertiesFromBlockContent srcBlock) as [blockProps|]; [|discriminate].
  destruct (getPropertiesFromBlockContent pageBlock) as [pageProps|]; [|discriminate].
  destruct (waitForRefs _ _ _ _ _) as [[b' w3]|] eqn:W; [|discriminate].
  intros E. injection E as <- <-.
  apply waitForRefs_accepted in W as (n & _ & _ & _ & _ & ->).
  eexists. exists n.
  rewrite trace_pollOnce, trace_worldAtPoll. simpl.
  rewrite <- !app_assoc. reflexivity.
Qed.

(* ================================================================== *)
(** ** The normalization of the keys *)
(* ================================================================== *)

Lemma execFrom_cls (p : char -> bool) (s : jsstring) :
  forall pre : jsstring,
    match execFrom [Cls p; Close 0] (length pre) s with
    | Some c =>
        exists a b,
          starts c 0 = Some a /\ stops c 0 = Some b /\
          firstn a (pre ++ s) ++ skipn b (pre ++ s) = pre ++ removeFirst p s
    | None => removeFirst p s = s
    end.
Proof.
  induction s as [|x s IH]; intros pre; simpl; auto.
  destruct (p x) eqn:Px.
  - exists (length pre), (S (length pre)).
    split; [reflexivity|]. split; [reflexivity|].
    rewrite firstn_app, firstn_all, Nat.sub_diag. simpl firstn. rewrite app_nil_r.
    f_equal. replace (S (length pre)) with (length (pre ++ [x])).
    + replace (pre ++ x :: s) with ((pre ++ [x]) ++ s) by (now rewrite <- app_assoc).
      now rewrite skipn_app, skipn_all, Nat.sub_diag.
    + rewrite length_app. simpl. lia.
  - specialize (IH (pre ++ [x])). rewrite length_app in IH. simpl in IH.
    rewrite Nat.add_1_r in IH.
    destruct (execFrom [Cls p; Close 0] (S (length pre)) s) as [c|].
    + destruct IH as (a & b & Sa & Sb & E). exists a, b.
      rewrite <- !app_assoc in E. simpl in E. auto.
    + now rewrite IH.
Qed.

(** [replace] with the pattern [[^a-z]] removes the first character that
    is no lower-case letter, and only that one. *)
Lemma formattedKey_removeFirst (key : jsstring) :
  formattedKey key = removeFirst notLowerLetter (toLowerCase key).
Proof.
  unfold formattedKey, replace, exec. simpl app.
  pose proof (execFrom_cls notLowerLetter (toLowerCase key) []) as H.
  simpl in H. destruct (execFrom _ 0 (toLowerCase key)) as [c|].
  - destruct H as (a & b & -> & -> & E). exact E.
  - now rewrite H.
Qed.

(** C2.  The normalized key is the lower-cased key without its first
    character that is no letter [a-z]: the pattern of [replace] has no [g]
    flag, so the later ones stay.  The key [a_b_c] (it matches [[\w]+]) is
    normalized to [ab_c], where the letters of the key alone are [abc]. *)
Theorem formattedKey_removes_first_non_letter_only :
  (forall key, formattedKey key = removeFirst notLowerLetter (toLowerCase key)) /\
  matchKey (u "a_b_c:: 1") = Some (u "a_b_c") /\
  formattedKey (u "a_b_c") = u "ab_c" /\
  filter isLowerLetter (toLowerCase (u "a_b_c")) = u "abc" /\
  formattedKey (u "a_b_c") <> filter isLowerLetter (toLowerCase (u "a_b_c")).
Proof.
  split; [exact formattedKey_removeFirst|].
  vm_compute. repeat split; try reflexivity; discriminate.
Qed.

(** C10.  [removeProperties] keeps exactly the lines before the first
    property line: the kept lines hold no property line, and what is
    dropped is empty or begins with a property line and runs to the end of
    the list, text after an interruption of the property run included.
    [main] rewrites the source block with the kept lines joined by
    newlines, so that text is deleted from the block. *)
Theorem removeProperties_keeps_prefix_before_first_property :
  (forall lines : list jsstring,
      exists dropped,
        lines = removeProperties lines ++ dropped /\
        forallb notProperty (removeProperties lines) = true /\
        (dropped = [] \/
         exists l rest, dropped = l :: rest /\ isPropertyLine l = true)) /\
  removeProperties [u "Title"; u "a:: 1"; []; u "tail text"; u "b:: 2"]
  = [u "Title"] /\
  (forall (Store : Type) (host : Host Store) (fuel : nat) (settings : Settings)
          (srcBlock pageBlock b : BlockEntity) (allLines : list jsstring)
          (w w' : World Store),
      moveBlockPropertiesToPage settings = true ->
      moveProperties host fuel settings srcBlock (Some pageBlock) allLines w
      = Continues b w' ->
      In (EUpdateBlock (uuid srcBlock) (join [LF] (removeProperties allLines)))
         (trace w')).
Proof.
  split; [|split; [vm_compute; reflexivity|]].
  - intros lines. rewrite removeProperties_firstn.
    destruct (getFirstPropertyLine_split lines)
      as (pre & post & -> & -> & Hpre & Hpost).
    rewrite Nat2Z.id, firstn_app, firstn_all, Nat.sub_diag. simpl.
    rewrite app_nil_r. exists post. auto.
  - intros Store host fuel settings srcBlock pageBlock b allLines w w' S E.
    destruct (@moveProperties_calls Store host fuel settings srcBlock pageBlock b
                                    allLines w w' S E) as (pageText & n & ->).
    apply in_or_app. right. simpl. auto.
Qed.

Lemma removeProperties_keeps_prefix_before_first_property_witness :
  In (EUpdateBlock (u "src") (u "Title"))
     [EUpdateBlock (u "page") []; EUpdateBlock (u "src") (u "Title");
      EGetBlock (u "src"); ESleep 50; EGetBlock (u "src")].
Proof.
  exact (proj2 (proj2 removeProperties_keeps_prefix_before_first_property)
               (list (list N)) scriptedHost 5
               {| allowWithoutChildren := false; redirectToPage := false;
                  createFirstBlock := true; moveBlockPropertiesToPage := true;
                  createPageTags := false |}
               (mkBlock (u "src")
                        (join [LF] [u "Title"; u "a:: 1"; []; u "tail text"])
                        [] (Some [(u "a", VNum 1)]) [u "a"] [7; 8]%N false)
               (mkBlock (u "page") [] [] None [] [] true)
               (mkBlock (u "src") [] [] (Some [(u "a", VNum 1)]) [] [8]%N false)
               [u "Title"; u "a:: 1"; []; u "tail text"]
               {| store := [[7; 8]; [8]]%N; trace := [] |}
               {| store := [[8]]%N;
                  trace := [EUpdateBlock (u "page") [];
                            EUpdateBlock (u "src") (u "Title");
                            EGetBlock (u "src"); ESleep 50; EGetBlock (u "src")] |}
               eq_refl eq_refl).
Defined.

(* ================================================================== *)
(** ** Further properties: the property line pattern *)
(* ================================================================== *)

(** A run of characters of a class, ended by a character outside it, is
    found in one way only. *)
Lemma classRun_unique (p : char -> bool) (a a' : jsstring) :
  forall (x x' : char) (r r' : jsstring),
    forallb p a = true -> forallb p a' = true ->
    p x = false -> p x' = false ->
    a ++ x :: r = a' ++ x' :: r' ->
    a = a' /\ x :: r = x' :: r'.
Proof.
  revert a'. induction a as [|c a IH]; intros a' x x' r r' Fa Fa' Px Px' E.
  - destruct a' as [|c' a']; simpl in *; auto.
    injection E as -> _. apply andb_true_iff in Fa' as [Fc _]. congruence.
  - destruct a' as [|c' a']; simpl in *.
    + injection E as -> _. apply andb_true_iff in Fa as [Fc _]. congruence.
    + injection E as -> E.
      apply andb_true_iff in Fa as [_ Fa]. apply andb_true_iff in Fa' as [_ Fa'].
      destruct (IH a' x x' r r' Fa Fa' Px Px' E) as [-> E']. auto.
Qed.

(** The whole of a match of the property pattern. *)
Lemma exec_propertyLine_shape (line : jsstring) (c : captures) :
  exec propertyLineRegex line = Some c ->
  exists ws key gap text trail,
    line = ws ++ key ++ u "::" ++ gap ++ text ++ trail /\
    forallb isWhiteSpace ws = true /\
    forallb isWord key = true /\ key <> [] /\
    forallb isWhiteSpace gap = true /\ gap <> [] /\
    noLineTerminator text = true /\
    forallb isWhiteSpace trail = true.
Proof.
  unfold propertyLineRegex. rewrite exec_bol. cbn [app]. intros E.
  cbn [run] in E.
  apply rep_inv in E as (ws & s1 & -> & Fws & _ & E). cbv beta in E.
  apply rep_inv in E as (key & s2 & -> & Fkey & Lkey & E). cbv beta in E.
  destruct s2 as [|x1 s2]; [discriminate|].
  destruct (N.eqb x1 58) eqn:X1; [|discriminate]. apply N.eqb_eq in X1. subst x1.
  destruct s2 as [|x2 s2]; [discriminate|].
  destruct (N.eqb x2 58) eqn:X2; [|discriminate]. apply N.eqb_eq in X2. subst x2.
  apply rep_inv in E as (gap & s3 & -> & Fgap & Lgap & E). cbv beta in E.
  apply rep_inv in E as (text & s4 & -> & Ftext & _ & E). cbv beta in E.
  apply rep_inv in E as (trail & s5 & -> & Ftrail & _ & E). cbv beta in E.
  destruct s5; [|discriminate].
  exists ws, key, gap, text, trail. rewrite app_nil_r.
  repeat split; auto.
  - intros ->. simpl in Lkey. lia.
  - intros ->. simpl in Lgap. lia.
Qed.

Lemma exec_propertyLine_complete (ws key gap text trail : jsstring) :
  forallb isWhiteSpace ws = true ->
  forallb isWord key = true -> key <> [] ->
  forallb isWhiteSpace gap = true -> gap <> [] ->
  noLineTerminator text = true ->
  forallb isWhiteSpace trail = true ->
  exec propertyLineRegex (ws ++ key ++ u "::" ++ gap ++ text ++ trail) <> None.
Proof.
  intros Fws Fkey Nkey Fgap Ngap Ftext Ftrail.
  unfold propertyLineRegex. rewrite exec_bol. cbn [app run].
  apply (@rep_complete isWhiteSpace true _ ws _ 0 0); [exact Fws | lia |].
  apply (@rep_complete isWord true _ key _ 1 _);
    [exact Fkey | destruct key; [congruence | simpl; lia] |].
  cbn [u list_ascii_of_string map app]. simpl N.eqb. cbv iota.
  apply (@rep_complete isWhiteSpace true _ gap _ 1 _);
    [exact Fgap | destruct gap; [congruence | simpl; lia] |].
  apply (@rep_complete isDot false _ text _ 0 _); [exact Ftext | lia |].
  rewrite <- (app_nil_r trail).
  apply (@rep_complete isWhiteSpace false _ trail [] 0 _); [exact Ftrail | lia |].
  discriminate.
Qed.

(** The key of a line of the shape of a property line. *)
Lemma matchKey_shape (ws key rest : jsstring) :
  forallb isWhiteSpace ws = true ->
  forallb isWord key = true -> key <> [] ->
  exec propertyLineRegex (ws ++ key ++ u "::" ++ rest) <> None ->
  matchKey (ws ++ key ++ u "::" ++ rest) = Some key.
Proof.
  intros Fws Fkey Nkey S. unfold matchKey.
  destruct (exec propertyLineRegex (ws ++ key ++ u "::" ++ rest)) as [c|] eqn:E;
    [|congruence].
  destruct (exec_propertyLine_inv _ E) as (ws' & key' & rest' & L & W' & K' & N' & G).
  rewrite G. f_equal.
  destruct key as [|k0 key]; [congruence|]. destruct key' as [|k0' key']; [congruence|].
  simpl in Fkey, K'.
  apply andb_true_iff in Fkey as [Fk0 Fkey]. apply andb_true_iff in K' as [Fk0' K'].
  assert (P1 : ws = ws' /\ k0 :: (key ++ u "::" ++ rest)
                          = k0' :: (key' ++ 58%N :: 58%N :: rest')).
  { apply (@classRun_unique isWhiteSpace); auto using word_not_space. }
  destruct P1 as [_ P1]. injection P1 as <- P1.
  assert (P2 : key = key' /\ 58%N :: (58%N :: rest) = 58%N :: (58%N :: rest')).
  { apply (@classRun_unique isWord); auto. }
  destruct P2 as [-> _]. reflexivity.
Qed.

(** X1.  A line is a property line exactly when it consists of white
    space, a key of one or more word characters, [::], at least one
    white-space character, a text without line terminator and white space;
    the key of the match is that run of word characters, without the
    white space before it. *)
Theorem isPropertyLine_shape :
  (forall line : jsstring,
      isPropertyLine line = true ->
      exists ws key gap text trail,
        line = ws ++ key ++ u "::" ++ gap ++ text ++ trail /\
        forallb isWhiteSpace ws = true /\
        forallb isWord key = true /\ key <> [] /\
        forallb isWhiteSpace gap = true /\ gap <> [] /\
        noLineTerminator text = true /\
        forallb isWhiteSpace trail = true /\
        matchKey line = Some key) /\
  (forall ws key gap text trail : jsstring,
      forallb isWhiteSpace ws = true ->
      forallb isWord key = true -> key <> [] ->
      forallb isWhiteSpace gap = true -> gap <> [] ->
      noLineTerminator text = true ->
      forallb isWhiteSpace trail = true ->
      isPropertyLine (ws ++ key ++ u "::" ++ gap ++ text ++ trail) = true /\
      matchKey (ws ++ key ++ u "::" ++ gap ++ text ++ trail) = Some key).
Proof.
  split.
  - intros line P. unfold isPropertyLine, test in P.
    destruct (exec propertyLineRegex line) as [c|] eqn:E; [|discriminate].
    destruct (exec_propertyLine_shape _ E)
      as (ws & key & gap & text & trail & L & Fws & Fkey & Nkey & Fgap & Ngap & Ft & Ftr).
    exists ws, key, gap, text, trail. repeat split; auto.
    rewrite L. apply matchKey_shape; auto. rewrite <- L, E. discriminate.
  - intros ws key gap text trail Fws Fkey Nkey Fgap Ngap Ft Ftr.
    pose proof (@exec_propertyLine_complete ws key gap text trail
                                             Fws Fkey Nkey Fgap Ngap Ft Ftr) as S.
    split.
    + unfold isPropertyLine, test.
      destruct (exec propertyLineRegex _); [reflexivity | congruence].
    + apply matchKey_shape; auto.
Qed.

Lemma isPropertyLine_shape_witness :
  isPropertyLine (u "  " ++ u "fix_issue" ++ u "::" ++ u " " ++ u "[[bug 12]]" ++ u " ") = true /\
  matchKey (u "  " ++ u "fix_issue" ++ u "::" ++ u " " ++ u "[[bug 12]]" ++ u " ")
  = Some (u "fix_issue").
Proof.
  apply (proj2 isPropertyLine_shape (u "  ") (u "fix_issue") (u " ") (u "[[bug 12]]") (u " "));
    try reflexivity; discriminate.
Defined.

(* ================================================================== *)
(** ** Further properties: the scanner *)
(* ================================================================== *)

Lemma getFirstPropertyLine_none (lines : list jsstring) :
  getFirstPropertyLine lines = Z.of_nat (length lines)
  <-> forallb notProperty lines = true.
Proof.
  destruct (getFirstPropertyLine_split lines) as (pre & post & -> & E & Hpre & Hpost).
  rewrite E, length_app, forallb_app, Hpre. simpl. split.
  - intros L. destruct Hpost as [-> | (l & rest & -> & _)]; [reflexivity|].
    simpl in L. lia.
  - intros F. destruct Hpost as [-> | (l & rest & -> & P)].
    + simpl. lia.
    + simpl in F. unfold notProperty in F. rewrite P in F. discriminate.
Qed.

(** X2.  [getFirstPropertyLine] answers the index of the first property
    line - no line before it is one - and the length of the list exactly
    when the list has no property line. *)
Theorem getFirstPropertyLine_first_match :
  forall lines : list jsstring,
    (exists pre post,
        lines = pre ++ post /\
        getFirstPropertyLine lines = Z.of_nat (length pre) /\
        forallb notProperty pre = true /\
        (post = [] \/ exists l rest, post = l :: rest /\ isPropertyLine l = true)) /\
    (getFirstPropertyLine lines = Z.of_nat (length lines)
     <-> forallb notProperty lines = true).
Proof.
  intros lines. split; [apply getFirstPropertyLine_split|].
  apply getFirstPropertyLine_none.
Qed.

(** X3.  With its default argument, [getLastPropertyLine] answers the
    last index of the list when the property run that begins at the first
    property line reaches the end of the list (also when there is no
    property line), and otherwise the length of that run less one - an
    index of the list only when the run begins at line 0. *)
Theorem getLastPropertyLine_default_value :
  forall lines : list jsstring,
    getLastPropertyLine_default lines
    = if (Z.to_nat (getFirstPropertyLine lines) + length (propertyLines lines)
          =? length lines)%nat
      then (Z.of_nat (length lines) - 1)%Z
      else (Z.of_nat (length (propertyLines lines)) - 1)%Z.
Proof.
  intros lines. unfold getLastPropertyLine_default, propertyLines.
  pose proof (getFirstPropertyLine_bounds lines) as B.
  rewrite <- (Z2Nat.id (getFirstPropertyLine lines)) at 1 by lia.
  apply getLastPropertyLine_run. lia.
Qed.

(** The lines the extractor reads begin the property run. *)
Lemma scannedLines_prefix (text : jsstring) :
  exists rest, propertyLines (split LF text) = scannedLines text ++ rest.
Proof.
  unfold scannedLines, propertyLines.
  set (lines := split LF text).
  pose proof (getFirstPropertyLine_bounds lines) as B.
  set (first := Z.to_nat (getFirstPropertyLine lines)).
  assert (Ef : getFirstPropertyLine lines = Z.of_nat first) by (unfold first; lia).
  rewrite Ef. assert (Lf : first <= length lines) by lia.
  rewrite (@getLastPropertyLine_run lines first Lf).
  destruct (propertyRun_split (skipn first lines)) as (rest & E & _ & _).
  set (run := propertyRun (skipn first lines)) in *.
  pose proof (length_skipn first lines) as Ls.
  assert (Lr : length run + length rest = length lines - first).
  { rewrite <- Ls, E at 1. now rewrite length_app. }
  destruct (first + length run =? length lines)%nat eqn:R.
  - apply Nat.eqb_eq in R.
    replace (Z.of_nat (length lines) - 1 + 1)%Z with (Z.of_nat (length lines)) by lia.
    rewrite slice_nat, Nat.min_id, Nat.min_l by lia.
    assert (rest = []) as -> by (destruct rest; simpl in *; [reflexivity | lia]).
    rewrite app_nil_r in E. exists []. rewrite app_nil_r.
    rewrite <- Ls. symmetry. rewrite firstn_all. exact E.
  - replace (Z.of_nat (length run) - 1 + 1)%Z with (Z.of_nat (length run)) by lia.
    rewrite slice_nat. rewrite (Nat.min_l first) by lia.
    set (k := Nat.min (length run) (length lines) - first).
    assert (Hk : k <= length run) by (unfold k; lia).
    assert (X : firstn k (skipn first lines) = firstn k run).
    { rewrite E, firstn_app. replace (k - length run) with 0 by lia.
      simpl. apply app_nil_r. }
    rewrite X. exists (skipn k run). symmetry. apply firstn_skipn.
Qed.

Lemma scannedLines_in_property_run (text : jsstring) :
  (exists rest, propertyLines (split LF text) = scannedLines text ++ rest) /\
  forallb isPropertyLine (scannedLines text) = true.
Proof.
  destruct (scannedLines_prefix text) as (rest & E).
  split; [now exists rest|].
  unfold propertyLines in E.
  destruct (propertyRun_split (skipn (Z.to_nat (getFirstPropertyLine (split LF text)))
                                     (split LF text))) as (r & _ & F & _).
  rewrite E, forallb_app in F. now apply andb_true_iff in F as [F _].
Qed.

(** X4.  The lines the extractor reads are the first lines of the
    property run that begins at the first property line: all of them are
    property lines, and no line behind the first interruption is read. *)
Theorem scannedLines_begin_property_run :
  forall text : jsstring,
    (exists rest, propertyLines (split LF text) = scannedLines text ++ rest) /\
    forallb isPropertyLine (scannedLines text) = true.
Proof. exact scannedLines_in_property_run. Qed.

(** X5.  [removeProperties] is idempotent, and it returns its argument
    exactly when no line is a property line. *)
Theorem removeProperties_idempotent :
  forall lines : list jsstring,
    removeProperties (removeProperties lines) = removeProperties lines /\
    (removeProperties lines = lines <-> forallb notProperty lines = true).
Proof.
  intros lines.
  assert (Fix : forall l, forallb notProperty l = true -> removeProperties l = l).
  { intros l F. rewrite removeProperties_firstn.
    apply getFirstPropertyLine_none in F.
    rewrite F, Nat2Z.id. apply firstn_all. }
  assert (Kept : forallb notProperty (removeProperties lines) = true).
  { rewrite removeProperties_firstn.
    destruct (getFirstPropertyLine_split lines) as (pre & post & -> & -> & Hpre & _).
    now rewrite Nat2Z.id, firstn_app, firstn_all, Nat.sub_diag, app_nil_r. }
  split; [now apply Fix|]. split; [|apply Fix].
  intros E. now rewrite <- E.
Qed.

(* ================================================================== *)
(** ** Further properties: the extractor *)
(* ================================================================== *)

Lemma filterMap_matchKey_length (lines : list jsstring) :
  forallb isPropertyLine lines = true ->
  length (filterMap matchKey lines) = length lines.
Proof.
  induction lines as [|l lines IH]; simpl; auto.
  rewrite andb_true_iff. intros [P F].
  apply isPropertyLine_matchKey in P as [k ->]. simpl. now rewrite IH.
Qed.

Lemma scannedKeys_nil (text : jsstring) :
  filterMap matchKey (scannedLines text) = [] <-> scannedLines text = [].
Proof.
  pose proof (@filterMap_matchKey_length (scannedLines text)
                (proj2 (scannedLines_in_property_run text))) as L.
  split; intros E.
  - rewrite E in L. destruct (scannedLines text); [reflexivity | discriminate].
  - now rewrite E.
Qed.

Lemma scannedLines_none (text : jsstring) :
  forallb notProperty (split LF text) = true -> scannedLines text = [].
Proof.
  intros F. destruct (scannedLines_prefix text) as (rest & E).
  unfold propertyLines in E. apply getFirstPropertyLine_none in F.
  rewrite F, Nat2Z.id, skipn_all in E. simpl in E.
  destruct (scannedLines text); [reflexivity | discriminate].
Qed.

(** X6.  The extractor fails (the TypeError of reading a key of an absent
    [properties]) exactly when the block has no [properties] and a line is
    scanned; on a text without property line it returns the empty mapping,
    with or without [properties]. *)
Theorem getProperties_fails_only_without_properties :
  forall b : BlockEntity,
    (getPropertiesFromBlockContent b = None
     <-> properties b = None /\ scannedLines (content b) <> []) /\
    (forallb notProperty (split LF (content b)) = true ->
     getPropertiesFromBlockContent b = Some []).
Proof.
  intros b. unfold getPropertiesFromBlockContent. split.
  - rewrite <- scannedKeys_nil.
    destruct (properties b) as [props|].
    + rewrite lookupAll_Some. split; [discriminate | intros [? _]; discriminate].
    + destruct (filterMap matchKey (scannedLines (content b))); simpl.
      * split; [discriminate | intros [_ N]; congruence].
      * split; auto. intros _. split; [reflexivity | discriminate].
  - intros F. rewrite (scannedLines_none _ F). simpl.
    now destruct (properties b).
Qed.

Lemma getProperties_fails_only_without_properties_witness :
  getPropertiesFromBlockContent
    (mkBlock (u "b") (join [LF] [u "Title"; u "no property here"]) [] None [] [] false)
  = Some [].
Proof.
  exact (proj2 (getProperties_fails_only_without_properties
                  (mkBlock (u "b") (join [LF] [u "Title"; u "no property here"])
                           [] None [] [] false))
               eq_refl).
Defined.

Lemma length_update (k : jsstring) (v : value) (o : obj) :
  length (update k v o) = length o.
Proof.
  induction o as [|[k0 v0] o IH]; simpl; auto.
  destruct (str_eqb k0 k); simpl; auto.
Qed.

Lemma length_insertIndex (n : N) (k : jsstring) (v : value) (o : obj) :
  length (insertIndex n k v o) = S (length o).
Proof.
  induction o as [|[k0 v0] o IH]; simpl; auto.
  destruct (arrayIndex k0) as [n0|]; simpl; auto.
  destruct (N.leb n0 n); simpl; auto.
Qed.

Lemma length_set (k : jsstring) (v : value) (o : obj) :
  length (set k v o) = if has k o then length o else S (length o).
Proof.
  unfold set. destruct (has k o).
  - apply length_update.
  - destruct (arrayIndex k).
    + apply length_insertIndex.
    + rewrite length_app. simpl. lia.
Qed.

Lemma length_fromEntries (es : list (jsstring * value)) :
  length (fromEntries es) <= length es.
Proof.
  unfold fromEntries.
  assert (G : forall acc,
             length (fold_left (fun o kv => set (fst kv) (snd kv) o) es acc)
             <= length acc + length es).
  { induction es as [|kv es IH]; intros acc; simpl; [lia|].
    specialize (IH (set (fst kv) (snd kv) acc)). rewrite length_set in IH.
    destruct (has (fst kv) acc); lia. }
  apply (G []).
Qed.

(** X7.  What the extractor returns is an object (no key twice, keys in
    enumeration order) whose keys are non-empty runs of word characters,
    namely keys of scanned lines, and it has at most one entry per scanned
    line. *)
Theorem getProperties_result_invariants :
  forall (b : BlockEntity) (o : obj),
    getPropertiesFromBlockContent b = Some o ->
    canonical o = true /\
    (forall k, has k o = true ->
               wordKey k = true /\
               In k (filterMap matchKey (scannedLines (content b)))) /\
    length o <= length (scannedLines (content b)).
Proof.
  intros b o. unfold getPropertiesFromBlockContent.
  set (ks := filterMap matchKey (scannedLines (content b))).
  destruct (lookupAll (properties b) ks) as [es|] eqn:L; [|discriminate].
  intros E. injection E as <-.
  assert (Es : map fst es = ks).
  { destruct (properties b) as [props|].
    - rewrite lookupAll_Some in L. injection L as <-. apply map_fst_entryOf.
    - apply lookupAll_None in L as [-> ->]. reflexivity. }
  split; [apply canonical_fromEntries|]. split.
  - intros k H. unfold fromEntries in H. rewrite has_fold_set, Es in H.
    simpl in H. apply memId_In in H. split; auto.
    apply (In_filterMap_matchKey _ _ H).
  - etransitivity; [apply length_fromEntries|].
    rewrite <- (length_map fst), Es. unfold ks.
    rewrite filterMap_matchKey_length; auto.
    apply scannedLines_in_property_run.
Qed.

Lemma getProperties_result_invariants_witness :
  canonical [(u "Foo", VNum 1); (u "bar", VUndef)] = true /\
  (forall k, has k [(u "Foo", VNum 1); (u "bar", VUndef)] = true ->
             wordKey k = true /\ In k [u "Foo"; u "bar"; u "Foo"]) /\
  2 <= 3.
Proof.
  exact (getProperties_result_invariants
           (block (join [LF] [u "Foo:: a"; u "bar:: b"; u "Foo:: c"]) [(u "foo", VNum 1)])
           eq_refl).
Defined.

(* ================================================================== *)
(** ** Further properties: the normalized key *)
(* ================================================================== *)

Lemma removeFirst_none (p : char -> bool) (s : jsstring) :
  forallb (fun c => negb (p c)) s = true -> removeFirst p s = s.
Proof.
  induction s as [|c s IH]; simpl; auto.
  rewrite andb_true_iff, negb_true_iff. intros [C F]. now rewrite C, IH.
Qed.

Lemma removeFirst_filter (p : char -> bool) (s : jsstring) :
  length (filter p s) <= 1 -> removeFirst p s = filter (fun c => negb (p c)) s.
Proof.
  induction s as [|c s IH]; simpl; auto.
  destruct (p c) eqn:C; simpl; intros L.
  - assert (F : forallb (fun c => negb (p c)) s = true).
    { apply forallb_forall. intros x Hx. apply negb_true_iff.
      destruct (p x) eqn:Px; auto. exfalso.
      assert (In x (filter p s)) as I by (apply filter_In; auto).
      destruct (filter p s); [destruct I | simpl in L; lia]. }
    clear -F. induction s as [|x s IH]; simpl in *; auto.
    apply andb_true_iff in F as [Fx F]. rewrite Fx. f_equal. auto.
  - f_equal. auto.
Qed.

Lemma removeFirst_length (p : char -> bool) (s : jsstring) :
  length s <= S (length (removeFirst p s)) /\ length (removeFirst p s) <= length s.
Proof.
  induction s as [|c s IH]; simpl; [lia|].
  destruct (p c); simpl; lia.
Qed.

Lemma lowerChar_idempotent (c : char) : lowerChar (lowerChar c) = lowerChar c.
Proof.
  unfold lowerChar, in_range.
  destruct (N.leb 65 c && N.leb c 90) eqn:E; [|now rewrite E].
  apply andb_true_iff in E as [A B]. apply N.leb_le in A, B.
  replace (N.leb (c + 32) 90) with false by (symmetry; apply N.leb_gt; lia).
  now rewrite andb_false_r.
Qed.

Lemma lowerChar_lower (c : char) : isLowerLetter c = true -> lowerChar c = c.
Proof.
  unfold lowerChar, isLowerLetter, in_range. rewrite andb_true_iff, !N.leb_le.
  intros [A B].
  replace (N.leb c 90) with false by (symmetry; apply N.leb_gt; lia).
  now rewrite andb_false_r.
Qed.

(** X8.  The normalized key: a key of letters [a-z] is kept; the case of
    the key does not matter; the result is at most one character shorter
    than the key; and it is the lower-cased key without its non-letters
    exactly as long as the key has at most one character outside
    [A-Za-z]. *)
Theorem formattedKey_properties :
  (forall key, forallb isLowerLetter key = true -> formattedKey key = key) /\
  (forall key, formattedKey (toLowerCase key) = formattedKey key) /\
  (forall key, length key <= S (length (formattedKey key)) /\
               length (formattedKey key) <= length key) /\
  (forall key,
      length (filter notLowerLetter (toLowerCase key)) <= 1 ->
      formattedKey key = filter isLowerLetter (toLowerCase key)).
Proof.
  split; [|split; [|split]].
  - intros key F. rewrite formattedKey_removeFirst.
    assert (L : toLowerCase key = key).
    { unfold toLowerCase. rewrite forallb_forall in F.
      rewrite <- (map_id key) at 2. apply map_ext_in.
      intros c Hc. apply lowerChar_lower. auto. }
    rewrite L. apply removeFirst_none.
    rewrite forallb_forall in *. intros c Hc. unfold notLowerLetter.
    now rewrite (F c Hc).
  - intros key. rewrite !formattedKey_removeFirst. f_equal.
    unfold toLowerCase. rewrite map_map. apply map_ext.
    apply lowerChar_idempotent.
  - intros key. rewrite formattedKey_removeFirst.
    pose proof (removeFirst_length notLowerLetter (toLowerCase key)) as L.
    unfold toLowerCase in *. rewrite length_map in L. exact L.
  - intros key L. rewrite formattedKey_removeFirst, removeFirst_filter by exact L.
    apply filter_ext. intros c. unfold notLowerLetter. apply negb_involutive.
Qed.

Lemma formattedKey_properties_witness :
  formattedKey (u "Fix_Issue") = filter isLowerLetter (toLowerCase (u "Fix_Issue")).
Proof.
  apply (proj2 (proj2 (proj2 formattedKey_properties)) (u "Fix_Issue")).
  vm_compute. apply le_n.
Defined.

(* ================================================================== *)
(** ** Further properties: the deep merge and the serializer *)
(* ================================================================== *)

Lemma canonical_fold_mergeStep (source target : obj) :
  canonical target = true -> canonical (fold_left mergeStep source target) = true.
Proof.
  revert target. induction source as [|kv source IH]; simpl; auto.
  intros target C. apply IH. unfold mergeStep. now apply canonical_put.
Qed.

Lemma has_fold_mergeStep_kept (k : jsstring) (source target : obj) :
  has k target = true -> has k (fold_left mergeStep source target) = true.
Proof.
  revert target. induction source as [|kv source IH]; simpl; auto.
  intros target H. apply IH. unfold mergeStep. now rewrite has_put, H.
Qed.

Lemma mergeObjects_cons (target source : obj) (args : list (option obj)) :
  mergeObjects target (Some source :: args)
  = mergeObjects (fold_left mergeStep source target) args.
Proof.
  change (mergeObjects (mergeInto (VObj source) target) args
          = mergeObjects (fold_left mergeStep source target) args).
  now rewrite mergeInto_fold.
Qed.

(** X9.  [mergeObjects] never removes a key of its target, whatever the
    sources are, and it keeps the target an object: no key twice, keys in
    enumeration order. *)
Theorem mergeObjects_keeps_keys :
  forall (sources : list (option obj)) (target : obj),
    (forall k, has k target = true -> has k (mergeObjects target sources) = true) /\
    (canonical target = true -> canonical (mergeObjects target sources) = true).
Proof.
  induction sources as [|[source|] sources IH]; intros target.
  - simpl. auto.
  - rewrite mergeObjects_cons.
    destruct (IH (fold_left mergeStep source target)) as [K C]. split.
    + intros k H. apply K. now apply has_fold_mergeStep_kept.
    + intros Ct. apply C. now apply canonical_fold_mergeStep.
  - simpl. auto.
Qed.

Lemma mergeObjects_keeps_keys_witness :
  canonical (mergeObjects [(u "1", VNum 1); (u "a", VNum 2)]
                          [Some [(u "b", VNum 3); (u "0", VNum 4)]; None]) = true.
Proof.
  exact (proj2 (mergeObjects_keeps_keys
                  [Some [(u "b", VNum 3); (u "0", VNum 4)]; None]
                  [(u "1", VNum 1); (u "a", VNum 2)])
               eq_refl).
Defined.

(** X10.  Merging an object that has no key [__proto__] into the empty
    object copies it, also where a key is the name of a function every
    object inherits, and an empty source changes nothing; hence the
    [mergeObjects(mergeObjects({}, pageProps), blockProps)] of [main] is
    the merge of the block's mapping into the page's when the page's has
    no key [__proto__]. *)
Theorem mergeObjects_into_empty :
  (forall source : obj,
      canonical source = true -> has (u "__proto__") source = false ->
      mergeObjects [] [Some source] = source) /\
  (forall target : obj, mergeObjects target [Some []] = target) /\
  (forall pageProps blockProps : obj,
      canonical pageProps = true -> has (u "__proto__") pageProps = false ->
      mergeObjects (mergeObjects [] [Some pageProps]) [Some blockProps]
      = mergeObjects pageProps [Some blockProps]).
Proof.
  assert (Copy : forall source : obj,
             canonical source = true -> has (u "__proto__") source = false ->
             mergeObjects [] [Some source] = source).
  { intros source C P.
    change (mergeInto (VObj source) [] = source). now apply mergeInto_empty. }
  split; [exact Copy|]. split; [reflexivity|].
  intros pageProps blockProps C P. now rewrite (Copy pageProps C P).
Qed.

Lemma mergeObjects_into_empty_witness :
  mergeObjects [] [Some [(u "2", VNum 1); (u "constructor", VStr (u "c"));
                         (u "tags", VArr [VStr (u "a")])]]
  = [(u "2", VNum 1); (u "constructor", VStr (u "c"));
     (u "tags", VArr [VStr (u "a")])].
Proof.
  exact (proj1 mergeObjects_into_empty
               [(u "2", VNum 1); (u "constructor", VStr (u "c"));
                (u "tags", VArr [VStr (u "a")])] eq_refl eq_refl).
Defined.

(** X11.  An absent source ends the merge: the sources behind it are not
    merged. *)
Theorem mergeObjects_stops_at_absent_source :
  forall (before_ : list obj) (behind : list (option obj)) (target : obj),
    mergeObjects target (map Some before_ ++ None :: behind)
    = mergeObjects target (map Some before_).
Proof.
  induction before_ as [|s before_ IH]; intros behind target; simpl; auto.
Qed.

Lemma noLF_lineOf (kv : jsstring * value) :
  noLF (fst kv) = true -> noLF (toString (snd kv)) = true -> noLF (lineOf kv) = true.
Proof. intros K V. unfold lineOf. now rewrite !noLF_app, K, V. Qed.

(** X12.  The serializer writes one line per entry, in the order of the
    entries, when no key and no text form of a value holds a newline: the
    lines of its result are the [key:: value] lines of the entries.  The
    empty mapping gives the empty text, which is one empty line. *)
Theorem formatPropertiesString_lines :
  (forall props : obj,
      props <> [] ->
      forallb (fun kv => noLF (fst kv) && noLF (toString (snd kv))) props = true ->
      split LF (formatPropertiesString props) = map lineOf props) /\
  formatPropertiesString [] = [] /\
  split LF (formatPropertiesString []) = [[]].
Proof.
  split; [|split; reflexivity].
  intros props N F. unfold formatPropertiesString, entries.
  change (fun kv : jsstring * value => fst kv ++ u ":: " ++ toString (snd kv))
    with lineOf.
  apply split_join.
  - destruct props; [congruence | discriminate].
  - rewrite forallb_forall in *. intros l Hl.
    apply in_map_iff in Hl as (kv & <- & Hkv).
    specialize (F kv Hkv). apply andb_true_iff in F as [K V].
    now apply noLF_lineOf.
Qed.

Lemma formatPropertiesString_lines_witness :
  split LF (formatPropertiesString
              [(u "Foo", VNum 1); (u "tags", VArr [VStr (u "a"); VNull; VStr (u "b")])])
  = [u "Foo:: 1"; u "tags:: a,,b"].
Proof.
  apply (proj1 formatPropertiesString_lines
               [(u "Foo", VNum 1); (u "tags", VArr [VStr (u "a"); VNull; VStr (u "b")])]).
  - discriminate.
  - reflexivity.
Defined.

(* ================================================================== *)
(** ** Further properties: trees of blocks *)
(* ================================================================== *)

(** Induction on a block with the hypothesis for all its children. *)
Lemma BlockEntity_tree_ind (P : BlockEntity -> Prop) :
  (forall b, Forall P (children b) -> P b) -> forall b, P b.
Proof.
  intros H.
  exact (fix F (b : BlockEntity) : P b :=
           match b with
           | mkBlock id text kids props order rs pre =>
               H (mkBlock id text kids props order rs pre)
                 ((fix G (l : list BlockEntity) : Forall P l :=
                     match l with
                     | [] => Forall_nil P
                     | x :: l' => Forall_cons x (F x) (G l')
                     end) kids)
           end).
Qed.

Lemma existsb_flat_map {A B} (p : B -> bool) (f : A -> list B) (l : list A) :
  existsb p (flat_map f l) = existsb (fun x => existsb p (f x)) l.
Proof. induction l as [|x l IH]; simpl; auto. now rewrite existsb_app, IH. Qed.

Lemma mayBeReferencedBlock_subtree (b : BlockEntity) :
  mayBeReferencedBlock b = existsb (fun x => hasProperty x (u "id")) (subtree b).
Proof.
  induction b as [b IH] using BlockEntity_tree_ind.
  destruct b as [id text kids props order rs pre]. simpl children in IH.
  cbn [mayBeReferencedBlock subtree existsb].
  destruct (hasProperty _ _); [reflexivity|]. simpl.
  rewrite existsb_flat_map.
  induction IH as [|x l Hx Hl IHl]; simpl; auto. now rewrite Hx, IHl.
Qed.

(** X13.  [mayBeReferenced] answers whether some block of the forest -
    one of the blocks or a block anywhere below one - has an [id]
    property, where a property whose value is [undefined] and a block
    without [properties] do not count.  [hasProperty] asks what the
    object answers for the key; for [id], which no object inherits, that
    is the property of the object itself. *)
Theorem mayBeReferenced_some_block_has_id :
  (forall blocks : list BlockEntity,
      mayBeReferenced blocks
      = existsb (fun b => hasProperty b (u "id")) (flat_map subtree blocks)) /\
  (forall (b : BlockEntity) (key : jsstring),
      hasProperty b key = true
      <-> exists props, properties b = Some props /\ read key props <> VUndef) /\
  (forall b : BlockEntity,
      hasProperty b (u "id") = true
      <-> exists props, properties b = Some props /\ get (u "id") props <> VUndef).
Proof.
  assert (G : forall (b : BlockEntity) (key : jsstring),
             hasProperty b key = true
             <-> exists props, properties b = Some props /\ read key props <> VUndef).
  { intros b key. unfold hasProperty. destruct (properties b) as [props|].
    + split.
      * intros H. exists props. split; auto. intros E. now rewrite E in H.
      * intros (p & E & N). injection E as <-. now destruct (read key props).
    + split; [discriminate | intros (p & E & _); discriminate]. }
  split; [|split; [exact G|]].
  - intros blocks. unfold mayBeReferenced. rewrite existsb_flat_map.
    induction blocks as [|b blocks IH]; simpl; auto.
    now rewrite mayBeReferencedBlock_subtree, IH.
  - intros b. rewrite G.
    assert (R : forall props, read (u "id") props = get (u "id") props).
    { intros props. unfold read. destruct (has (u "id") props) eqn:H; auto.
      now rewrite (has_false_get _ _ H). }
    split; intros (props & E & N); exists props; split; auto;
      [now rewrite <- R | now rewrite R].
Qed.

Lemma toBatchBlock_children (b : BlockEntity) :
  batchKids (toBatchBlock b) = map toBatchBlock (children b).
Proof. destruct b as [id text [|k kids] props order rs pre]; reflexivity. Qed.

Lemma toBatchBlock_noEmptyChildren (b : BlockEntity) :
  noEmptyChildren (toBatchBlock b) = true.
Proof.
  induction b as [b IH] using BlockEntity_tree_ind.
  destruct b as [id text kids props order rs pre]. simpl children in IH.
  destruct kids as [|k kids]; [reflexivity|].
  cbn [toBatchBlock noEmptyChildren map].
  change (forallb noEmptyChildren (map toBatchBlock (k :: kids)) = true).
  induction IH as [|x l Hx Hl IHl]; simpl; auto. now rewrite Hx, IHl.
Qed.

Lemma toBatchBlock_subtree (b : BlockEntity) :
  batchSubtree (toBatchBlock b) = map toBatchBlock (subtree b).
Proof.
  induction b as [b IH] using BlockEntity_tree_ind.
  destruct b as [id text kids props order rs pre]. simpl children in IH.
  assert (K : flat_map batchSubtree (map toBatchBlock kids)
              = map toBatchBlock (flat_map subtree kids)).
  { induction IH as [|x l Hx Hl IHl]; simpl; auto.
    now rewrite map_app, Hx, IHl. }
  destruct kids as [|k kids]; [reflexivity|].
  cbn [toBatchBlock batchSubtree subtree map].
  f_equal. exact K.
Qed.

(** X14.  [toBatchBlocks] keeps the shape of the forest and, block by
    block, the content and the properties; it never makes a [children]
    that is an empty array (a block without children gets [undefined]). *)
Theorem toBatchBlocks_keeps_forest :
  forall blocks : list BlockEntity,
    length (toBatchBlocks blocks) = length blocks /\
    forallb noEmptyChildren (toBatchBlocks blocks) = true /\
    flat_map batchSubtree (toBatchBlocks blocks)
    = map toBatchBlock (flat_map subtree blocks) /\
    (forall b, batchContent (toBatchBlock b) = content b /\
               batchProperties (toBatchBlock b) = properties b /\
               batchKids (toBatchBlock b) = toBatchBlocks (children b) /\
               (batchChildren (toBatchBlock b) = None <-> children b = [])).
Proof.
  intros blocks. unfold toBatchBlocks. split; [apply length_map|]. split; [|split].
  - induction blocks as [|b blocks IH]; simpl; auto.
    now rewrite toBatchBlock_noEmptyChildren, IH.
  - induction blocks as [|b blocks IH]; simpl; auto.
    now rewrite map_app, toBatchBlock_subtree, IH.
  - intros b. split; [now destruct b|]. split; [now destruct b|].
    split; [apply toBatchBlock_children|].
    destruct b as [id text [|k kids] props order rs pre]; simpl; split;
      auto; discriminate.
Qed.

(* ================================================================== *)
(** ** The calls of a part of [main] follow the calls made before *)
(* ================================================================== *)

Section Frames.
Context {Store : Type} (host : Host Store).
Implicit Types (w : World Store) (t : list event).

Lemma behind_nil w : behind [] w = w.
Proof. now destruct w. Qed.

Lemma behind_emit t e w : emit e (behind t w) = behind t (emit e w).
Proof. unfold emit, behind. simpl. now rewrite app_assoc. Qed.

Lemma behind_onStore t (f : Store -> Store) w :
  onStore f (behind t w) = behind t (onStore f w).
Proof. reflexivity. Qed.

Lemma behind_ask {A} t (f : Store -> A * Store) w :
  ask f (behind t w) = (fst (ask f w), behind t (snd (ask f w))).
Proof. unfold ask, behind. simpl. now destruct (f (store w)). Qed.

Lemma ask_eta {A} (f : Store -> A * Store) w :
  ask f w = (fst (ask f w), snd (ask f w)).
Proof. now destruct (ask f w). Qed.

Lemma waitForRefs_behind t (srcBlock : BlockEntity) (propsCount : Z) (fuel : nat) :
  forall w,
    waitForRefs host fuel srcBlock propsCount (behind t w)
    = match waitForRefs host fuel srcBlock propsCount w with
      | Some (b, w') => Some (b, behind t w')
      | None => None
      end.
Proof.
  induction fuel as [|fuel IH]; intros w; [reflexivity|].
  cbn [waitForRefs]. rewrite behind_emit, behind_ask.
  rewrite (ask_eta (getBlock host (uuid srcBlock)) (emit (EGetBlock (uuid srcBlock)) w)).
  cbn [fst snd].
  destruct (observedRefs _ <=? _)%Z; [reflexivity|].
  now rewrite behind_emit, behind_onStore, IH.
Qed.

Lemma moveChildren_behind t (children : list BlockEntity) :
  forall (cursor : jsstring) w,
    moveChildren host children cursor (behind t w)
    = (fst (moveChildren host children cursor w),
       behind t (snd (moveChildren host children cursor w))).
Proof.
  induction children as [|c children IH]; intros cursor w; [reflexivity|].
  cbn [moveChildren]. rewrite behind_emit, behind_ask.
  rewrite (ask_eta (moveBlock host (uuid c) cursor siblingAfter)
                   (emit (EMoveBlock (uuid c) cursor siblingAfter) w)).
  cbn [fst snd].
  destruct (fst (ask _ _)).
  - apply IH.
  - cbn [fst snd]. now rewrite !behind_emit.
Qed.

Lemma getPages_behind t (ids : list N) :
  forall w,
    getPages host ids (behind t w)
    = (fst (getPages host ids w), behind t (snd (getPages host ids w))).
Proof.
  induction ids as [|id ids IH]; intros w; [reflexivity|].
  cbn [getPages]. rewrite behind_emit, behind_ask.
  rewrite (ask_eta (getPageById host id) (emit (EGetPageById id) w)).
  rewrite IH. now destruct (getPages host ids _).
Qed.

Lemma getLastBlock_behind t (pageName : jsstring) w :
  getLastBlock host pageName (behind t w)
  = (fst (getLastBlock host pageName w), behind t (snd (getLastBlock host pageName w))).
Proof.
  unfold getLastBlock. rewrite behind_emit, behind_ask.
  now rewrite (ask_eta (getPageBlocksTree host pageName)
                       (emit (EGetPageBlocksTree pageName) w)).
Qed.

Lemma targetBlockOf_behind t (pageName : jsstring) w :
  targetBlockOf host pageName (behind t w)
  = (fst (targetBlockOf host pageName w), behind t (snd (targetBlockOf host pageName w))).
Proof.
  unfold targetBlockOf. rewrite getLastBlock_behind.
  destruct (getLastBlock host pageName w) as [[b|] w1]; cbn [fst snd]; [reflexivity|].
  rewrite behind_emit, behind_ask.
  now rewrite (ask_eta (appendBlockInPage host pageName [])
                       (emit (EAppendBlockInPage pageName []) w1)).
Qed.

Lemma moveProperties_behind t (fuel : nat) (settings : Settings)
      (srcBlock : BlockEntity) (pageBlock : option BlockEntity)
      (allLines : list jsstring) w :
  moveProperties host fuel settings srcBlock pageBlock allLines (behind t w)
  = outcomeBehind t (moveProperties host fuel settings srcBlock pageBlock allLines w).
Proof.
  unfold moveProperties.
  destruct (moveBlockPropertiesToPage settings); [|reflexivity].
  destruct pageBlock as [pageBlock|]; [|reflexivity].
  destruct (getPropertiesFromBlockContent srcBlock) as [blockProps|]; [|reflexivity].
  destruct (getPropertiesFromBlockContent pageBlock) as [pageProps|]; [|reflexivity].
  rewrite !behind_emit, !behind_onStore, !behind_emit, !behind_onStore.
  rewrite waitForRefs_behind.
  now destruct (waitForRefs _ _ _ _ _) as [[b w3]|].
Qed.

Lemma afterMoves_behind t (settings : Settings) (srcBlock targetBlock : BlockEntity)
      (pageBlock : option BlockEntity) (pageName newBlockContent : jsstring) w :
  afterMoves host settings srcBlock targetBlock pageBlock pageName newBlockContent
             (behind t w)
  = outcomeBehind t
      (afterMoves host settings srcBlock targetBlock pageBlock pageName
                  newBlockContent w).
Proof.
  unfold afterMoves.
  set (w1 := match content targetBlock with
             | [] => onStore (removeBlock host (uuid targetBlock))
                             (emit (ERemoveBlock (uuid targetBlock)) w)
             | _ :: _ => w
             end).
  assert (E1 : match content targetBlock with
               | [] => onStore (removeBlock host (uuid targetBlock))
                               (emit (ERemoveBlock (uuid targetBlock)) (behind t w))
               | _ :: _ => behind t w
               end = behind t w1).
  { unfold w1. destruct (content targetBlock); [|reflexivity].
    now rewrite behind_emit, behind_onStore. }
  rewrite E1. clearbody w1.
  assert (Tail : forall w4,
    (let w5 := match newBlockContent with
               | [] => behind t w4
               | _ :: _ =>
                   onStore (updateBlock host (uuid srcBlock) newBlockContent)
                           (emit (EUpdateBlock (uuid srcBlock) newBlockContent)
                                 (behind t w4))
               end in
     let w6 := onStore (exitEditingMode host true) (emit (EExitEditingMode true) w5) in
     let w7 := if match properties srcBlock with
                  | Some p => truthy (read (u "collapsed") p)
                  | None => false
                  end
               then onStore (removeBlockProperty host (uuid srcBlock) (u "collapsed"))
                            (emit (ERemoveBlockProperty (uuid srcBlock) (u "collapsed")) w6)
               else w6 in
     let w8 := if redirectToPage settings
               then emit (EPushState (u "page") pageName) w7 else w7 in
     @Returned Store unit w8)
    = outcomeBehind t
        (let w5 := match newBlockContent with
                   | [] => w4
                   | _ :: _ =>
                       onStore (updateBlock host (uuid srcBlock) newBlockContent)
                               (emit (EUpdateBlock (uuid srcBlock) newBlockContent) w4)
                   end in
         let w6 := onStore (exitEditingMode host true) (emit (EExitEditingMode true) w5) in
         let w7 := if match properties srcBlock with
                      | Some p => truthy (read (u "collapsed") p)
                      | None => false
                      end
                   then onStore (removeBlockProperty host (uuid srcBlock) (u "collapsed"))
                                (emit (ERemoveBlockProperty (uuid srcBlock) (u "collapsed")) w6)
                   else w6 in
         let w8 := if redirectToPage settings
                   then emit (EPushState (u "page") pageName) w7 else w7 in
         Returned w8)).
  { intros w4. cbv zeta.
    destruct newBlockContent;
      destruct (match properties srcBlock with
                | Some p => truthy (read (u "collapsed") p)
                | None => false
                end);
      destruct (redirectToPage settings); cbn [outcomeBehind];
      rewrite ?behind_emit, ?behind_onStore, ?behind_emit, ?behind_onStore,
        ?behind_emit, ?behind_onStore, ?behind_emit; reflexivity. }
  destruct (createPageTags settings); [|apply Tail].
  destruct pageBlock as [pageBlock|]; [|apply Tail].
  rewrite behind_emit, behind_ask.
  rewrite (ask_eta (getPageByName host pageName) (emit (EGetPageByName pageName) w1)).
  rewrite getPages_behind.
  destruct (getPages host (refs srcBlock) _) as [ps w3]. cbn [fst snd].
  destruct (pageNames ps) as [names|]; [|reflexivity].
  rewrite behind_emit, behind_onStore. apply Tail.
Qed.

Lemma relocate_behind t (settings : Settings) (srcBlock : BlockEntity)
      (pageBlock : option BlockEntity) (pageName newBlockContent : jsstring) w :
  relocate host settings srcBlock pageBlock pageName newBlockContent (behind t w)
  = outcomeBehind t
      (relocate host settings srcBlock pageBlock pageName newBlockContent w).
Proof.
  unfold relocate. rewrite targetBlockOf_behind.
  destruct (targetBlockOf host pageName w) as [[target|] w2]; cbn [fst snd];
    [|reflexivity].
  rewrite moveChildren_behind.
  destruct (moveChildren host (children srcBlock) (uuid target) w2) as [[cursor|] w3];
    cbn [fst snd]; [|reflexivity].
  apply afterMoves_behind.
Qed.

End Frames.

(* ================================================================== *)
(** ** Further properties: the waiter and the property move *)
(* ================================================================== *)




(** X18.  The property move is rejected exactly when it is switched on,
    there is a page block and the extractor fails on the source block or
    on the page block; it is rejected before any call is made.  Switched
    off or without page block it does nothing. *)
Theorem moveProperties_rejected_before_any_call :
  forall (Store : Type) (host : Host Store) (fuel : nat) (settings : Settings)
         (srcBlock : BlockEntity) (pageBlock : option BlockEntity)
         (allLines : list jsstring) (w : World Store),
    (forall w',
        moveProperties host fuel settings srcBlock pageBlock allLines w = Rejected w'
        <-> w' = w /\ moveBlockPropertiesToPage settings = true /\
            exists pb, pageBlock = Some pb /\
                       (getPropertiesFromBlockContent srcBlock = None \/
                        getPropertiesFromBlockContent pb = None)) /\
    (moveBlockPropertiesToPage settings = false \/ pageBlock = None ->
     moveProperties host fuel settings srcBlock pageBlock allLines w
     = Continues srcBlock w).
Proof.
  intros Store host fuel settings srcBlock pageBlock allLines w.
  unfold moveProperties. split.
  - intros w'. destruct (moveBlockPropertiesToPage settings).
    + destruct pageBlock as [pb|].
      * destruct (getPropertiesFromBlockContent srcBlock) as [bp|] eqn:Eb.
        -- destruct (getPropertiesFromBlockContent pb) as [pp|] eqn:Ep.
           ++ split.
              ** destruct (waitForRefs _ _ _ _ _) as [[b w3]|]; discriminate.
              ** intros (_ & _ & pb' & E & [H | H]); [discriminate|].
                 injection E as <-. congruence.
           ++ split.
              ** intros E. injection E as <-. repeat split; auto.
                 exists pb. auto.
              ** intros (-> & _). reflexivity.
        -- split.
           ++ intros E. injection E as <-. repeat split; auto. exists pb. auto.
           ++ intros (-> & _). reflexivity.
      * split; [discriminate | intros (_ & _ & pb & E & _); discriminate].
    + split; [discriminate | intros (_ & E & _); discriminate].
  - intros [-> | ->]; [reflexivity|].
    now destruct (moveBlockPropertiesToPage settings).
Qed.

Lemma moveProperties_rejected_before_any_call_witness :
  moveProperties scriptedHost 3
                 {| allowWithoutChildren := true; redirectToPage := false;
                    createFirstBlock := true; moveBlockPropertiesToPage := true;
                    createPageTags := false |}
                 (scriptedBlock (u "src") []) None [u "Title"]
                 {| store := []; trace := [] |}
  = Continues (scriptedBlock (u "src") []) {| store := []; trace := [] |}.
Proof.
  apply (proj2 (@moveProperties_rejected_before_any_call (list (list N)) scriptedHost 3
                  {| allowWithoutChildren := true; redirectToPage := false;
                     createFirstBlock := true; moveBlockPropertiesToPage := true;
                     createPageTags := false |}
                  (scriptedBlock (u "src") []) None [u "Title"]
                  {| store := []; trace := [] |})).
  right. reflexivity.
Defined.

(* ================================================================== *)
(** ** Further properties: the end of [main] *)
(* ================================================================== *)

Lemma firstOccurrences_In (l : list jsstring) :
  forall (seen : list jsstring) (x : jsstring),
    In x (firstOccurrences seen l) <-> In x l /\ ~ In x seen.
Proof.
  induction l as [|y l IH]; intros seen x; simpl; [tauto|].
  change (existsb (str_eqb y) seen) with (memId y seen).
  destruct (memId y seen) eqn:M.
  - apply memId_In in M. rewrite IH. split.
    + intros [H N]. auto.
    + intros [[<- | H] N]; [contradiction | auto].
  - apply memId_notIn in M. simpl. rewrite IH. simpl. split.
    + intros [<- | [H N]]; auto.
    + intros [[<- | H] N]; auto.
      destruct (list_eq_dec N.eq_dec y x) as [<- | D]; auto.
      right. split; auto. intros [E | E]; auto.
Qed.

Lemma firstOccurrences_NoDup (l : list jsstring) :
  forall seen : list jsstring, NoDup (firstOccurrences seen l).
Proof.
  induction l as [|y l IH]; intros seen; simpl; [constructor|].
  destruct (existsb (str_eqb y) seen); auto.
  constructor; auto. rewrite firstOccurrences_In. intros [_ N]. apply N. now left.
Qed.

Lemma firstOccurrences_fixed (l : list jsstring) :
  forall seen : list jsstring,
    NoDup l -> (forall x, In x l -> ~ In x seen) -> firstOccurrences seen l = l.
Proof.
  induction l as [|y l IH]; intros seen D S; simpl; auto.
  inversion D as [|? ? Ny D']; subst.
  change (existsb (str_eqb y) seen) with (memId y seen).
  replace (memId y seen) with false
    by (symmetry; apply memId_notIn, S; now left).
  f_equal. apply IH; auto.
  intros x Hx [<- | H]; [contradiction|]. apply (S x); auto. now right.
Qed.

Lemma firstOccurrences_app (a b : list jsstring) :
  forall seen : list jsstring,
    firstOccurrences seen (a ++ b)
    = firstOccurrences seen a
      ++ firstOccurrences (firstOccurrences seen a ++ seen) b.
Proof.
  induction a as [|y a IH]; intros seen; simpl; [reflexivity|].
  change (existsb (str_eqb y) seen) with (memId y seen).
  destruct (memId y seen) eqn:M.
  - apply IH.
  - simpl. f_equal. rewrite IH. f_equal.
    apply firstOccurrences_ext. intros x. unfold memId. simpl.
    rewrite !existsb_app. simpl.
    destruct (str_eqb x y), (existsb (str_eqb x) (firstOccurrences (y :: seen) a)),
      (existsb (str_eqb x) seen); reflexivity.
Qed.

(** X19.  The filter on the tags keeps each name once, at its first
    place: the result has no name twice, has the names of the argument
    and no other, is the argument when that has no name twice, and a
    name stands in the result behind the names that come before its
    first occurrence, and behind no other. *)
Theorem firstOccurrences_dedupes :
  forall l : list jsstring,
    NoDup (firstOccurrences [] l) /\
    (forall x, In x (firstOccurrences [] l) <-> In x l) /\
    (NoDup l -> firstOccurrences [] l = l) /\
    (forall (pre post : list jsstring) (x : jsstring),
        l = pre ++ x :: post -> ~ In x pre ->
        exists post',
          firstOccurrences [] l = firstOccurrences [] pre ++ x :: post').
Proof.
  intros l. split; [apply firstOccurrences_NoDup|]. split; [|split].
  - intros x. rewrite firstOccurrences_In. simpl. tauto.
  - intros D. apply firstOccurrences_fixed; auto.
  - intros pre post x -> N. rewrite firstOccurrences_app. simpl.
    change (existsb (str_eqb x) (firstOccurrences [] pre ++ []))
      with (memId x (firstOccurrences [] pre ++ [])).
    replace (memId x (firstOccurrences [] pre ++ [])) with false.
    + eexists. reflexivity.
    + symmetry. apply memId_notIn. rewrite app_nil_r, firstOccurrences_In. tauto.
Qed.

Lemma firstOccurrences_dedupes_witness :
  exists post',
    firstOccurrences [] [u "a"; u "b"; u "a"; u "c"; u "b"]
    = firstOccurrences [] [u "a"; u "b"; u "a"] ++ u "c" :: post'.
Proof.
  apply (proj2 (proj2 (proj2
           (firstOccurrences_dedupes [u "a"; u "b"; u "a"; u "c"; u "b"])))
           [u "a"; u "b"; u "a"] [u "b"] (u "c") eq_refl).
  simpl. intuition discriminate.
Defined.

Section EndOfMain.
Context {Store : Type} (host : Host Store).

Lemma trace_ask {A} (f : Store -> A * Store) (w : World Store) :
  trace (snd (ask f w)) = trace w.
Proof. unfold ask. now destruct (f (store w)). Qed.

Lemma trace_getPages (ids : list N) :
  forall w : World Store,
    trace (snd (getPages host ids w)) = trace w ++ map EGetPageById ids.
Proof.
  induction ids as [|id ids IH]; intros w; simpl.
  - now rewrite app_nil_r.
  - rewrite (ask_eta (getPageById host id) (emit (EGetPageById id) w)).
    specialize (IH (snd (ask (getPageById host id) (emit (EGetPageById id) w)))).
    destruct (getPages host ids _) as [ps w2]. simpl in *.
    rewrite IH, trace_ask. simpl. now rewrite <- app_assoc.
Qed.

Lemma filter_removesOrMoves_getPages (ids : list N) :
  filter removesOrMoves (map EGetPageById ids) = [].
Proof. induction ids; simpl; auto. Qed.

(** [afterMoves], with its parts named. *)
Lemma afterMoves_parts (settings : Settings) (srcBlock targetBlock : BlockEntity)
      (pageBlock : option BlockEntity) (pageName newBlockContent : jsstring)
      (w : World Store) :
  afterMoves host settings srcBlock targetBlock pageBlock pageName newBlockContent w
  = let w1 := dropEmptyAnchor host targetBlock w in
    match createPageTags settings, pageBlock with
    | true, Some pageBlock =>
        let w2 := snd (ask (getPageByName host pageName)
                           (emit (EGetPageByName pageName) w1)) in
        let page := fst (ask (getPageByName host pageName)
                             (emit (EGetPageByName pageName) w1)) in
        let pageProps :=
          match page with
          | Some pg => match pageProperties pg with Some o => o | None => [] end
          | None => []
          end in
        let w3 := snd (getPages host (refs srcBlock) w2) in
        match pageNames (fst (getPages host (refs srcBlock) w2)) with
        | None => Rejected w3
        | Some names =>
            let propsString :=
              formatPropertiesString
                (mergeObjects [] [Some pageProps;
                                  Some [(u "tags",
                                         VArr (map VStr (firstOccurrences [] names)))]]) in
            Returned
              (finishMain host settings srcBlock pageName newBlockContent
                 (onStore (updateBlock host (uuid pageBlock) propsString)
                          (emit (EUpdateBlock (uuid pageBlock) propsString) w3)))
        end
    | _, _ =>
        Returned (finishMain host settings srcBlock pageName newBlockContent w1)
    end.
Proof.
  unfold afterMoves, finishMain, dropEmptyAnchor. cbv zeta.
  destruct (createPageTags settings); [|reflexivity].
  destruct pageBlock as [pageBlock|]; [|reflexivity].
  rewrite (ask_eta (getPageByName host pageName) _).
  destruct (getPages host (refs srcBlock) _) as [ps w3]. cbn [fst snd].
  now destruct (pageNames ps).
Qed.

Lemma filter_finishMain (settings : Settings) (srcBlock : BlockEntity)
      (pageName newBlockContent : jsstring) (w4 : World Store) :
  filter removesOrMoves
         (trace (finishMain host settings srcBlock pageName newBlockContent w4))
  = filter removesOrMoves (trace w4).
Proof.
  unfold finishMain. cbv zeta.
  destruct newBlockContent;
    destruct (match properties srcBlock with
              | Some p => truthy (read (u "collapsed") p)
              | None => false
              end);
    destruct (redirectToPage settings); simpl;
    rewrite ?filter_app; simpl; rewrite ?app_nil_r; reflexivity.
Qed.

Lemma filter_dropEmptyAnchor (targetBlock : BlockEntity) (w : World Store) :
  filter removesOrMoves (trace (dropEmptyAnchor host targetBlock w))
  = filter removesOrMoves (trace w)
    ++ match content targetBlock with
       | [] => [ERemoveBlock (uuid targetBlock)]
       | _ :: _ => []
       end.
Proof.
  unfold dropEmptyAnchor. destruct (content targetBlock); simpl.
  - now rewrite filter_app.
  - now rewrite app_nil_r.
Qed.

Lemma pageNames_missing (ps : list (option PageEntity)) :
  match pageNames ps with
  | None => missingPage ps = true
  | Some _ => missingPage ps = false
  end.
Proof.
  induction ps as [|[p|] ps IH]; simpl; auto.
  now destruct (pageNames ps).
Qed.

(** How [afterMoves] ends, and the blocks it removes or moves. *)
Lemma afterMoves_end (settings : Settings) (srcBlock targetBlock : BlockEntity)
      (pageBlock : option BlockEntity) (pageName newBlockContent : jsstring)
      (w : World Store) :
  let w2 := snd (ask (getPageByName host pageName)
                     (emit (EGetPageByName pageName)
                           (dropEmptyAnchor host targetBlock w))) in
  let found := fst (getPages host (refs srcBlock) w2) in
  exists w',
    afterMoves host settings srcBlock targetBlock pageBlock pageName
               newBlockContent w
    = match createPageTags settings, pageBlock with
      | true, Some _ => if missingPage found then Rejected w' else Returned w'
      | _, _ => Returned w'
      end /\
    filter removesOrMoves (trace w')
    = filter removesOrMoves (trace w)
      ++ match content targetBlock with
         | [] => [ERemoveBlock (uuid targetBlock)]
         | _ :: _ => []
         end.
Proof.
  rewrite afterMoves_parts. cbv zeta.
  destruct (createPageTags settings).
  - destruct pageBlock as [pageBlock|].
    + pose proof (pageNames_missing
                    (fst (getPages host (refs srcBlock)
                            (snd (ask (getPageByName host pageName)
                                      (emit (EGetPageByName pageName)
                                            (dropEmptyAnchor host targetBlock w)))))))
        as M.
      destruct (pageNames _) as [names|]; rewrite M.
      * eexists. split; [reflexivity|].
        rewrite filter_finishMain. simpl. rewrite filter_app. simpl.
        rewrite app_nil_r, trace_getPages, filter_app, trace_ask.
        simpl. rewrite !filter_app, filter_removesOrMoves_getPages. simpl.
        rewrite !app_nil_r. apply filter_dropEmptyAnchor.
      * eexists. split; [reflexivity|].
        rewrite trace_getPages, filter_app, trace_ask.
        simpl. rewrite !filter_app, filter_removesOrMoves_getPages. simpl.
        rewrite !app_nil_r. apply filter_dropEmptyAnchor.
    + eexists. split; [reflexivity|].
      rewrite filter_finishMain. apply filter_dropEmptyAnchor.
  - eexists. split; [reflexivity|].
    rewrite filter_finishMain. apply filter_dropEmptyAnchor.
Qed.

End EndOfMain.

(** X20.  Behind the moves, [main] always ends: its promise is rejected
    exactly when the tags are on, there is a page block and one of the
    pages the block refers to is not found, and fulfilled otherwise.  On
    the way it removes the anchor exactly when the anchor's text is
    empty, removes no other block and moves none. *)
Theorem afterMoves_removes_only_empty_anchor :
  forall (Store : Type) (host : Host Store) (settings : Settings)
         (srcBlock targetBlock : BlockEntity) (pageBlock : option BlockEntity)
         (pageName newBlockContent : jsstring) (w : World Store),
    let w2 := snd (ask (getPageByName host pageName)
                       (emit (EGetPageByName pageName)
                             (dropEmptyAnchor host targetBlock w))) in
    let found := fst (getPages host (refs srcBlock) w2) in
    exists w',
      afterMoves host settings srcBlock targetBlock pageBlock pageName
                 newBlockContent w
      = match createPageTags settings, pageBlock with
        | true, Some _ => if missingPage found then Rejected w' else Returned w'
        | _, _ => Returned w'
        end /\
      filter removesOrMoves (trace w')
      = filter removesOrMoves (trace w)
        ++ match content targetBlock with
           | [] => [ERemoveBlock (uuid targetBlock)]
           | _ :: _ => []
           end.
Proof. intros. apply afterMoves_end. Qed.

(* ================================================================== *)
(** ** The relocation when every move succeeds *)
(* ================================================================== *)

Lemma filter_moveCalls (children : list BlockEntity) :
  forall cursor : jsstring,
    filter removesOrMoves (moveCalls cursor children) = moveCalls cursor children.
Proof.
  induction children as [|c children IH]; intros cursor; simpl; auto.
  now rewrite IH.
Qed.

Lemma targetBlockOf_moves_nothing {Store : Type} (host : Host Store)
      (pageName : jsstring) (w : World Store) :
  filter removesOrMoves (trace (snd (targetBlockOf host pageName w)))
  = filter removesOrMoves (trace w).
Proof.
  unfold targetBlockOf, getLastBlock, ask, emit. simpl.
  destruct (getPageBlocksTree host pageName (store w)) as [blocks s1]. simpl.
  destruct (last (map Some blocks) None); simpl.
  - rewrite filter_app. simpl. apply app_nil_r.
  - destruct (appendBlockInPage host pageName [] s1). simpl.
    rewrite !filter_app. simpl. now rewrite !app_nil_r.
Qed.

Lemma afterMoves_ends {Store : Type} (host : Host Store) (settings : Settings)
      (srcBlock targetBlock : BlockEntity) (pageBlock : option BlockEntity)
      (pageName newBlockContent : jsstring) (w : World Store) :
  exists w',
    endWorld (afterMoves host settings srcBlock targetBlock pageBlock pageName
                         newBlockContent w) = Some w' /\
    filter removesOrMoves (trace w')
    = filter removesOrMoves (trace w)
      ++ match content targetBlock with
         | [] => [ERemoveBlock (uuid targetBlock)]
         | _ :: _ => []
         end.
Proof.
  destruct (afterMoves_end host settings srcBlock targetBlock pageBlock pageName
                           newBlockContent w) as (w' & E & F).
  exists w'. split; [|exact F]. rewrite E.
  destruct (createPageTags settings); [|reflexivity].
  destruct pageBlock; [|reflexivity].
  now destruct (missingPage _).
Qed.

Lemma getPages_outline (ids : list N) :
  forall w : World Outline, store (snd (getPages outlineHost ids w)) = store w.
Proof.
  induction ids as [|id ids IH]; intros w; [reflexivity|].
  simpl. unfold ask, emit. simpl.
  specialize (IH {| store := store w; trace := trace w ++ [EGetPageById id] |}).
  destruct (getPages outlineHost ids _) as [ps w2]. exact IH.
Qed.

(** On the outline, what follows the moves changes no block when the
    anchor has a text. *)
Lemma afterMoves_outline (settings : Settings) (srcBlock targetBlock : BlockEntity)
      (pageBlock : option BlockEntity) (pageName newBlockContent : jsstring)
      (w w' : World Outline) :
  content targetBlock <> [] ->
  endWorld (afterMoves outlineHost settings srcBlock targetBlock pageBlock pageName
                       newBlockContent w) = Some w' ->
  store w' = store w.
Proof.
  intros T. rewrite afterMoves_parts. cbv zeta.
  assert (D : dropEmptyAnchor outlineHost targetBlock w = w).
  { unfold dropEmptyAnchor. destruct (content targetBlock); [contradiction | reflexivity]. }
  rewrite D.
  assert (F : forall w4 : World Outline,
             store (finishMain outlineHost settings srcBlock pageName
                               newBlockContent w4) = store w4).
  { intros w4. unfold finishMain. cbv zeta.
    destruct newBlockContent;
      destruct (match properties srcBlock with
                | Some p => truthy (read (u "collapsed") p)
                | None => false
                end);
      destruct (redirectToPage settings); reflexivity. }
  destruct (createPageTags settings).
  - destruct pageBlock as [pageBlock|].
    + pose proof (getPages_outline (refs srcBlock)
                    (snd (ask (getPageByName outlineHost pageName)
                              (emit (EGetPageByName pageName) w)))) as G.
      destruct (pageNames _); simpl; intros E; injection E as <-.
      * rewrite F. simpl. exact G.
      * exact G.
    + simpl. intros E. injection E as <-. apply F.
  - simpl. intros E. injection E as <-. apply F.
Qed.

Lemma last_map_snoc {A B} (f : A -> B) (l : list A) (x : A) (d : B) :
  last (map f (l ++ [x])) d = f x.
Proof. rewrite map_app. simpl. apply last_last. Qed.

(** C5.  When every move succeeds, the relocation has asked, for the
    children of the source block in their order, to move each child as
    the next sibling (not as a child, not before) of the cursor - the
    anchor first, which is the last block of the page or the block
    appended to it, then the child moved last - and these are the only
    moves it asks for; on the outline this leaves the children right
    behind the anchor, in their original order. *)
Theorem relocate_keeps_order_behind_anchor :
  (forall (Store : Type) (host : Host Store) (settings : Settings)
          (srcBlock targetBlock : BlockEntity) (pageBlock : option BlockEntity)
          (pageName newBlockContent cursor : jsstring) (w w1 w2 : World Store),
      targetBlockOf host pageName w = (Some targetBlock, w1) ->
      moveChildren host (children srcBlock) (uuid targetBlock) w1 = (Some cursor, w2) ->
      cursor = last (map uuid (children srcBlock)) (uuid targetBlock) /\
      trace w2 = trace w1 ++ moveCalls (uuid targetBlock) (children srcBlock) /\
      exists w',
        endWorld (relocate host settings srcBlock pageBlock pageName
                           newBlockContent w) = Some w' /\
        filter removesOrMoves (trace w')
        = filter removesOrMoves (trace w)
          ++ moveCalls (uuid targetBlock) (children srcBlock)
          ++ match content targetBlock with
             | [] => [ERemoveBlock (uuid targetBlock)]
             | _ :: _ => []
             end) /\
  (forall (settings : Settings) (srcBlock : BlockEntity)
          (pageBlock : option BlockEntity) (pageName newBlockContent : jsstring)
          (pre : list jsstring) (anchor : jsstring) (w : World Outline),
      siblings (store w) = pre ++ [anchor] ->
      ~ In anchor pre ->
      NoDup (map uuid (children srcBlock)) ->
      (forall id, In id (map uuid (children srcBlock)) ->
                  ~ In id (pre ++ [anchor]) /\ ~ In id (locked (store w))) ->
      exists w',
        endWorld (relocate outlineHost settings srcBlock pageBlock pageName
                           newBlockContent w) = Some w' /\
        siblings (store w') = pre ++ anchor :: map uuid (children srcBlock) /\
        filter removesOrMoves (trace w')
        = filter removesOrMoves (trace w) ++ moveCalls anchor (children srcBlock)) /\
  relocate outlineHost allOff
           (mkBlock (u "src") (u "Title") [leaf "c1"; leaf "c2"; leaf "c3"]
                    None [] [] false)
           None (u "Title") (u "[[Title]]")
           {| store := {| siblings := [u "p"; u "T"]; locked := [] |}; trace := [] |}
  = Returned
      {| store := {| siblings := [u "p"; u "T"; u "c1"; u "c2"; u "c3"]; locked := [] |};
         trace := [EGetPageBlocksTree (u "Title");
                   EMoveBlock (u "c1") (u "T") {| asChildren := false; before := false |};
                   EMoveBlock (u "c2") (u "c1") {| asChildren := false; before := false |};
                   EMoveBlock (u "c3") (u "c2") {| asChildren := false; before := false |};
                   EUpdateBlock (u "src") (u "[[Title]]");
                   EExitEditingMode true] |}.
Proof.
  split; [|split; [|vm_compute; reflexivity]].
  - intros Store host settings srcBlock targetBlock pageBlock pageName
           newBlockContent cursor w w1 w2 Ht Hm.
    destruct (moveChildren_done host _ _ _ Hm) as [C T].
    split; [exact C|]. split; [exact T|].
    unfold relocate. rewrite Ht, Hm.
    destruct (afterMoves_ends host settings srcBlock targetBlock pageBlock
                              pageName newBlockContent w2) as (w' & E & F).
    exists w'. split; [exact E|].
    rewrite F, T, filter_app, filter_moveCalls.
    pose proof (targetBlockOf_moves_nothing host pageName w) as M.
    rewrite Ht in M. simpl in M. now rewrite M, <- app_assoc.
  - intros settings srcBlock pageBlock pageName newBlockContent pre anchor w
           S Na D Out.
    assert (Ht : targetBlockOf outlineHost pageName w
                 = (Some (outlineBlock anchor),
                    {| store := store w;
                       trace := trace w ++ [EGetPageBlocksTree pageName] |})).
    { unfold targetBlockOf, getLastBlock, ask, emit. simpl.
      rewrite S, map_app. simpl map. now rewrite last_map_snoc. }
    set (w1 := {| store := store w;
                  trace := trace w ++ [EGetPageBlocksTree pageName] |}) in *.
    destruct (moveChildren_outline (children srcBlock) pre [] anchor w1)
      as (w2 & Hm & S2 & _); auto.
    destruct (moveChildren_done outlineHost _ _ _ Hm) as [_ T].
    unfold relocate. rewrite Ht. simpl uuid. rewrite Hm.
    destruct (afterMoves_ends outlineHost settings srcBlock (outlineBlock anchor)
                              pageBlock pageName newBlockContent w2)
      as (w' & E & F).
    exists w'. split; [exact E|]. split.
    + rewrite (@afterMoves_outline settings srcBlock (outlineBlock anchor) pageBlock
                 pageName newBlockContent w2 w'); [|discriminate|exact E].
      rewrite S2, app_nil_r. reflexivity.
    + rewrite F, T, filter_app, filter_moveCalls. simpl.
      rewrite filter_app. simpl. now rewrite !app_nil_r.
Qed.

Lemma relocate_keeps_order_behind_anchor_witness :
  exists w',
    endWorld (relocate outlineHost allOff
                (mkBlock (u "src") (u "Title") [leaf "c1"; leaf "c2"] None [] [] false)
                None (u "Title") (u "[[Title]]")
                {| store := {| siblings := [u "p"; u "T"]; locked := [] |};
                   trace := [] |}) = Some w' /\
    siblings (store w') = [u "p"] ++ u "T" :: map uuid [leaf "c1"; leaf "c2"] /\
    filter removesOrMoves (trace w')
    = filter removesOrMoves [] ++ moveCalls (u "T") [leaf "c1"; leaf "c2"].
Proof.
  apply (proj1 (proj2 relocate_keeps_order_behind_anchor) allOff
               (mkBlock (u "src") (u "Title") [leaf "c1"; leaf "c2"] None [] [] false)
               None (u "Title") (u "[[Title]]") [u "p"] (u "T")
               {| store := {| siblings := [u "p"; u "T"]; locked := [] |};
                  trace := [] |} eq_refl).
  - simpl. intuition discriminate.
  - repeat constructor; simpl; intuition discriminate.
  - simpl. intros id [<- | [<- | []]]; split; simpl; intuition discriminate.
Defined.

(* ================================================================== *)
(** ** Further properties: the page name and the new text of the block *)
(* ================================================================== *)

Lemma trimStart_split (s : jsstring) :
  exists ws,
    s = ws ++ trimStart s /\ forallb isWhiteSpace ws = true /\
    (forall c rest, trimStart s = c :: rest -> isWhiteSpace c = false).
Proof.
  induction s as [|c s (ws & E & F & H)]; simpl.
  - exists []. repeat split; auto. discriminate.
  - destruct (isWhiteSpace c) eqn:C.
    + exists (c :: ws). simpl. rewrite C, F. repeat split; auto. now rewrite <- E.
    + exists []. repeat split; auto. intros c' rest E'. now injection E' as <- _.
Qed.

Lemma forallb_rev {A} (p : A -> bool) (l : list A) :
  forallb p (rev l) = forallb p l.
Proof.
  induction l as [|x l IH]; simpl; auto.
  rewrite forallb_app, IH. simpl. rewrite andb_true_r. apply andb_comm.
Qed.

(** [trim] takes white space from both ends, and all of it. *)
Lemma trim_split (s : jsstring) :
  exists ws ws',
    s = ws ++ trim s ++ ws' /\
    forallb isWhiteSpace ws = true /\ forallb isWhiteSpace ws' = true /\
    (forall c rest, trim s = c :: rest -> isWhiteSpace c = false).
Proof.
  destruct (trimStart_split s) as (ws & E & F & H).
  destruct (trimStart_split (rev (trimStart s))) as (ws1 & E1 & F1 & H1).
  unfold trim, trimEnd.
  set (t := trimStart s) in *. set (r := trimStart (rev t)) in *.
  assert (Et : t = rev r ++ rev ws1).
  { rewrite <- rev_app_distr, <- E1. symmetry. apply rev_involutive. }
  exists ws, (rev ws1). repeat split; auto.
  - now rewrite <- Et.
  - now rewrite forallb_rev.
  - intros c rest Er. destruct (rev r) as [|c0 rr] eqn:R; [discriminate|].
    injection Er as -> ->. apply (H c (rest ++ rev ws1)). now rewrite Et.
Qed.

Lemma startsWith_app (x r : jsstring) : startsWith x (x ++ r) = true.
Proof. induction x as [|c x IH]; simpl; auto. now rewrite N.eqb_refl. Qed.

Lemma indexOfFrom_behind_space (pattern : jsstring) (ws : jsstring) :
  forall (c : char) (tail rest : jsstring) (pos : nat),
    pattern = c :: tail -> isWhiteSpace c = false ->
    forallb isWhiteSpace ws = true ->
    indexOfFrom pattern (ws ++ pattern ++ rest) pos = Some (pos + length ws).
Proof.
  induction ws as [|x ws IH]; intros c tail rest pos E C F.
  - simpl app. rewrite Nat.add_0_r.
    destruct (pattern ++ rest) eqn:P;
      unfold indexOfFrom; fold indexOfFrom; rewrite <- P, startsWith_app; reflexivity.
  - simpl in F. apply andb_true_iff in F as [Fx F].
    simpl app. unfold indexOfFrom; fold indexOfFrom.
    assert (Sw : startsWith pattern (x :: ws ++ pattern ++ rest) = false).
    { rewrite E. simpl. destruct (N.eqb c x) eqn:Q; auto.
      apply N.eqb_eq in Q. subst. congruence. }
    rewrite Sw, (IH c tail rest (S pos) E C F). f_equal. simpl. lia.
Qed.

Lemma substitution_noDollar (matched before_ after_ : jsstring) (template : jsstring) :
  noDollar template = true ->
  substitution matched before_ after_ template = template.
Proof.
  induction template as [|c t IH]; intros F; [reflexivity|].
  simpl in F. apply andb_true_iff in F as [C F]. apply negb_true_iff in C.
  destruct t as [|d t']; [reflexivity|].
  cbn [substitution]. rewrite C. cbn [andb]. f_equal. apply IH. exact F.
Qed.

Lemma split_hd (s : jsstring) :
  exists tail, s = hd [] (split LF s) ++ tail.
Proof.
  induction s as [|c s (tail & E)]; simpl.
  - now exists [].
  - destruct (N.eqb c LF) eqn:C.
    + simpl. now exists (c :: s).
    + destruct (split LF s) as [|l ls]; simpl in *.
      * exists s. reflexivity.
      * exists tail. now rewrite <- E.
Qed.

(** A first line that is no page reference and holds no [$] is put in
    brackets where it stands. *)
Lemma replaceString_brackets (firstLine ws rest : jsstring) (c : char) (tail : jsstring) :
  firstLine = c :: tail -> isWhiteSpace c = false ->
  forallb isWhiteSpace ws = true -> noDollar firstLine = true ->
  replaceString firstLine (u "[[" ++ firstLine ++ u "]]") (ws ++ firstLine ++ rest)
  = ws ++ u "[[" ++ firstLine ++ u "]]" ++ rest.
Proof.
  intros E C F D. unfold replaceString.
  rewrite (@indexOfFrom_behind_space firstLine ws c tail rest 0 E C F). simpl Nat.add.
  rewrite firstn_app, firstn_all, Nat.sub_diag. simpl firstn. rewrite app_nil_r.
  replace (skipn (length ws + length firstLine) (ws ++ firstLine ++ rest)) with rest.
  - rewrite substitution_noDollar.
    + now rewrite <- !app_assoc.
    + unfold noDollar in *.
      rewrite forallb_app. apply andb_true_iff. split; [reflexivity|].
      rewrite forallb_app. apply andb_true_iff. split; [exact D | reflexivity].
  - rewrite app_assoc, <- length_app, skipn_app, skipn_all, Nat.sub_diag. reflexivity.
Qed.

Lemma exec_pageRegx_inv (line : jsstring) (c : captures) :
  exec pageRegx line = Some c ->
  exists x,
    line = u "[[" ++ x ++ u "]]" /\ noLineTerminator x = true /\
    starts c 0 = Some 0 /\ stops c 0 = Some (length line) /\
    group line c 1 = Some x.
Proof.
  unfold pageRegx. rewrite exec_bol. cbn [app]. intros E. cbn [run] in E.
  destruct line as [|x1 line]; [discriminate|].
  destruct (N.eqb x1 91) eqn:X1; [|discriminate]. apply N.eqb_eq in X1. subst x1.
  destruct line as [|x2 line]; [discriminate|].
  destruct (N.eqb x2 91) eqn:X2; [|discriminate]. apply N.eqb_eq in X2. subst x2.
  apply rep_inv in E as (x & suf & -> & Fx & _ & E). cbv beta in E.
  destruct suf as [|y1 suf]; [discriminate|].
  destruct (N.eqb y1 93) eqn:Y1; [|discriminate]. apply N.eqb_eq in Y1. subst y1.
  destruct suf as [|y2 suf]; [discriminate|].
  destruct (N.eqb y2 93) eqn:Y2; [|discriminate]. apply N.eqb_eq in Y2. subst y2.
  destruct suf; [|discriminate]. injection E as <-.
  exists x. repeat split; auto.
  - simpl. do 3 f_equal. rewrite length_app. simpl. lia.
  - unfold group. simpl. f_equal.
    rewrite Nat.sub_0_r, firstn_app, firstn_all, Nat.sub_diag. simpl.
    apply app_nil_r.
Qed.

Lemma exec_pageRegx_complete (x : jsstring) :
  noLineTerminator x = true -> exec pageRegx (u "[[" ++ x ++ u "]]") <> None.
Proof.
  intros F. unfold pageRegx. rewrite exec_bol. cbn [app run].
  cbn [u list_ascii_of_string map app]. simpl N.eqb. cbv iota.
  apply (@rep_complete isDot true _ x _ 0 _); [exact F | lia |].
  simpl. discriminate.
Qed.

(** X21.  The first line is a page reference exactly when it is [[[],
    a text without line terminator and []]]; the page name is then that
    text, and the whole first line otherwise. *)
Theorem pageNameOf_cases :
  (forall line : jsstring,
      test pageRegx line = true
      <-> exists x, line = u "[[" ++ x ++ u "]]" /\ noLineTerminator x = true) /\
  (forall x : jsstring,
      noLineTerminator x = true -> pageNameOf (u "[[" ++ x ++ u "]]") = x) /\
  (forall line : jsstring, test pageRegx line = false -> pageNameOf line = line).
Proof.
  split; [|split].
  - intros line. unfold test. split.
    + destruct (exec pageRegx line) as [c|] eqn:E; [|discriminate]. intros _.
      destruct (exec_pageRegx_inv _ E) as (x & L & F & _). now exists x.
    + intros (x & -> & F). pose proof (exec_pageRegx_complete x F) as S.
      destruct (exec pageRegx _); [reflexivity | congruence].
  - intros x F. unfold pageNameOf. pose proof (exec_pageRegx_complete x F) as S.
    destruct (exec pageRegx (u "[[" ++ x ++ u "]]")) as [c|] eqn:E; [|congruence].
    destruct (exec_pageRegx_inv _ E) as (x' & L & _ & S0 & S1 & G).
    rewrite S0, S1, G. simpl firstn. rewrite skipn_all, app_nil_r. simpl.
    apply app_inv_head in L. apply app_inv_tail in L. now subst.
  - intros line T. unfold pageNameOf. unfold test in T.
    now destruct (exec pageRegx line).
Qed.

Lemma pageNameOf_cases_witness :
  pageNameOf (u "[[" ++ u "My [[nested]] page" ++ u "]]") = u "My [[nested]] page".
Proof.
  apply (proj1 (proj2 pageNameOf_cases) (u "My [[nested]] page")). reflexivity.
Defined.

(** X22.  The new text of the source block: none when the first line is
    a page reference; otherwise, when the first line holds no [$], the
    text with its trimmed first line put in brackets where it stands -
    and with [[[]]] put before it when the first line is blank. *)
Theorem newBlockContentOf_brackets_first_line :
  (forall firstLine text : jsstring,
      test pageRegx firstLine = true -> newBlockContentOf firstLine text = []) /\
  (forall text : jsstring,
      let firstLine := trim (hd [] (split LF text)) in
      test pageRegx firstLine = false -> noDollar firstLine = true ->
      exists ws rest,
        text = ws ++ firstLine ++ rest /\
        forallb isWhiteSpace ws = true /\
        (firstLine = [] -> ws = []) /\
        newBlockContentOf firstLine text = ws ++ u "[[" ++ firstLine ++ u "]]" ++ rest).
Proof.
  split.
  - intros firstLine text T. unfold newBlockContentOf. now rewrite T.
  - intros text firstLine T D. unfold newBlockContentOf. rewrite T.
    destruct firstLine as [|c tail] eqn:E.
    + exists [], text. repeat split; auto.
      unfold replaceString. now destruct text.
    + rewrite <- E in *. unfold firstLine in E.
      destruct (trim_split (hd [] (split LF text))) as (ws & ws' & L & F & F' & H).
      destruct (split_hd text) as (more & M).
      fold firstLine in L. exists ws, (ws' ++ more). split; [|split; [|split]].
      * rewrite M at 1. rewrite L at 1. now rewrite <- !app_assoc.
      * exact F.
      * intros N. fold firstLine in E. rewrite N in E. discriminate.
      * assert (Et : text = ws ++ firstLine ++ ws' ++ more).
        { rewrite M at 1. rewrite L at 1. now rewrite <- !app_assoc. }
        rewrite Et at 1.
        apply (@replaceString_brackets firstLine ws (ws' ++ more) c tail); auto.
        apply (H c tail). exact E.
Qed.

Lemma newBlockContentOf_brackets_first_line_witness :
  exists ws rest,
    join [LF] [u "  My page "; u "child text"] = ws ++ u "My page" ++ rest /\
    forallb isWhiteSpace ws = true /\
    (u "My page" = [] -> ws = []) /\
    newBlockContentOf (u "My page") (join [LF] [u "  My page "; u "child text"])
    = ws ++ u "[[" ++ u "My page" ++ u "]]" ++ rest.
Proof.
  exact (proj2 newBlockContentOf_brackets_first_line
               (join [LF] [u "  My page "; u "child text"]) eq_refl eq_refl).
Defined.

(* ================================================================== *)
(** ** Further properties: [createPageIfNotExist] and [main] *)
(* ================================================================== *)

Section MainFacts.
Variable Store : Type.
Variable host : Host Store.
Variable pages : PageHost Store.

Lemma last_map_Some_cons (b : BlockEntity) (bs : list BlockEntity) :
  exists b', last (map Some (b :: bs)) None = Some b'.
Proof.
  revert b. induction bs as [|c bs IH]; intros b; [now exists b|].
  destruct (IH c) as [b' E]. exists b'. exact E.
Qed.

(** X23.  [createPageIfNotExist] by cases: a missing page is created; a
    page that has a block is left as it is, with no call but the two
    reads and the debug line; a page without a block is deleted and
    created again. *)
Theorem createPageIfNotExist_cases (pageName : jsstring) (s : Session Store) :
  let page := fst (getPageByName host pageName (sstore s)) in
  let st1 := snd (getPageByName host pageName (sstore s)) in
  let blocks := fst (getPageBlocksTree host pageName st1) in
  let st2 := snd (getPageBlocksTree host pageName st1) in
  createPageIfNotExist host pages pageName s =
  match page, blocks with
  | None, _ =>
      {| sstore := createPage pages pageName st1;
         calls := calls s ++ [Core (EGetPageByName pageName); CreatePage pageName] |}
  | Some _, _ :: _ =>
      {| sstore := st2;
         calls := calls s ++ [Core (EGetPageByName pageName);
                              ConsoleDebug (u "page already exist");
                              Core (EGetPageBlocksTree pageName)] |}
  | Some _, [] =>
      {| sstore := createPage pages pageName (deletePage pages pageName st2);
         calls := calls s ++ [Core (EGetPageByName pageName);
                              ConsoleDebug (u "page already exist");
                              Core (EGetPageBlocksTree pageName);
                              DeletePage pageName; CreatePage pageName] |}
  end.
Proof.
  unfold createPageIfNotExist, lift, ask, emit, createFreshPage, sessionOf,
    note, onSession. cbn [store trace sstore calls app].
  destruct (getPageByName host pageName (sstore s)) as [page st1].
  cbn [fst snd store trace sstore calls app map].
  destruct page as [pg|].
  - unfold getLastBlock, ask, emit. cbn [store trace sstore calls app].
    destruct (getPageBlocksTree host pageName st1) as [blocks st2].
    cbn [fst snd store trace sstore calls app map].
    destruct blocks as [|b bs].
    + cbn [last map sstore calls]. now rewrite <- !app_assoc.
    + destruct (last_map_Some_cons b bs) as [b' ->].
      cbn [sstore calls]. now rewrite <- !app_assoc.
  - cbn [sstore calls]. now rewrite <- !app_assoc.
Qed.

Lemma addsOnly_refl (P : call -> bool) (s : Session Store) : addsOnly P s s.
Proof. exists []. split; [now rewrite app_nil_r | reflexivity]. Qed.

Lemma addsOnly_trans (P : call -> bool) (s1 s2 s3 : Session Store) :
  addsOnly P s1 s2 -> addsOnly P s2 s3 -> addsOnly P s1 s3.
Proof.
  intros (c1 & E1 & F1) (c2 & E2 & F2). exists (c1 ++ c2). split.
  - now rewrite E2, E1, app_assoc.
  - rewrite forallb_app, F1, F2. reflexivity.
Qed.

Lemma addsOnly_sessionOf (P : call -> bool) (s : Session Store) (w : World Store) :
  (forall e, P (Core e) = true) -> addsOnly P s (sessionOf s w).
Proof.
  intros C. exists (map Core (trace w)). split; [reflexivity|].
  apply forallb_forall. intros c I. apply in_map_iff in I as (e & <- & _). apply C.
Qed.

Lemma addsOnly_lift (P : call -> bool) (A : Type)
      (f : World Store -> A * World Store) (s : Session Store) :
  (forall e, P (Core e) = true) -> addsOnly P s (snd (lift f s)).
Proof.
  intros C. unfold lift. destruct (f _) as [a w]. now apply addsOnly_sessionOf.
Qed.

Lemma createPageIfNotExist_calls (P : call -> bool) (pageName : jsstring)
      (s : Session Store) :
  (forall e, P (Core e) = true) -> (forall n, P (CreatePage n) = true) ->
  (forall n, P (DeletePage n) = true) -> (forall m, P (ConsoleDebug m) = true) ->
  exists cs,
    calls (createPageIfNotExist host pages pageName s)
    = calls s ++ Core (EGetPageByName pageName) :: cs /\
    forallb P cs = true.
Proof.
  intros C1 C2 C3 C4.
  unfold createPageIfNotExist, lift, ask, emit, createFreshPage, sessionOf,
    note, onSession. cbn [store trace sstore calls app].
  destruct (getPageByName host pageName (sstore s)) as [page st1].
  cbn [fst snd store trace sstore calls app map].
  destruct page as [pg|].
  - unfold getLastBlock, ask, emit. cbn [store trace sstore calls app].
    destruct (getPageBlocksTree host pageName st1) as [blocks st2].
    cbn [fst snd store trace sstore calls app map].
    destruct (last (map Some blocks) None).
    + eexists. cbn [sstore calls]. rewrite <- !app_assoc. split; [reflexivity|].
      simpl. now rewrite C1, C4.
    + eexists. cbn [sstore calls]. rewrite <- !app_assoc. split; [reflexivity|].
      simpl. now rewrite C1, C2, C3, C4.
  - eexists. cbn [sstore calls]. rewrite <- !app_assoc. split; [reflexivity|].
    simpl. now rewrite C2.
Qed.

Lemma addsOnly_pageBlockOf (P : call -> bool) (settings : Settings)
      (pageName : jsstring) (firstBlock : option BlockEntity) (s : Session Store) :
  (moveBlockPropertiesToPage settings || createPageTags settings = true ->
   forall a b c d, P (InsertBlock a b c d) = true) ->
  addsOnly P s (snd (pageBlockOf pages settings pageName firstBlock s)).
Proof.
  intros C. unfold pageBlockOf.
  destruct (moveBlockPropertiesToPage settings || createPageTags settings);
    [|apply addsOnly_refl].
  specialize (C eq_refl).
  destruct firstBlock as [b|].
  - destruct (preBlock b); [apply addsOnly_refl|].
    destruct (insertBlock _ _ _ _ _ _) as [r st]. simpl.
    eexists. split; [reflexivity|]. simpl. now rewrite C.
  - destruct (insertBlock _ _ _ _ _ _) as [r st]. simpl.
    eexists. split; [reflexivity|]. simpl. now rewrite C.
Qed.

Lemma addsOnly_resultOf (P : call -> bool) (A : Type) (s : Session Store)
      (o : outcome Store A) (k : A -> Session Store -> result Store)
      (s' : Session Store) :
  (forall e, P (Core e) = true) ->
  (forall a s5, addsOnly P s s5 -> endsIn (k a s5) s' -> addsOnly P s s') ->
  endsIn (resultOf s o k) s' -> addsOnly P s s'.
Proof.
  intros C K E. destruct o as [a w|w|w|]; simpl in E.
  - apply (K a (sessionOf s w)); [now apply addsOnly_sessionOf | exact E].
  - destruct E as [E|E]; [|discriminate]. injection E as <-.
    now apply addsOnly_sessionOf.
  - destruct E as [E|E]; [discriminate|]. injection E as <-.
    now apply addsOnly_sessionOf.
  - destruct E as [E|E]; discriminate.
Qed.

Lemma main_calls (P : call -> bool) (fuel : nat) (settings : Settings)
      (blockId : jsstring) (s s' : Session Store) (srcBlock : BlockEntity) :
  (forall e, P (Core e) = true) -> (forall n, P (CreatePage n) = true) ->
  (forall n, P (DeletePage n) = true) -> (forall m, P (ConsoleDebug m) = true) ->
  (moveBlockPropertiesToPage settings || createPageTags settings = true ->
   forall a b c d, P (InsertBlock a b c d) = true) ->
  fst (getBlock host blockId (sstore s)) = Some srcBlock ->
  returnsAtOnce settings (Some srcBlock) = false ->
  endsIn (main host pages fuel settings blockId s) s' ->
  exists cs,
    calls s'
    = calls s ++ Core (EGetBlock blockId)
        :: Core (EGetPageByName
                   (pageNameOf (trim (hd [] (split LF (content srcBlock))))))
        :: cs /\
    forallb P cs = true.
Proof.
  intros C1 C2 C3 C4 C5 F R E. unfold main, lift, ask, emit in E.
  cbn [store trace sstore calls app] in E.
  destruct (getBlock host blockId (sstore s)) as [found st1].
  cbn [fst] in F. subst found. unfold returnsAtOnce in R. rewrite R in E.
  set (pageName := pageNameOf (trim (hd [] (split LF (content srcBlock))))) in *.
  set (s1 := sessionOf s _) in E.
  destruct (createPageIfNotExist_calls P pageName s1 C1 C2 C3 C4) as (cs & Ec & Fc).
  set (s2 := createPageIfNotExist host pages pageName s1) in *.
  pose proof (addsOnly_sessionOf P s2
    (snd (ask (getPageBlocksTree host pageName)
              {| store := sstore s2; trace := [EGetPageBlocksTree pageName] |})) C1) as G3.
  unfold getFirstAndLastBlock, getAllBlocks, ask, emit in E.
  cbn [store trace sstore calls app] in E.
  unfold ask in G3. cbn [store trace] in G3.
  destruct (getPageBlocksTree host pageName (sstore s2)) as [blocks st3].
  cbn [snd] in G3.
  set (s3 := sessionOf s2 _) in *.
  pose proof (addsOnly_pageBlockOf P settings pageName
                (option_map fst match blocks with
                                | [] => None
                                | b :: bs => Some (b, last bs b)
                                end) s3 C5) as G4.
  assert (E' : endsIn
    (let (pageBlock, s4) :=
       pageBlockOf pages settings pageName
         (option_map fst match blocks with
                         | [] => None
                         | b :: bs => Some (b, last bs b)
                         end) s3 in
     resultOf s4
       (moveProperties host fuel settings srcBlock pageBlock
          (split LF (content srcBlock)) {| store := sstore s4; trace := [] |})
       (fun srcBlock' s5 =>
          resultOf s5
            (relocate host settings srcBlock' pageBlock pageName
               (newBlockContentOf (trim (hd [] (split LF (content srcBlock))))
                  (content srcBlock'))
               {| store := sstore s5; trace := [] |})
            (fun _ s6 => Done s6))) s').
  { destruct blocks; exact E. }
  clear E. destruct (pageBlockOf _ _ _ _ _) as [pageBlock s4]. cbn [snd] in G4.
  assert (G : addsOnly P s4 s').
  { refine (@addsOnly_resultOf P _ s4 _ _ s' C1 _ E').
    intros a s5 G5 E5. apply (addsOnly_trans G5).
    refine (@addsOnly_resultOf P _ s5 _ _ s' C1 _ E5).
    intros _ s6 G6 [E6|E6]; [|discriminate]. injection E6 as <-. exact G6. }
  destruct (addsOnly_trans G3 (addsOnly_trans G4 G)) as (cs' & Ec' & Fc').
  exists (cs ++ cs'). split.
  - rewrite Ec', Ec. unfold s1, sessionOf. cbn [calls trace map].
    rewrite <- !app_assoc. reflexivity.
  - rewrite forallb_app, Fc, Fc'. reflexivity.
Qed.

Lemma relocate_returns_without_page_block (settings : Settings)
      (srcBlock : BlockEntity) (pageName newBlockContent : jsstring)
      (w : World Store) :
  exists w', relocate host settings srcBlock None pageName newBlockContent w
             = Returned w'.
Proof.
  unfold relocate. destruct (targetBlockOf host pageName w) as [tb w2].
  destruct tb as [tb|]; [|eexists; reflexivity].
  destruct (moveChildren host (children srcBlock) (uuid tb) w2) as [[c|] w3];
    [|eexists; reflexivity].
  unfold afterMoves. destruct (createPageTags settings); eexists; reflexivity.
Qed.

Lemma main_done_without_page_block (settings : Settings) (blockId : jsstring)
      (s : Session Store) :
  moveBlockPropertiesToPage settings = false -> createPageTags settings = false ->
  exists s', forall fuel, main host pages fuel settings blockId s = Done s'.
Proof.
  intros H1 H2. unfold main.
  destruct (lift _ s) as [found s1].
  destruct found as [srcBlock|]; [|eexists; reflexivity].
  destruct (negb (allowWithoutChildren settings) && _); [eexists; reflexivity|].
  destruct (lift _ _) as [fl s3].
  unfold pageBlockOf, moveProperties. rewrite H1, H2. cbn [orb resultOf].
  destruct (relocate_returns_without_page_block settings srcBlock
              (pageNameOf (trim (hd [] (split LF (content srcBlock)))))
              (newBlockContentOf (trim (hd [] (split LF (content srcBlock))))
                                 (content srcBlock))
              {| store := sstore (sessionOf s3 {| store := sstore s3; trace := [] |});
                 trace := [] |}) as [w' E].
  rewrite E. eexists. reflexivity.
Qed.

Lemma existsb_negb_forallb (A : Type) (f : A -> bool) (l : list A) :
  forallb (fun x => negb (f x)) l = true -> existsb f l = false.
Proof.
  induction l as [|x l IH]; [reflexivity|]. simpl. intros H.
  apply andb_true_iff in H as [Hx Hl]. rewrite (IH Hl).
  now destruct (f x).
Qed.

(** X24.  [main] asks for the block first.  When the answer is [null],
    or the block has no children and pages without children are not
    allowed, this is its only call; otherwise the run, when it comes to
    an end, has asked next for the page named by the trimmed first line
    without its brackets. *)
Theorem main_returns_at_once_or_asks_for_page (fuel : nat) (settings : Settings)
        (blockId : jsstring) (s : Session Store) :
  let found := fst (getBlock host blockId (sstore s)) in
  (returnsAtOnce settings found = true ->
   main host pages fuel settings blockId s
   = Done {| sstore := snd (getBlock host blockId (sstore s));
             calls := calls s ++ [Core (EGetBlock blockId)] |}) /\
  (forall srcBlock s',
      found = Some srcBlock -> returnsAtOnce settings found = false ->
      endsIn (main host pages fuel settings blockId s) s' ->
      exists cs,
        calls s'
        = calls s ++ Core (EGetBlock blockId)
            :: Core (EGetPageByName
                       (pageNameOf (trim (hd [] (split LF (content srcBlock))))))
            :: cs).
Proof.
  cbv zeta. split.
  - intros R. unfold main, lift, ask, emit, sessionOf.
    cbn [store trace sstore calls app].
    destruct (getBlock host blockId (sstore s)) as [fnd st1].
    cbn [fst snd store trace map] in *.
    destruct fnd as [srcBlock|]; [|reflexivity].
    unfold returnsAtOnce in R. rewrite R. reflexivity.
  - intros srcBlock s' F R E. rewrite F in R.
    destruct (@main_calls (fun _ => true) fuel settings blockId s s' srcBlock)
      as (cs & Ec & _); auto.
    now exists cs.
Qed.

(** X25.  With [moveBlockPropertiesToPage] and [createPageTags] both
    off, [main] never polls and never inserts a page block: it comes to
    its end without a TypeError whatever the number of polls allowed,
    and none of its calls is [insertBlock]. *)
Theorem main_without_page_block (settings : Settings) (blockId : jsstring)
        (s : Session Store) :
  moveBlockPropertiesToPage settings = false -> createPageTags settings = false ->
  exists s' cs,
    (forall fuel, main host pages fuel settings blockId s = Done s') /\
    calls s' = calls s ++ cs /\
    existsb isInsertBlock cs = false.
Proof.
  intros H1 H2.
  destruct (main_done_without_page_block settings blockId s H1 H2) as [s' D].
  exists s'.
  destruct (returnsAtOnce settings (fst (getBlock host blockId (sstore s)))) eqn:R.
  - exists [Core (EGetBlock blockId)]. split; [exact D|]. split; [|reflexivity].
    specialize (D 0). revert D. unfold main, lift, ask, emit, sessionOf.
    cbn [store trace sstore calls app].
    destruct (getBlock host blockId (sstore s)) as [fnd st1].
    cbn [fst snd store trace map] in *.
    destruct fnd as [srcBlock|].
    + unfold returnsAtOnce in R. rewrite R. intros D. now injection D as <-.
    + intros D. now injection D as <-.
  - destruct (fst (getBlock host blockId (sstore s))) as [srcBlock|] eqn:F;
      [|discriminate].
    destruct (@main_calls (fun c => negb (isInsertBlock c)) 0 settings blockId
                          s s' srcBlock) as (cs & Ec & Fc); auto.
    + rewrite H1, H2. discriminate.
    + left. apply D.
    + eexists. split; [exact D|]. split; [exact Ec|].
      simpl. now apply existsb_negb_forallb.
Qed.

End MainFacts.

Lemma main_returns_at_once_or_asks_for_page_witness :
  main scriptedHost scriptedPages 0 allOff (u "b1") {| sstore := [[]]; calls := [] |}
  = Done {| sstore := [[]]; calls := [Core (EGetBlock (u "b1"))] |}.
Proof.
  exact (proj1 (main_returns_at_once_or_asks_for_page scriptedHost scriptedPages
                  0 allOff (u "b1") {| sstore := [[]]; calls := [] |}) eq_refl).
Defined.

Lemma main_without_page_block_witness :
  exists s' cs,
    (forall fuel,
        main scriptedHost scriptedPages fuel allOff (u "b1")
             {| sstore := [[]]; calls := [] |} = Done s') /\
    calls s' = [] ++ cs /\ existsb isInsertBlock cs = false.
Proof.
  exact (main_without_page_block scriptedHost scriptedPages allOff (u "b1")
           {| sstore := [[]]; calls := [] |} eq_refl eq_refl).
Defined.

Lemma last_cons (A : Type) (bs : list A) (b d : A) : last (b :: bs) d = last bs b.
Proof.
  revert b d. induction bs as [|c bs IH]; intros b d; [reflexivity|].
  change (last (c :: bs) d = last (c :: bs) b). now rewrite !IH.
Qed.

Lemma last_map_Some (b : BlockEntity) (bs : list BlockEntity) :
  last (map Some (b :: bs)) None = Some (last bs b).
Proof.
  revert b. induction bs as [|c bs IH]; intros b; [reflexivity|].
  change (last (map Some (c :: bs)) None = Some (last (c :: bs) b)).
  now rewrite IH, last_cons.
Qed.

(** X26.  [getFirstAndLastBlock] and [getLastBlock] make the same call
    and agree on the last block; the first block is the head of the
    page's tree, and both answer [null] exactly for a page without a
    block. *)
Theorem getFirstAndLastBlock_agrees_with_getLastBlock (Store : Type)
        (host : Host Store) (pageName : jsstring) (w : World Store) :
  let both := getFirstAndLastBlock host pageName w in
  let blocks := fst (getPageBlocksTree host pageName (store w)) in
  snd both = snd (getLastBlock host pageName w) /\
  option_map snd (fst both) = fst (getLastBlock host pageName w) /\
  option_map fst (fst both) = hd_error blocks /\
  (fst both = None <-> blocks = []).
Proof.
  unfold getFirstAndLastBlock, getAllBlocks, getLastBlock, ask, emit.
  cbn [store trace]. destruct (getPageBlocksTree host pageName (store w)) as [blocks st].
  cbn [fst snd]. destruct blocks as [|b bs].
  - repeat split; reflexivity.
  - rewrite last_map_Some. repeat split; try reflexivity; discriminate.
Qed.

(* ================================================================== *)
(** ** The extractor: keys, their order and their values *)
(* ================================================================== *)

Lemma memId_filter (p : jsstring -> bool) (k : jsstring) (l : list jsstring) :
  memId k (filter p l) = p k && memId k l.
Proof.
  unfold memId. induction l as [|y l IH]; simpl.
  - now rewrite andb_false_r.
  - destruct (str_eqb k y) eqn:E.
    + apply str_eqb_eq in E. subst y. destruct (p k) eqn:P; simpl.
      * now rewrite str_eqb_refl.
      * rewrite IH. reflexivity.
    + destruct (p y); simpl; now rewrite ?E, IH.
Qed.

Lemma filter_named_insertIndex (n : N) (k : jsstring) (v : value) (o : obj) :
  notArrayIndex k = false ->
  filter notArrayIndex (keys (insertIndex n k v o)) = filter notArrayIndex (keys o).
Proof.
  intros K. induction o as [|[k0 v0] o IH]; simpl.
  - now rewrite K.
  - destruct (arrayIndex k0) as [n0|] eqn:A.
    + destruct (N.leb n0 n); simpl.
      * now rewrite IH.
      * now rewrite K.
    + simpl. now rewrite K.
Qed.

Lemma filter_named_set (k : jsstring) (v : value) (o : obj) :
  filter notArrayIndex (keys (set k v o))
  = if notArrayIndex k && negb (has k o)
    then filter notArrayIndex (keys o) ++ [k]
    else filter notArrayIndex (keys o).
Proof.
  unfold set. destruct (has k o) eqn:H.
  - rewrite keys_update. now rewrite andb_false_r.
  - rewrite andb_true_r. destruct (notArrayIndex k) eqn:K.
    + unfold notArrayIndex in K. destruct (arrayIndex k) eqn:A; [discriminate|].
      unfold keys. rewrite map_app, filter_app. simpl.
      unfold notArrayIndex. now rewrite A.
    + pose proof K as K'. unfold notArrayIndex in K'.
      destruct (arrayIndex k) as [n|]; [|discriminate].
      now apply filter_named_insertIndex.
Qed.

(** The keys that are no array index stand in the order of their first
    assignment. *)
Lemma filter_named_fold_set (es : list (jsstring * value)) :
  forall acc : obj,
    filter notArrayIndex (keys (fold_left (fun o kv => set (fst kv) (snd kv) o) es acc))
    = filter notArrayIndex (keys acc)
      ++ firstOccurrences (filter notArrayIndex (keys acc))
                          (filter notArrayIndex (map fst es)).
Proof.
  induction es as [|[k0 v0] es IH]; intros acc; simpl.
  - now rewrite app_nil_r.
  - rewrite IH, filter_named_set. simpl fst.
    destruct (notArrayIndex k0) eqn:K; simpl.
    + change (existsb (str_eqb k0) (filter notArrayIndex (keys acc)))
        with (memId k0 (filter notArrayIndex (keys acc))).
      rewrite memId_filter, K, memId_keys. simpl.
      destruct (has k0 acc); simpl; [reflexivity|].
      rewrite <- app_assoc. simpl. do 2 f_equal.
      apply firstOccurrences_ext. intros x. unfold memId.
      rewrite existsb_app. simpl. rewrite orb_false_r. apply orb_comm.
    + reflexivity.
Qed.

Lemma canonical_NoDup (o : obj) : canonical o = true -> NoDup (keys o).
Proof.
  induction o as [|[k v] o IH]; simpl; intros C; [constructor|].
  apply andb_true_iff in C as [C C2]. apply andb_true_iff in C as [C0 _].
  apply negb_true_iff in C0. constructor; auto.
  rewrite <- memId_keys in C0. now apply memId_notIn in C0.
Qed.

(** The keys of an object: the array indices, ascending, then the other
    keys. *)
Lemma canonical_indices_first (o : obj) :
  canonical o = true ->
  keys o = filter (fun k => negb (notArrayIndex k)) (keys o)
           ++ filter notArrayIndex (keys o) /\
  ascendingIndices (filter (fun k => negb (notArrayIndex k)) (keys o)) = true.
Proof.
  induction o as [|[k v] o IH]; simpl; intros C; [auto|].
  apply andb_true_iff in C as [C C2]. apply andb_true_iff in C as [_ C1].
  destruct (IH C2) as [E A].
  destruct (arrayIndex k) as [n|] eqn:Ak.
  - assert (Nk : notArrayIndex k = false) by (unfold notArrayIndex; now rewrite Ak).
    rewrite Nk. simpl. split; [now rewrite <- E|]. rewrite Ak, A, andb_true_r.
    apply forallb_forall. intros k' Hk'. apply filter_In in Hk' as [Hk' I].
    rewrite forallb_forall in C1.
    apply in_map_iff in Hk' as (kv & <- & Hkv). specialize (C1 kv Hkv).
    unfold mayPrecede in C1. rewrite Ak in C1.
    unfold notArrayIndex in I. now destruct (arrayIndex (fst kv)).
  - assert (Nk : notArrayIndex k = true) by (unfold notArrayIndex; now rewrite Ak).
    rewrite Nk. simpl.
    assert (F : forallb notArrayIndex (keys o) = true).
    { apply forallb_forall. intros k' Hk'.
      rewrite forallb_forall in C1.
      apply in_map_iff in Hk' as (kv & <- & Hkv). specialize (C1 kv Hkv).
      unfold mayPrecede in C1. rewrite Ak in C1. unfold notArrayIndex.
      now destruct (arrayIndex (fst kv)). }
    assert (N : filter (fun k => negb (notArrayIndex k)) (keys o) = []).
    { clear - F. induction (keys o) as [|y l IHl]; simpl in *; auto.
      apply andb_true_iff in F as [Fy F]. rewrite Fy. simpl. auto. }
    assert (Y : filter notArrayIndex (keys o) = keys o).
    { clear - F. induction (keys o) as [|y l IHl]; simpl in *; auto.
      apply andb_true_iff in F as [Fy F]. rewrite Fy. f_equal. auto. }
    rewrite N, Y. auto.
Qed.

Lemma formattedKey_lettersOf (key : jsstring) :
  length (filter notLowerLetter (toLowerCase key)) <= 1 ->
  formattedKey key = lettersOf key.
Proof.
  intros L. rewrite formattedKey_removeFirst, removeFirst_filter by exact L.
  apply filter_ext. intros c. unfold notLowerLetter. apply negb_involutive.
Qed.

(** C8, as amended.  Where the scanner's range is the property run (the
    text begins with a property line, or the run reaches the last line),
    the extractor returns a mapping that has exactly the raw keys of the
    property lines, each key once: first the keys that are array indices,
    in ascending order of their numbers, then the other keys in the order
    of their first appearance in the text.  A key with at most one
    character that is no letter has the value the resolved properties
    answer for its letters in lower case.  For ["Title\nfoo:: 1\nbar:: 2"]
    and [{foo:1, bar:2}] this is [{foo:1, bar:2}]; the case of a key is
    kept; and what the resolved properties answer is also what every
    object inherits. *)
Theorem getProperties_maps_raw_keys_to_resolved_values :
  (forall (b : BlockEntity) (props : obj),
      properties b = Some props ->
      scanIsExact (split LF (content b)) = true ->
      let ks := filterMap matchKey (propertyLines (split LF (content b))) in
      exists o,
        getPropertiesFromBlockContent b = Some o /\
        NoDup (keys o) /\
        (forall k, In k (keys o) <-> In k ks) /\
        (exists indices,
            keys o = indices ++ firstOccurrences [] (filter notArrayIndex ks) /\
            ascendingIndices indices = true) /\
        (forall k, In k ks ->
                   length (filter notLowerLetter (toLowerCase k)) <= 1 ->
                   get k o = read (lettersOf k) props)) /\
  getPropertiesFromBlockContent
    (block (join [LF] [u "Title"; u "foo:: 1"; u "bar:: 2"])
           [(u "foo", VNum 1); (u "bar", VNum 2)])
  = Some [(u "foo", VNum 1); (u "bar", VNum 2)] /\
  getPropertiesFromBlockContent
    (block (join [LF] [u "Title"; u "Foo:: 1"; u "bar:: 2"])
           [(u "bar", VNum 2); (u "foo", VNum 1)])
  = Some [(u "Foo", VNum 1); (u "bar", VNum 2)] /\
  getPropertiesFromBlockContent (block (u "constructor:: x") [])
  = Some [(u "constructor", VFun (u "Object"))].
Proof.
  split; [|vm_compute; repeat split; reflexivity].
  intros b props P X ks.
  destruct (getProperties_of_keys b P) as (E & H & G & _).
  rewrite (scannedLines_exact _ X) in E, H, G. fold ks in E, H, G.
  exists (fromEntries (map (entryOf props) ks)).
  pose proof (canonical_fromEntries (map (entryOf props) ks)) as C.
  split; [exact E|]. split; [now apply canonical_NoDup|]. split; [|split].
  - intros k. rewrite <- !memId_In, memId_keys. now rewrite H.
  - destruct (canonical_indices_first _ C) as [K A].
    eexists. split; [|exact A]. rewrite K at 1. f_equal.
    unfold fromEntries. rewrite filter_named_fold_set, map_fst_entryOf. reflexivity.
  - intros k Hk L. rewrite (G k Hk). now rewrite (formattedKey_lettersOf _ L).
Qed.

Lemma getProperties_maps_raw_keys_to_resolved_values_witness :
  exists o,
    getPropertiesFromBlockContent
      (block (join [LF] [u "2:: x"; u "Fix_Issue:: y"; u "1:: z"; u "a:: 1"])
             [(u "fixissue", VStr (u "open")); (u "a", VNum 1)]) = Some o /\
    NoDup (keys o) /\
    (forall k, In k (keys o) <-> In k [u "2"; u "Fix_Issue"; u "1"; u "a"]) /\
    (exists indices,
        keys o = indices
                 ++ firstOccurrences []
                      (filter notArrayIndex [u "2"; u "Fix_Issue"; u "1"; u "a"]) /\
        ascendingIndices indices = true) /\
    (forall k, In k [u "2"; u "Fix_Issue"; u "1"; u "a"] ->
               length (filter notLowerLetter (toLowerCase k)) <= 1 ->
               get k o
               = read (lettersOf k) [(u "fixissue", VStr (u "open")); (u "a", VNum 1)]).
Proof.
  exact (proj1 getProperties_maps_raw_keys_to_resolved_values
               (block (join [LF] [u "2:: x"; u "Fix_Issue:: y"; u "1:: z"; u "a:: 1"])
                      [(u "fixissue", VStr (u "open")); (u "a", VNum 1)])
               [(u "fixissue", VStr (u "open")); (u "a", VNum 1)]
               eq_refl eq_refl).
Defined.
